(** * Adaptive explicit Runge-Kutta stepping: a model of [scipy_ode/rk.py]

    The development embeds the three pieces of [rk.py]: the stage evaluator
    [rk_step], the adaptive stepper [RungeKutta.step] and the dense-output
    builder [RungeKutta.spline].

    Numbers are exact reals: [float] values are read as elements of [R], and
    rounding and overflow are not modelled.  Where the program relies on the
    IEEE behaviour of a non-finite value, the value is modelled: the scalars
    of the step-size controller are [npfloat]s ([max_step = np.inf],
    [0.0 ** negative = inf], an error norm that is [inf] or [nan]), and the
    elements of the scaled error array [error / scale] are [xfloat]s (a zero
    scale gives [inf] or [nan]).  What is left out (an operand that NumPy
    would broadcast, an infinite step size, a negative base of a power) is
    reported as the failure [Unmodelled], never given an arbitrary value. *)

From Stdlib Require Import Reals Lra Lia ZArith.
From stdpp Require Import base list.

Open Scope R_scope.

(** ** Outcomes of Python code *)

(** The exceptions the modelled code can raise. *)
Inductive exn : Type :=
  | ValueError          (* NumPy shape mismatch *)
  | IndexError          (* row index out of range *)
  | TypeError           (* arithmetic on [None] *)
  | ZeroDivisionError   (* Python [/] with a zero divisor *)
  | FloatingPointError. (* NumPy error state set to raise *)

Inductive failure : Type :=
  | Exn (e : exn)
  | OutOfFuel     (* the [while True] loop did not exit within the fuel *)
  | Unmodelled.   (* behaviour of NumPy that the model leaves out *)

Inductive outcome (T : Type) : Type :=
  | Ok (a : T)
  | Fail (e : failure).
Arguments Ok {T} a.
Arguments Fail {T} e.

#[global] Instance outcome_ret : MRet outcome := fun _ a => Ok a.
#[global] Instance outcome_bind : MBind outcome := fun _ _ k m =>
  match m with
  | Ok a => k a
  | Fail e => Fail e
  end.

(** A vector is a one-dimensional [ndarray]; a matrix is a two-dimensional
    one, stored by rows. *)
Abbreviation vec := (list R) (only parsing).
Abbreviation matrix := (list (list R)) (only parsing).

(** One evaluation of the right-hand side: the arguments it was called on. *)
Definition call : Type := (R * vec)%type.

(** Computations that may call the right-hand side: the log of calls made so
    far is threaded through. *)
Definition comp (T : Type) : Type := list call -> outcome (T * list call).

#[global] Instance comp_ret : MRet comp := fun _ a log => Ok (a, log).
#[global] Instance comp_bind : MBind comp := fun _ _ k m log =>
  match m log with
  | Ok (a, log') => k a log'
  | Fail e => Fail e
  end.

Definition lift {T : Type} (o : outcome T) : comp T := fun log =>
  match o with
  | Ok a => Ok (a, log)
  | Fail e => Fail e
  end.

Definition fail {T : Type} (e : failure) : comp T := fun _ => Fail e.

(** Comparisons of reals are decided by the standard library's (classical)
    deciders. *)
#[global] Instance R_eq_dec : EqDecision R := Req_dec_T.
#[global] Instance Rlt_decision (x y : R) : Decision (x < y) := Rlt_dec x y.
#[global] Instance Rgt_decision (x y : R) : Decision (x > y) := Rgt_dec x y.

(** ** NumPy primitives *)

(** The shapes [(m,)] and [(k,)] differ and NumPy broadcasts one to the
    other: one of the arrays has length one. *)
Definition broadcasts (m k : nat) : Prop := m <> k /\ (m = 1%nat \/ k = 1%nat).

#[global] Instance broadcasts_dec m k : Decision (broadcasts m k).
Proof. unfold broadcasts. apply _. Defined.

(** Element-wise binary operation on two arrays of shape [(n,)].  When the
    shapes differ NumPy broadcasts an operand of length one, which is not
    modelled, and raises [ValueError] otherwise. *)
Definition np_zip (op : R -> R -> R) (u v : vec) : outcome vec :=
  if decide (length u = length v) then Ok (zip_with op u v)
  else if decide (broadcasts (length u) (length v)) then Fail Unmodelled
  else Fail (Exn ValueError).

Definition np_add : vec -> vec -> outcome vec := np_zip Rplus.
Definition np_maximum : vec -> vec -> outcome vec := np_zip Rmax.
Definition np_abs (v : vec) : vec := map Rabs v.

(** An element of a [float64] array that may not be a number. *)
Inductive xfloat : Type :=
  | XFin (x : R)
  | XPInf
  | XNInf
  | XNaN.

#[global] Instance xfloat_eq_dec : EqDecision xfloat.
Proof. solve_decision. Defined.

(** NumPy's treatment of a floating-point error of one category
    ([np.seterr(divide=..., invalid=...)]); [call], [print] and [log] behave
    like [warn] as far as the control flow goes. *)
Inductive errmode : Type := em_ignore | em_warn | em_raise.

#[global] Instance errmode_eq_dec : EqDecision errmode.
Proof. solve_decision. Defined.

(** The error state in force: the categories [divide] (a nonzero number
    divided by zero, [0.0 ** negative]) and [invalid] ([0.0 / 0.0]) are the
    two that the modelled code can signal. *)
Record errstate : Type := mk_errstate {
  es_divide : errmode;
  es_invalid : errmode
}.

(** [np.seterr(all=m)]; NumPy's default is [seterr_all em_warn].  An
    [errmode] written where an [errstate] is expected stands for it. *)
Definition seterr_all (m : errmode) : errstate := mk_errstate m m.
Coercion seterr_all : errmode >-> errstate.

(** [x / y] on two [float64]: [x / 0.0] is [inf] with the sign of [x], and
    [0.0 / 0.0] is [nan]. *)
Definition div_float (x y : R) : xfloat :=
  if decide (y = 0) then
    if decide (x = 0) then XNaN
    else if decide (0 < x) then XPInf else XNInf
  else XFin (x / y).

Definition is_inf (e : xfloat) : Prop := e = XPInf \/ e = XNInf.

#[global] Instance is_inf_dec e : Decision (is_inf e).
Proof. unfold is_inf. apply _. Defined.

(** [u / v] under the error state [es]: a division by zero signals
    [divide], and [0.0 / 0.0] signals [invalid]; NumPy looks for [divide]
    first.  Unless the category is set to raise, the array is returned with
    its [inf] and [nan] elements. *)
Definition np_divide (es : errstate) (u v : vec) : outcome (list xfloat) :=
  if decide (length u = length v) then
    let q := zip_with div_float u v in
    if decide (es_divide es = em_raise /\ Exists is_inf q)
    then Fail (Exn FloatingPointError)
    else if decide (es_invalid es = em_raise /\ Exists (fun e => e = XNaN) q)
    then Fail (Exn FloatingPointError)
    else Ok q
  else if decide (broadcasts (length u) (length v)) then Fail Unmodelled
  else Fail (Exn ValueError).

(** Scalar times array and array times scalar. *)
Definition smul (a : R) (v : vec) : vec := map (fun x => a * x) v.
Definition muls (v : vec) (a : R) : vec := map (fun x => x * a) v.

Definition dot (u v : vec) : R := foldr Rplus 0 (zip_with Rmult u v).

(** [rows.T] for [rows] of shape [(m, n)]: [n] columns of length [m]. *)
Definition transpose (n : nat) (rows : matrix) : matrix :=
  map (fun i => map (fun r => nth i r 0) rows) (seq 0 n).

(** [np.dot(rows.T, a)] for [rows] of shape [(m, n)] and [a] of shape
    [(k,)]: [ValueError] unless [m = k]. *)
Definition np_dot_T (n : nat) (rows : matrix) (a : vec) : outcome vec :=
  if decide (length rows = length a) then
    Ok (map (fun col => dot col a) (transpose n rows))
  else Fail (Exn ValueError).

(** [K[i] = v] on an array [K] with [n] columns.  NumPy broadcasts a [v] of
    length one to the row, which is not modelled. *)
Definition set_row (n : nat) (K : matrix) (i : nat) (v : vec) : outcome matrix :=
  if decide (i < length K)%nat then
    if decide (length v = n) then Ok (<[i := v]> K)
    else if decide (length v = 1%nat) then Fail Unmodelled
    else Fail (Exn ValueError)
  else Fail (Exn IndexError).

(** ** The stage evaluator *)

Section StageEvaluator.

(** The right-hand side of the system, [fun(t, y)]. *)
Variable fun_ : R -> vec -> vec.

Definition call_fun (t : R) (y : vec) : comp vec := fun log =>
  Ok (fun_ t y, log ++ [(t, y)]).

(** The body of [for s, (a, c) in enumerate(zip(A, C))], started at
    index [s]. *)
Fixpoint rk_stages (n : nat) (t : R) (y : vec) (h : R) (s : nat)
    (AC : list (vec * R)) (K : matrix) : comp matrix :=
  match AC with
  | [] => mret K
  | (a, c) :: rest =>
      d ← lift (np_dot_T n (take (S s) K) a);
      let dy := muls d h in
      arg ← lift (np_add y dy);
      v ← call_fun (t + c * h) arg;
      K' ← lift (set_row n K (S s) v);
      rk_stages n t y h (S s) rest K'
  end.

(** [rk_step(fun, t, y, f, h, A, B, C, E, K)]; [n] is [K.shape[1]].  The
    buffer [K] is mutated in place, so the final buffer is returned with
    the results. *)
Definition rk_step (n : nat) (t : R) (y f : vec) (h : R)
    (A : list vec) (B C E : vec) (K : matrix)
    : comp (vec * vec * vec * matrix) :=
  K0 ← lift (set_row n K 0 f);
  K1 ← rk_stages n t y h 0 (zip A C) K0;
  d ← lift (np_dot_T n (removelast K1) B);
  y_new ← lift (np_add y (smul h d));
  f_new ← call_fun (t + h) y_new;
  K2 ← lift (set_row n K1 (length K1 - 1) f_new);
  e ← lift (np_dot_T n K2 E);
  mret (y_new, f_new, muls e h, K2).

End StageEvaluator.

(** ** Scalars of the step-size controller *)

(** A [float64] that may be [+inf] or [nan]: the default [max_step] is
    [np.inf], [0.0 ** e] is [inf] for a negative [e], and the error norm of
    an array with an [inf] or a [nan] is [inf] or [nan]. *)
Inductive npfloat : Type :=
  | Fin (r : R)
  | PInf
  | NaN.

(** [a < b] on floats: every comparison with [nan] is false. *)
Definition np_lt (a b : npfloat) : bool :=
  match a, b with
  | Fin x, Fin y => bool_decide (x < y)
  | Fin _, PInf => true
  | _, _ => false
  end.

(** Python's built-in [max(a, b)] and [min(a, b)]: the first argument is
    kept unless the second is strictly larger (smaller). *)
Definition py_max (a b : npfloat) : npfloat := if np_lt a b then b else a.
Definition py_min (a b : npfloat) : npfloat := if np_lt b a then b else a.

(** [a * x] for a real [a]: [a * inf] is [inf] for a positive [a] (the
    other signs of [a] are not modelled), and [a * nan] is [nan]. *)
Definition np_mul (a : R) (x : npfloat) : outcome npfloat :=
  match x with
  | Fin r => Ok (Fin (a * r))
  | PInf => if decide (0 < a) then Ok PInf else Fail Unmodelled
  | NaN => Ok NaN
  end.

(** A value stored as a step size has to be a number: a step size that is
    [inf] or [nan] is not modelled. *)
Definition finite (x : npfloat) : outcome R :=
  match x with
  | Fin r => Ok r
  | PInf | NaN => Fail Unmodelled
  end.

(** Python's [a / b] with an [int] divisor. *)
Definition py_truediv (a : R) (b : Z) : outcome R :=
  if decide (b = 0%Z) then Fail (Exn ZeroDivisionError) else Ok (a / IZR b).

(** [x ** e] on a NumPy scalar [x], under the setting [divide] of the
    error state.  The bases are error norms: a negative base is not
    modelled.  [0.0 ** negative] signals [divide] and is [inf];
    [inf ** negative] is [0.0]; a [nan] propagates without a signal. *)
Definition np_power (divide : errmode) (x : npfloat) (e : R) : outcome npfloat :=
  match x with
  | Fin x =>
      if decide (x < 0) then Fail Unmodelled
      else if decide (x = 0) then
        if decide (e < 0) then
          match divide with
          | em_raise => Fail (Exn FloatingPointError)
          | em_ignore | em_warn => Ok PInf
          end
        else if decide (e = 0) then Ok (Fin 1) else Ok (Fin 0)
      else Ok (Fin (Rpower x e))
  | PInf =>
      if decide (e < 0) then Ok (Fin 0)
      else if decide (e = 0) then Ok (Fin 1) else Ok PInf
  | NaN => if decide (e = 0) then Ok (Fin 1) else Ok NaN
  end.

(** Multiply steps computed from asymptotic behaviour of errors by this. *)
Definition SAFETY : R := 0.9.
(** Maximum allowed increase in a step size. *)
Definition MAX_FACTOR : R := 5.
(** Minimum allowed decrease in a step size. *)
Definition MIN_FACTOR : R := 0.2.

(** ** The adaptive stepper *)

Inductive SolverStatus : Type := created | started | running | finished | failed.

#[global] Instance SolverStatus_eq_dec : EqDecision SolverStatus.
Proof. solve_decision. Defined.

(** [RungeKutta.OdeState]. *)
Record OdeState : Type := mkOdeState {
  st_t : R;
  st_y : vec;
  st_f : vec;
  st_ym : option vec
}.

(** [atol]: a float or an array of shape [(n,)]. *)
Inductive tol : Type :=
  | AtolScalar (a : R)
  | AtolArray (v : vec).

(** [atol + v]. *)
Definition add_tol (atol : tol) (v : vec) : outcome vec :=
  match atol with
  | AtolScalar a => Ok (map (fun x => a + x) v)
  | AtolArray w => np_add w v
  end.

(** The attributes of a [RungeKutta] instance that [step] and [spline] read
    or write ([t_crit], [direction], [status] and [n] come from the base
    class). *)
Record RungeKutta : Type := mkRungeKutta {
  rk_state : OdeState;
  rk_t_crit : R;
  rk_direction : R;
  rk_status : SolverStatus;
  rk_n : nat;
  rk_C : vec;
  rk_A : list vec;
  rk_B : vec;
  rk_E : vec;
  rk_M : option vec;
  rk_K : matrix;
  rk_order : Z;
  rk_max_step : npfloat;
  rk_rtol : R;
  rk_atol : tol;
  rk_step_size : R
}.

(** Lines 128-134: the trial step from magnitude [h_abs], as
    [(h_abs, t_new, h)]. *)
Definition clamp (t b s d h_abs : R) : R * R * R :=
  if decide (h_abs > d) then (d, b, d * s)
  else (h_abs, t + h_abs * s, h_abs * s).

(** What one pass through the [while True] loop computes. *)
Record trial : Type := mkTrial {
  tr_h_in : R;        (* [h_abs] at the top of the loop *)
  tr_h_abs : R;       (* [h_abs] after the clamp *)
  tr_t_new : R;
  tr_h : R;
  tr_y_new : vec;
  tr_f_new : vec;
  tr_error : vec;
  tr_error_norm : npfloat;
  tr_K : matrix       (* the stage buffer after [rk_step] *)
}.

(** The numbers of an array of numbers. *)
Definition numbers (q : list xfloat) : vec :=
  map (fun e => match e with XFin x => x | _ => 0 end) q.

(** [norm] of [common.py] is not part of the sources at hand.  On an array
    of numbers it is the parameter [norm]; on an array with a [nan] it is
    taken to return [nan], and on an array with an infinity and no [nan] to
    return [inf], as a root-mean-square computed in floating point does. *)
Definition norm_float (norm : vec -> R) (q : list xfloat) : npfloat :=
  if decide (Exists (fun e => e = XNaN) q) then NaN
  else if decide (Exists is_inf q) then PInf
  else Fin (norm (numbers q)).

Section Stepper.

Variable fun_ : R -> vec -> vec.
(** [norm] of [common.py], the weighted root-mean-square norm, on arrays
    of numbers. *)
Variable norm : vec -> R.
(** The error state in force when [step] is called. *)
Variable ambient : errstate.

(** One pass of the loop, lines 128-138, with [d] of line 124. *)
Definition attempt (sv : RungeKutta) (h_abs : R) (K : matrix) : comp trial :=
  let t := st_t (rk_state sv) in
  let y := st_y (rk_state sv) in
  let f := st_f (rk_state sv) in
  let b := rk_t_crit sv in
  let d := Rabs (b - t) in
  let '(h_abs', t_new, h) := clamp t b (rk_direction sv) d h_abs in
  '(y_new, f_new, error, K') ←
    rk_step fun_ (rk_n sv) t y f h (rk_A sv) (rk_B sv) (rk_C sv) (rk_E sv) K;
  m ← lift (np_maximum (np_abs y) (np_abs y_new));
  scale ← lift (add_tol (rk_atol sv) (muls m (rk_rtol sv)));
  q ← lift (np_divide ambient error scale);
  mret (mkTrial h_abs h_abs' t_new h y_new f_new error (norm_float norm q) K').

(** Line 141: the magnitude to retry with after a rejection. *)
Definition shrink (sv : RungeKutta) (tr : trial) : outcome R :=
  e ← py_truediv (-1) (rk_order sv);
  p ← np_power (es_divide ambient) (tr_error_norm tr) e;
  sp ← np_mul SAFETY p;
  fac ← finite (py_max (Fin MIN_FACTOR) sp);
  mret (tr_h_abs tr * fac).

(** The [while True] loop; the result is the accepted trial together with
    the rejected ones, in the order they were made.  The test of line 140,
    [error_norm > 1], is false for a [nan]. *)
Fixpoint step_loop (fuel : nat) (sv : RungeKutta) (h_abs : R) (K : matrix)
    : comp (trial * list trial) :=
  match fuel with
  | O => fail OutOfFuel
  | S fuel' =>
      tr ← attempt sv h_abs K;
      if np_lt (Fin 1) (tr_error_norm tr) then
        h_abs' ← lift (shrink sv tr);
        '(acc, rej) ← step_loop fuel' sv h_abs' (tr_K tr);
        mret (acc, tr :: rej)
      else mret (tr, [])
  end.

(** Lines 146-148: the step size stored for the next call. *)
Definition grow (sv : RungeKutta) (tr : trial) : outcome R :=
  e ← py_truediv (-1) (rk_order sv);
  p ← np_power em_ignore (tr_error_norm tr) e;
  sp ← np_mul SAFETY p;
  fac ← finite (py_min (Fin MAX_FACTOR) (py_max (Fin 1) sp));
  finite (py_min (Fin (tr_h_abs tr * fac)) (rk_max_step sv)).

(** Lines 150-153. *)
Definition midpoint (sv : RungeKutta) (tr : trial) : outcome (option vec) :=
  match rk_M sv with
  | Some m =>
      d ← np_dot_T (rk_n sv) (tr_K tr) m;
      ym ← np_add (st_y (rk_state sv)) (smul (0.5 * tr_h tr) d);
      mret (Some ym)
  | None => mret None
  end.

(** Lines 159-164. *)
Definition next_status (t_new b t : R) : SolverStatus :=
  if decide (t_new = b) then finished
  else if decide (t_new = t) then failed
  else running.

Definition step (fuel : nat) (sv : RungeKutta) : comp RungeKutta :=
  if decide (rk_status sv <> running /\ rk_status sv <> started) then mret sv
  else
    '(tr, _) ← step_loop fuel sv (rk_step_size sv) (rk_K sv);
    h_abs ← lift (grow sv tr);
    ym ← lift (midpoint sv tr);
    f' ← call_fun fun_ (tr_t_new tr) (tr_y_new tr);
    mret (mkRungeKutta
            (mkOdeState (tr_t_new tr) (tr_y_new tr) f' ym)
            (rk_t_crit sv) (rk_direction sv)
            (next_status (tr_t_new tr) (rk_t_crit sv) (st_t (rk_state sv)))
            (rk_n sv) (rk_C sv) (rk_A sv) (rk_B sv) (rk_E sv) (rk_M sv)
            (tr_K tr) (rk_order sv) (rk_max_step sv) (rk_rtol sv)
            (rk_atol sv) h_abs).

End Stepper.

(** ** The dense-output builder *)

(** Element-wise operations on arrays of one shape [(m, n)], and the
    operations with the column [h[:, None]] of shape [(m, 1)]. *)
Definition madd (X Y : matrix) : matrix := zip_with (zip_with Rplus) X Y.
Definition msub (X Y : matrix) : matrix := zip_with (zip_with Rminus) X Y.
Definition mscale (a : R) (X : matrix) : matrix := map (smul a) X.
Definition mdivc (X : matrix) (h : vec) : matrix :=
  zip_with (fun row hi => map (fun x => x / hi) row) X h.
Definition hpow (h : vec) (k : nat) : vec := map (fun x => x ^ k) h.

Declare Scope ndarray_scope.
Delimit Scope ndarray_scope with nd.
Infix "+" := madd : ndarray_scope.
Infix "-" := msub : ndarray_scope.
Infix "*:" := mscale : ndarray_scope.
Infix "/" := mdivc : ndarray_scope.
Infix "**" := hpow (at level 30, right associativity) : ndarray_scope.

(** [np.asarray] of a list of one-dimensional arrays: the rows must have one
    length ([ValueError] for a ragged list, as in NumPy 1.24 and later). *)
Definition np_asarray (rows : list vec) : outcome matrix :=
  if decide (Forall (fun r => length r = length (hd [] rows)) rows) then Ok rows
  else Fail (Exn ValueError).

(** The arrays of a list without [None]. *)
Fixpoint collect_ym (yms : list (option vec)) : option (list vec) :=
  match yms with
  | [] => Some []
  | None :: _ => None
  | Some v :: rest => vs ← collect_ym rest; Some (v :: vs)
  end.

(** [np.asarray([state.ym ...])] as far as the arithmetic of line 205.  A
    list of [None] only makes an array of objects, on which line 205 raises
    [TypeError]; a list that mixes arrays and [None] is ragged, and
    [np.asarray] raises [ValueError] (NumPy 1.24 and later). *)
Definition asarray_ym (yms : list (option vec)) : outcome (list vec) :=
  match collect_ym yms with
  | Some vs => Ok vs
  | None =>
      if decide (Forall (fun o => o = None) yms) then Fail (Exn TypeError)
      else Fail (Exn ValueError)
  end.

(** [np.diff(t)]. *)
Definition np_diff (t : vec) : vec := zip_with Rminus (tail t) t.

(** The shape [(m, n)] of a two-dimensional array. *)
Definition has_shape (m n : nat) (X : matrix) : Prop :=
  length X = m /\ Forall (fun r => length r = n) X.

#[global] Instance has_shape_dec m n X : Decision (has_shape m n X).
Proof. unfold has_shape. apply _. Defined.

Definition ym_has_shape (m n : nat) (ym : option matrix) : Prop :=
  match ym with
  | Some v => has_shape m n v
  | None => True
  end.

#[global] Instance ym_has_shape_dec m n ym : Decision (ym_has_shape m n ym).
Proof. destruct ym; simpl; apply _. Defined.

(** Lines 196-202: the coefficients [c[0..3]] of the cubic Hermite pieces. *)
Definition cubic_coefficients (h : vec) (y0 y1 f0 f1 : matrix) : list matrix :=
  let slope := ((y1 - y0) / h)%nd in
  let tt := ((f0 + f1 - 2 *: slope) / h)%nd in
  [ (tt / h)%nd;
    ((slope - f0) / h - tt)%nd;
    f0;
    y0 ].

(** Lines 204-209: the coefficients [c[0..4]] of the quartic pieces. *)
Definition quartic_coefficients (h : vec) (y0 y1 f0 f1 ym : matrix) : list matrix :=
  [ (((-8) *: y0 - 8 *: y1 + 16 *: ym) / h ** 4 + ((-2) *: f0 + 2 *: f1) / h ** 3)%nd;
    ((18 *: y0 + 14 *: y1 - 32 *: ym) / h ** 3 + (5 *: f0 - 3 *: f1) / h ** 2)%nd;
    (((-11) *: y0 - 5 *: y1 + 16 *: ym) / h ** 2 + ((-4) *: f0 + f1) / h)%nd;
    f0;
    y0 ].

(** What [spline] returns: a [PointSpline] of [common.py] or a
    [scipy.interpolate.PPoly] with coefficients [c[k][i]] (degree index [k],
    highest degree first; piece index [i]) and breakpoints [x]. *)
Inductive dense : Type :=
  | PointSpline (t : R) (y : vec)
  | PPoly (c : list matrix) (x : vec).

(** Modelled from the SciPy documentation: the constructor of [PPoly], which
    is not part of this repository.  It rejects breakpoints that are neither
    increasing nor decreasing. *)
Definition PPoly_init (c : list matrix) (x : vec) : outcome dense :=
  if decide (Forall (fun d => 0 <= d) (np_diff x) \/
             Forall (fun d => d <= 0) (np_diff x))
  then Ok (PPoly c x)
  else Fail (Exn ValueError).

(** Lines 186-212 of [spline]: the pieces over the breakpoints [t], from
    the arrays [y], [f] and [ym] in increasing order of [t].  Arrays [f] and
    [ym] whose rows are not as wide as those of [y] are broadcast by NumPy
    or make it raise, and equal times give coefficients that are not
    numbers: neither is modelled. *)
Definition spline_pieces (t : vec) (y f : matrix) (ym : option matrix) : outcome dense :=
  let h := np_diff t in
  let y0 := removelast y in
  let y1 := tail y in
  let f0 := removelast f in
  let f1 := tail f in
  let n_points := length y in
  let n := length (hd [] y) in
  if decide (has_shape n_points n f /\ ym_has_shape (n_points - 1) n ym) then
    if decide (Forall (fun x => x <> 0) h) then
      match ym with
      | None => PPoly_init (cubic_coefficients h y0 y1 f0 f1) t
      | Some ym => PPoly_init (quartic_coefficients h y0 y1 f0 f1 ym) t
      end
    else Fail Unmodelled
  else Fail Unmodelled.

(** Lines 171-184 of [spline]: the arrays of the states, put in increasing
    order of [t]. *)
Definition spline_arrays (M : option vec) (states : list OdeState)
    : outcome (vec * matrix * option matrix * matrix) :=
  let t := map st_t states in
  y ← np_asarray (map st_y states);
  f ← np_asarray (map st_f states);
  ym ← match M with
       | Some _ => v ← asarray_ym (map st_ym (tail states)); mret (Some v)
       | None => mret None
       end;
  if decide (List.last t 0 < hd 0 t)
  then mret (reverse t, reverse y, reverse <$> ym, reverse f)
  else mret (t, y, ym, f).

(** [RungeKutta.spline(states)]; [M] is [self.M]. *)
Definition spline (M : option vec) (states : list OdeState) : outcome dense :=
  match states with
  | [] => Fail (Exn IndexError)
  | [state] => Ok (PointSpline (st_t state) (st_y state))
  | _ =>
      '(t, y, ym, f) ← spline_arrays M states;
      spline_pieces t y f ym
  end.

(** Modelled from the SciPy documentation: evaluation of a [PPoly].  Piece
    [i] is the polynomial [sum_k c[k][i] * (x - x[i]) ** (deg - k)] in the
    local offset; [cs] lists the coefficients of one component, highest
    degree first. *)
Fixpoint poly_eval (cs : list R) (tau : R) : R :=
  match cs with
  | [] => 0
  | c :: rest => c * tau ^ length rest + poly_eval rest tau
  end.

(** The coefficients of the derivative of the polynomial [cs]. *)
Fixpoint poly_deriv (cs : list R) : list R :=
  match cs with
  | [] => []
  | c :: rest =>
      match rest with
      | [] => []
      | _ :: _ => INR (length rest) * c :: poly_deriv rest
      end
  end.





(** ** The tableau catalog *)

(** Bogacki-Shampine scheme ([RungeKutta23.__init__]). *)
Definition C23 : vec := [1 / 2; 3 / 4].
Definition A23 : list vec := [[1 / 2]; [0; 3 / 4]].
Definition B23 : vec := [2 / 9; 1 / 3; 4 / 9].
Definition E23 : vec := [5 / 72; -1 / 12; -1 / 9; 1 / 8].

(** Dormand-Prince scheme ([RungeKutta45.__init__]). *)
Definition C45 : vec := [1 / 5; 3 / 10; 4 / 5; 8 / 9; 1].
Definition A45 : list vec :=
  [ [1 / 5];
    [3 / 40; 9 / 40];
    [44 / 45; -56 / 15; 32 / 9];
    [19372 / 6561; -25360 / 2187; 64448 / 6561; -212 / 729];
    [9017 / 3168; -355 / 33; 46732 / 5247; 49 / 176; -5103 / 18656] ].
Definition B45 : vec := [35 / 384; 0; 500 / 1113; 125 / 192; -2187 / 6784; 11 / 84].
Definition E45 : vec :=
  [-71 / 57600; 0; 71 / 16695; -71 / 1920; 17253 / 339200; -22 / 525; 1 / 40].
Definition M45 : vec :=
  [613 / 3072; 0; 125 / 159; -125 / 1536; 8019 / 54272; -11 / 96; 1 / 16].

(** ** Shapes *)

(** The invariant of a Butcher tableau with [n_stages = length B]. *)
Record wf_tableau (A : list vec) (B C E : vec) : Prop := mk_wf_tableau {
  wf_len_A : length A = length C;
  wf_len_B : length B = S (length A);
  wf_len_E : length E = S (length B);
  wf_rows_A : forall s a, A !! s = Some a -> length a = S s
}.

(** The right-hand side maps arrays of shape [(n,)] to arrays of shape
    [(n,)]. *)
Definition preserves_shape (n : nat) (fun_ : R -> vec -> vec) : Prop :=
  forall t y, length y = n -> length (fun_ t y) = n.

(** ** The stage recursion as the specification words it *)

Definition vadd (u v : vec) : vec := zip_with Rplus u v.

(** [rowsᵗ · a]: the sum of the rows, row [j] weighted by [a[j]]. *)
Fixpoint lincomb (n : nat) (rows : matrix) (a : vec) : vec :=
  match rows, a with
  | r :: rows', x :: a' => vadd (smul x r) (lincomb n rows' a')
  | _, _ => repeat 0 n
  end.

(** Section 4.1 of the specification, items 1 to 5, for [n_stages = length B]
    and the final content [K] of the stage buffer. *)
Record rk_step_spec (fun_ : R -> vec -> vec) (n : nat) (t : R) (y f : vec)
    (h : R) (A : list vec) (B C E : vec)
    (K : matrix) (y_new f_new error : vec) : Prop := mk_rk_step_spec {
  spec_first : K !! 0%nat = Some f;
  spec_stage : forall s a c,
    A !! s = Some a -> C !! s = Some c ->
    K !! S s = Some (fun_ (t + c * h) (vadd y (smul h (lincomb n (take (S s) K) a))));
  spec_y_new : y_new = vadd y (smul h (lincomb n (take (length B) K) B));
  spec_f_new : f_new = fun_ (t + h) y_new;
  spec_last : K !! length B = Some f_new;
  spec_error : error = smul h (lincomb n K E)
}.

(** ** The stepper as the specification words it *)

(** Section 4.2(c): the per-component error scale
    [atol + rtol * max(|y|, |y_new|)]. *)
Definition error_scale (atol : tol) (rtol : R) (y y_new : vec) : vec :=
  let m := zip_with Rmax (map Rabs y) (map Rabs y_new) in
  match atol with
  | AtolScalar a => map (fun x => a + rtol * x) m
  | AtolArray w => zip_with (fun a x => a + rtol * x) w m
  end.

(** The weighted scaled error norm of a trial:
    [norm(error / (atol + rtol * max(|y|, |y_new|)))]. *)
Definition scaled_error_norm (norm : vec -> R) (sv : RungeKutta) (tr : trial) : R :=
  norm (zip_with Rdiv (tr_error tr)
          (error_scale (rk_atol sv) (rk_rtol sv) (st_y (rk_state sv)) (tr_y_new tr))).

(** [status] is [Started] or [Running]: [step] acts. *)
Definition active (sv : RungeKutta) : Prop :=
  rk_status sv = started \/ rk_status sv = running.

(** The invariant of a stepper: the shapes of its arrays agree with the
    dimension [n] and with the number of stages. *)
Record wf_solver (fun_ : R -> vec -> vec) (sv : RungeKutta) : Prop := mk_wf_solver {
  wf_tab : wf_tableau (rk_A sv) (rk_B sv) (rk_C sv) (rk_E sv);
  wf_K_rows : length (rk_K sv) = S (length (rk_B sv));
  wf_K_cols : Forall (fun r => length r = rk_n sv) (rk_K sv);
  wf_y : length (st_y (rk_state sv)) = rk_n sv;
  wf_f : length (st_f (rk_state sv)) = rk_n sv;
  wf_M : forall m, rk_M sv = Some m -> length m = S (length (rk_B sv));
  wf_atol : forall w, rk_atol sv = AtolArray w -> length w = rk_n sv;
  wf_fun : preserves_shape (rk_n sv) fun_
}.

(** Positive tolerances: every component of the error scale is positive. *)
Definition positive_tol (sv : RungeKutta) : Prop :=
  0 <= rk_rtol sv /\
  match rk_atol sv with
  | AtolScalar a => 0 < a
  | AtolArray w => Forall (fun a => 0 < a) w
  end.

Section LoopRuns.

Variable fun_ : R -> vec -> vec.
Variable norm : vec -> R.
Variable ambient : errstate.
Variable sv : RungeKutta.

(** The runs of the [while True] loop that exit: from the magnitude
    [h_abs] and the buffer [K], the loop rejects the trials [rej] and
    accepts [acc]. *)
Inductive loop_run : R -> matrix -> list call -> list trial -> trial -> list call -> Prop :=
  | loop_accept h_abs K log tr log' :
      attempt fun_ norm ambient sv h_abs K log = Ok (tr, log') ->
      np_lt (Fin 1) (tr_error_norm tr) = false ->
      loop_run h_abs K log [] tr log'
  | loop_reject h_abs K log tr log1 h_abs' rej acc log' :
      attempt fun_ norm ambient sv h_abs K log = Ok (tr, log1) ->
      np_lt (Fin 1) (tr_error_norm tr) = true ->
      shrink ambient sv tr = Ok h_abs' ->
      loop_run h_abs' (tr_K tr) log1 rej acc log' ->
      loop_run h_abs K log (tr :: rej) acc log'.

End LoopRuns.

(** [a <= b] on floats: false when one of them is [nan]. *)
Definition np_le (a b : npfloat) : Prop :=
  match a, b with
  | Fin x, Fin y => x <= y
  | Fin _, PInf | PInf, PInf => True
  | _, _ => False
  end.

(** [tr] records one pass of the loop of [step] on [sv]. *)
Definition pass_of (fun_ : R -> vec -> vec) (norm : vec -> R)
    (ambient : errstate) (sv : RungeKutta) (tr : trial) : Prop :=
  exists K log log',
    attempt fun_ norm ambient sv (tr_h_in tr) K log = Ok (tr, log').

(** The zero right-hand side [f(t, y) = 0] in dimension [n]. *)
Definition zero_rhs (n : nat) : R -> vec -> vec := fun _ _ => repeat 0 n.

(** ** Ordered sequences of states *)

Definition increasing (t : vec) : Prop :=
  forall i a b, t !! i = Some a -> t !! S i = Some b -> a < b.
Definition decreasing (t : vec) : Prop :=
  forall i a b, t !! i = Some a -> t !! S i = Some b -> b < a.

(** An ordered sequence of at least two states of dimension [n], each but
    the first carrying a midpoint value when the scheme has midpoint
    coefficients [M]. *)
Record ordered_states (n : nat) (M : option vec) (states : list OdeState) : Prop :=
  mk_ordered_states {
    os_two : (2 <= length states)%nat;
    os_order : increasing (map st_t states) \/ decreasing (map st_t states);
    os_y : Forall (fun s => length (st_y s) = n) states;
    os_f : Forall (fun s => length (st_f s) = n) states;
    os_ym : M <> None ->
            Forall (fun s => exists v, st_ym s = Some v /\ length v = n) (tail states)
  }.


(** Modelled from the spec: [norm] of [common.py], the root-mean-square
    norm of a vector. *)
Definition rms_norm (v : vec) : R := sqrt (dot v v / INR (length v)).

(** Two consecutive accepted states of a midpoint scheme in dimension 1,
    in the order they were accepted: each carries the midpoint value of the
    step that produced it. *)
Definition midpoint_states : list OdeState :=
  [ mkOdeState 0 [0] [0] (Some [1]);
    mkOdeState 1 [0] [0] (Some [2]) ].

(** The first two states of a run of a midpoint scheme: the initial state
    has no midpoint value. *)
Definition initial_states : list OdeState :=
  [ mkOdeState 0 [0] [0] None;
    mkOdeState 1 [0] [0] (Some [2]) ].

(** ** Example steppers *)

(** A [RungeKutta23] stepper for [dy/dt = 0] in dimension 1, at [t0] with
    boundary [t_crit]. *)
Definition rk23_stepper (t0 t_crit : R) (status : SolverStatus) : RungeKutta :=
  mkRungeKutta (mkOdeState t0 [1] [0] None) t_crit 1 status 1%nat
    C23 A23 B23 E23 None [[0]; [0]; [0]; [0]] 3 PInf
    (1 / 1000) (AtolScalar (1 / 1000000)) (1 / 10).

(** A [RungeKutta45] stepper for the same problem. *)
Definition rk45_stepper (t0 t_crit : R) (status : SolverStatus) : RungeKutta :=
  mkRungeKutta (mkOdeState t0 [1] [0] None) t_crit 1 status 1%nat
    C45 A45 B45 E45 (Some M45) [[0]; [0]; [0]; [0]; [0]; [0]; [0]] 5 PInf
    (1 / 1000) (AtolScalar (1 / 1000000)) (1 / 10).

(** ** Definitions for the further properties *)

(** The constant right-hand side [f(t, y) = c]. *)
Definition const_rhs (c : vec) : R -> vec -> vec := fun _ _ => c.

(** The sum of the coefficients of one row of a tableau. *)
Definition vsum (a : vec) : R := foldr Rplus 0 a.

(** A state without its midpoint value. *)
Definition clear_ym (s : OdeState) : OdeState :=
  mkOdeState (st_t s) (st_y s) (st_f s) None.


(** ** Test problems *)



(** A right-hand side that is a polynomial in [t] with vector coefficients,
    [f(t, y) = sum_k t^k * coeffs[k]], and its integral from [t0] to [t1]. *)
Definition poly_rhs (n : nat) (coeffs : list vec) : R -> vec -> vec :=
  fun t _ => lincomb n coeffs (map (fun k => t ^ k) (seq 0 (length coeffs))).

Definition poly_rhs_integral (n : nat) (coeffs : list vec) (t0 t1 : R) : vec :=
  lincomb n coeffs
    (map (fun k => (t1 ^ S k - t0 ^ S k) / INR (S k)) (seq 0 (length coeffs))).

(** The stepper [sv] with another stage buffer. *)
Definition with_K (sv : RungeKutta) (K : matrix) : RungeKutta :=
  mkRungeKutta (rk_state sv) (rk_t_crit sv) (rk_direction sv) (rk_status sv)
    (rk_n sv) (rk_C sv) (rk_A sv) (rk_B sv) (rk_E sv) (rk_M sv) K
    (rk_order sv) (rk_max_step sv) (rk_rtol sv) (rk_atol sv) (rk_step_size sv).

(** ** A run with a rejection, and a run with a zero scale *)

(** The right-hand side [f(t, y) = 72 * t^2] in dimension 1. *)
Definition quadratic_rhs : R -> vec -> vec := poly_rhs 1 [[0]; [0]; [72]].

(** A [RungeKutta23] stepper for it, from [y(0) = 0] towards [t_crit = 1],
    with [atol = 1], [rtol = 0] and the stored step size 5, which is beyond
    the boundary. *)
Definition rk23_clamped_stepper : RungeKutta :=
  mkRungeKutta (mkOdeState 0 [0] [0] None) 1 1 started 1%nat
    C23 A23 B23 E23 None [[0]; [0]; [0]; [0]] 3 PInf
    0 (AtolScalar 1) 5.

(** A [RungeKutta23] stepper for [dy/dt = 0] from [y(0) = 0] with
    [atol = 0]: the error scale is zero. *)
Definition rk23_zero_scale_stepper : RungeKutta :=
  mkRungeKutta (mkOdeState 0 [0] [0] None) 1 1 started 1%nat
    C23 A23 B23 E23 None [[0]; [0]; [0]; [0]] 3 PInf
    (1 / 1000) (AtolScalar 0) (1 / 10).

(** * Properties *)

(** ** Reasoning about outcomes *)

Lemma outcome_bind_ok {T U : Type} (m : outcome T) (k : T -> outcome U) (r : U) :
  m ≫= k = Ok r <-> exists a, m = Ok a /\ k a = Ok r.
Proof.
  destruct m as [a|e]; simpl; split.
  - intros H. exists a. split; [reflexivity | exact H].
  - intros (a' & Ha & Hk). injection Ha as <-. exact Hk.
  - discriminate.
  - intros (a' & Ha & _). discriminate.
Qed.

Lemma comp_bind_ok {T U : Type} (m : comp T) (k : T -> comp U) log (r : U * list call) :
  (m ≫= k) log = Ok r <-> exists a log1, m log = Ok (a, log1) /\ k a log1 = Ok r.
Proof.
  unfold mbind, comp_bind. destruct (m log) as [[a log1]|e]; split.
  - intros H. exists a, log1. split; [reflexivity | exact H].
  - intros (a' & l' & Ha & Hk). injection Ha as <- <-. exact Hk.
  - discriminate.
  - intros (a' & l' & Ha & _). discriminate.
Qed.

Lemma lift_ok {T : Type} (o : outcome T) log (a : T) log' :
  lift o log = Ok (a, log') <-> o = Ok a /\ log' = log.
Proof.
  unfold lift. destruct o as [x|e]; split.
  - intros H. injection H as <- <-. split; reflexivity.
  - intros [H ->]. injection H as <-. reflexivity.
  - discriminate.
  - intros [H _]. discriminate.
Qed.

Lemma comp_ret_ok {T : Type} (x a : T) log log' :
  (mret x : comp T) log = Ok (a, log') <-> a = x /\ log' = log.
Proof.
  unfold mret, comp_ret. split.
  - intros H. injection H as <- <-. split; reflexivity.
  - intros [-> ->]. reflexivity.
Qed.

Lemma call_fun_ok fun_ t y log v log' :
  call_fun fun_ t y log = Ok (v, log') <-> v = fun_ t y /\ log' = log ++ [(t, y)].
Proof.
  unfold call_fun. split.
  - intros H. injection H as <- <-. split; reflexivity.
  - intros [-> ->]. reflexivity.
Qed.

(** Breaks a successful run into the successful runs of its parts. *)
Ltac inv_ok :=
  repeat match goal with
  | H : (_ ≫= _) _ = Ok _ |- _ =>
      apply comp_bind_ok in H; destruct H as (? & ? & ? & H)
  | H : _ ≫= _ = Ok _ |- _ =>
      apply outcome_bind_ok in H; destruct H as (? & ? & H)
  | H : lift _ _ = Ok (_, _) |- _ => apply lift_ok in H; destruct H as [H ?]
  | H : call_fun _ _ _ _ = Ok (_, _) |- _ => apply call_fun_ok in H; destruct H as [? ?]
  | H : mret _ _ = Ok (_, _) |- _ => apply comp_ret_ok in H; destruct H as [? ?]
  | H : mret _ = Ok _ |- _ => injection H as H
  | H : (_, _) = (_, _) |- _ => injection H as ? ?
  end.

(** ** Vectors *)

Lemma map_reverse {T U : Type} (g : T -> U) (l : list T) :
  map g (reverse l) = reverse (map g l).
Proof. apply (fmap_reverse g l). Qed.

Lemma muls_smul v a : muls v a = smul a v.
Proof. unfold muls, smul. apply map_ext. intros x. apply Rmult_comm. Qed.

Lemma np_zip_ok op u v w :
  np_zip op u v = Ok w <-> length u = length v /\ w = zip_with op u v.
Proof.
  unfold np_zip. repeat case_decide; split; try discriminate.
  - intros H'. injection H' as <-. split; [assumption | reflexivity].
  - intros [_ ->]. reflexivity.
  - intros [? _]. contradiction.
  - intros [? _]. contradiction.
Qed.

Lemma set_row_ok n K i v K' :
  set_row n K i v = Ok K' <-> (i < length K)%nat /\ length v = n /\ K' = <[i := v]> K.
Proof.
  unfold set_row. repeat case_decide; split; try discriminate.
  - intros H'. injection H' as <-. auto.
  - intros (_ & _ & ->). reflexivity.
  - intros (_ & ? & _). contradiction.
  - intros (_ & ? & _). contradiction.
  - intros (? & _). contradiction.
Qed.

Lemma map_seq_nth (r : vec) n :
  length r = n -> map (fun i => nth i r 0) (seq 0 n) = r.
Proof.
  intros <-. apply nth_ext with (d := 0) (d' := 0).
  - rewrite length_map, length_seq. reflexivity.
  - intros i Hi. rewrite length_map, length_seq in Hi.
    rewrite (nth_indep _ 0 (nth 0 r 0)) by (rewrite length_map, length_seq; exact Hi).
    rewrite (map_nth (fun i => nth i r 0)). rewrite seq_nth by exact Hi. reflexivity.
Qed.

Lemma zip_with_map_same {X Y Z W : Type} (op : Y -> Z -> W) (g : X -> Y) (k : X -> Z) l :
  zip_with op (map g l) (map k l) = map (fun x => op (g x) (k x)) l.
Proof. induction l as [|x l IH]; simpl; [reflexivity | f_equal; exact IH]. Qed.

Lemma length_lincomb n rows a :
  Forall (fun r => length r = n) rows -> length (lincomb n rows a) = n.
Proof.
  intros Hrows. revert a. induction Hrows as [|r rows Hr _ IH]; intros a; simpl.
  - destruct a; apply repeat_length.
  - destruct a as [|x a]; [apply repeat_length|].
    unfold vadd, smul. rewrite length_zip_with, length_map, IH, Hr. lia.
Qed.

(** [np.dot(rows.T, a)] is the linear combination the specification writes. *)
Lemma np_dot_T_lincomb n rows a d :
  Forall (fun r => length r = n) rows ->
  np_dot_T n rows a = Ok d -> d = lincomb n rows a.
Proof.
  unfold np_dot_T. intros Hrows H. case_decide as Hlen; [|discriminate].
  injection H as <-. unfold transpose. rewrite map_map.
  revert a Hlen. induction Hrows as [|r rows Hr _ IH]; intros a Hlen.
  - destruct a; [|discriminate]. simpl.
    clear. generalize 0%nat. induction n as [|n IH]; intros k; simpl; [reflexivity|].
    f_equal. apply IH.
  - destruct a as [|x a]; [discriminate|]. simpl in Hlen. injection Hlen as Hlen.
    simpl lincomb. rewrite <- (IH a Hlen). unfold vadd, smul.
    replace (map (fun x0 : R => x * x0) r)
      with (map (fun x0 : R => x * x0) (map (fun i => nth i r 0) (seq 0 n)))
      by (rewrite (map_seq_nth r n Hr); reflexivity).
    rewrite map_map, zip_with_map_same.
    apply map_ext. intros i. unfold dot. simpl.
    rewrite (Rmult_comm (nth i r 0) x). reflexivity.
Qed.

Lemma take_agree {T : Type} (k : nat) (l l' : list T) :
  (forall i, (i < k)%nat -> l' !! i = l !! i) -> take k l' = take k l.
Proof.
  intros H. apply list_eq. intros i.
  destruct (decide (i < k)%nat) as [Hi|Hi].
  - rewrite !lookup_take_lt by exact Hi. apply H, Hi.
  - rewrite !lookup_take_ge by lia. reflexivity.
Qed.

Lemma bind_lift {T U : Type} (o : outcome T) (a : T) (k : T -> comp U) log :
  o = Ok a -> (lift o ≫= k) log = k a log.
Proof. intros ->. reflexivity. Qed.

Lemma np_zip_total op u v :
  length u = length v -> np_zip op u v = Ok (zip_with op u v).
Proof. intros H. unfold np_zip. rewrite decide_True by exact H. reflexivity. Qed.

Lemma np_dot_T_total n rows a :
  length rows = length a ->
  np_dot_T n rows a = Ok (map (fun col => dot col a) (transpose n rows)).
Proof. intros H. unfold np_dot_T. rewrite decide_True by exact H. reflexivity. Qed.

Lemma np_dot_T_ok n rows a d :
  np_dot_T n rows a = Ok d -> length rows = length a /\ length d = n.
Proof.
  unfold np_dot_T. case_decide; [|discriminate]. intros H'. injection H' as <-.
  split; [assumption|]. unfold transpose. rewrite !length_map, length_seq. reflexivity.
Qed.

Lemma set_row_total n K i v :
  (i < length K)%nat -> length v = n -> set_row n K i v = Ok (<[i := v]> K).
Proof. intros. apply set_row_ok. auto. Qed.

(** ** The stage evaluator *)

Section StageEvaluatorProperties.

Variable fun_ : R -> vec -> vec.
Variables (n : nat) (t : R) (y : vec) (h : R).

(** The stage loop writes rows [s+1 .. s+len(AC)], each with the stage
    value of the specification, and no other row. *)
Lemma rk_stages_sound AC : forall s K log K' log',
  Forall (fun r => length r = n) K ->
  rk_stages fun_ n t y h s AC K log = Ok (K', log') ->
  length K' = length K /\
  Forall (fun r => length r = n) K' /\
  (forall i, (i <= s \/ s + length AC < i)%nat -> K' !! i = K !! i) /\
  (forall j a c, AC !! j = Some (a, c) ->
     K' !! S (s + j) =
       Some (fun_ (t + c * h) (vadd y (smul h (lincomb n (take (S (s + j)) K') a))))) /\
  (s + length AC < length K \/ AC = [])%nat.
Proof.
  induction AC as [|[a c] rest IH]; intros s K log K' log' HK Hrun.
  - simpl in Hrun. inv_ok. subst. repeat split; auto.
    intros j a c Hj. rewrite lookup_nil in Hj. discriminate.
  - simpl in Hrun. inv_ok. subst.
    match goal with H : np_dot_T _ _ _ = Ok ?x |- _ => rename H into Hdot; rename x into d end.
    match goal with H : np_add _ _ = Ok ?x |- _ => rename H into Hadd; rename x into arg end.
    match goal with H : set_row _ _ _ _ = Ok ?d |- _ =>
      apply set_row_ok in H; destruct H as (Hs & Hv & ->) end.
    apply np_dot_T_lincomb in Hdot; [|apply Forall_take; exact HK].
    apply np_zip_ok in Hadd. destruct Hadd as [_ Harg].
    rewrite muls_smul in Harg. fold (vadd y (smul h d)) in Harg.
    apply IH in Hrun; [|apply Forall_insert; assumption].
    destruct Hrun as (Hlen & Hshape & Hframe & Hstage & Hbound).
    rewrite length_insert in Hlen, Hbound.
    assert (Hlow : forall i, (i <= s)%nat -> K' !! i = K !! i).
    { intros i Hi. rewrite Hframe by lia. apply list_lookup_insert_ne. lia. }
    repeat split.
    + exact Hlen.
    + exact Hshape.
    + intros i Hi. simpl in Hi. rewrite Hframe by lia.
      apply list_lookup_insert_ne. lia.
    + intros [|j] a' c' Hj; simpl in Hj.
      * injection Hj as <- <-. rewrite Nat.add_0_r.
        rewrite Hframe by lia. rewrite list_lookup_insert_eq by exact Hs.
        rewrite (take_agree (S s) K K') by (intros i Hi; apply Hlow; lia).
        rewrite Harg, Hdot. reflexivity.
      * specialize (Hstage j a' c' Hj).
        replace (S s + j)%nat with (s + S j)%nat in Hstage by lia. exact Hstage.
    + left. simpl. destruct Hbound as [Hb | ->]; simpl in *; lia.
Qed.

Lemma rk_stages_total AC : forall s K log,
  Forall (fun r => length r = n) K ->
  length y = n ->
  preserves_shape n fun_ ->
  (forall j a c, AC !! j = Some (a, c) -> length a = S (s + j)) ->
  (s + length AC < length K)%nat ->
  exists K' log', rk_stages fun_ n t y h s AC K log = Ok (K', log').
Proof.
  induction AC as [|[a c] rest IH]; intros s K log HK Hy Hfun Hrows Hbound.
  - simpl. eexists _, _. reflexivity.
  - simpl in Hbound. simpl.
    assert (Ha : length a = S s).
    { rewrite (Hrows 0%nat a c) by reflexivity. f_equal. lia. }
    erewrite bind_lift; [|apply np_dot_T_total; rewrite length_take_le by lia; congruence].
    erewrite bind_lift; cycle 1.
    { apply np_zip_total. unfold muls, transpose.
      rewrite !length_map, length_seq. exact Hy. }
    unfold mbind at 1, comp_bind, call_fun.
    erewrite bind_lift; cycle 1.
    { apply set_row_total; [lia|]. apply Hfun.
      rewrite length_zip_with. unfold muls, transpose.
      rewrite !length_map, length_seq. lia. }
    apply IH.
    + apply Forall_insert; [exact HK|]. apply Hfun.
      rewrite length_zip_with. unfold muls, transpose.
      rewrite !length_map, length_seq. lia.
    + exact Hy.
    + exact Hfun.
    + intros j a' c' Hj. rewrite (Hrows (S j) a' c') by exact Hj. f_equal. lia.
    + rewrite length_insert. lia.
Qed.

(** Whenever [rk_step] returns, and the stage loop leaves the last row of
    the buffer to the end-of-step derivative, its results are those of
    the specification. *)
Lemma rk_step_sound y0 A B C E K log y_new f_new error K' log' :
  Forall (fun r => length r = n) K ->
  (length (zip A C) < length B)%nat ->
  rk_step fun_ n t y y0 h A B C E K log = Ok (y_new, f_new, error, K', log') ->
  rk_step_spec fun_ n t y y0 h A B C E K' y_new f_new error /\
  length K' = length K /\ Forall (fun r => length r = n) K' /\
  length K = S (length B).
Proof.
  intros HK Hstages Hrun. unfold rk_step in Hrun. inv_ok. subst.
  repeat match goal with H : set_row _ _ _ _ = Ok _ |- _ =>
    apply set_row_ok in H; destruct H as (? & ? & ->) end.
  match goal with H : rk_stages _ _ _ _ _ _ _ _ _ = Ok (?x, _) |- _ =>
    rename x into K1;
    apply rk_stages_sound in H; [|apply Forall_insert; assumption];
    destruct H as (Hlen & Hshape & Hframe & Hstage & _) end.
  rewrite length_insert in Hlen.
  match goal with H : np_dot_T _ (removelast _) _ = Ok ?x |- _ =>
    rename x into d; rename H into Hd end.
  match goal with H : np_dot_T _ (<[_ := _]> _) _ = Ok ?x |- _ =>
    rename x into e; rename H into He end.
  match goal with H : np_add _ _ = Ok _ |- _ =>
    apply np_zip_ok in H; destruct H as [_ Hy_new] end.
  fold (vadd y (smul h d)) in Hy_new.
  rewrite removelast_firstn_len in Hd.
  destruct (np_dot_T_ok _ _ _ _ Hd) as [HlenB _].
  rewrite length_take_le in HlenB by lia.
  assert (HK1 : length K1 = S (length B)) by lia.
  replace (Init.Nat.pred (length K1)) with (length B) in Hd by lia.
  replace (length K1 - 1)%nat with (length B) in * by lia.
  apply np_dot_T_lincomb in Hd; [|apply Forall_take; exact Hshape].
  apply np_dot_T_lincomb in He; [|apply Forall_insert; assumption].
  repeat split.
  - rewrite list_lookup_insert_ne by lia. rewrite Hframe by lia.
    apply list_lookup_insert_eq. assumption.
  - intros s a c Ha Hc.
    assert (Hs : (s < length (zip A C))%nat).
    { rewrite length_zip_with. apply lookup_lt_Some in Ha, Hc. lia. }
    rewrite list_lookup_insert_ne by lia.
    rewrite take_insert_ge by lia.
    apply (Hstage s a c). rewrite lookup_zip_with, Ha, Hc. reflexivity.
  - rewrite take_insert_ge by lia. rewrite Hy_new, Hd. reflexivity.
  - rewrite list_lookup_insert_eq by lia. reflexivity.
  - rewrite muls_smul, He. reflexivity.
  - rewrite length_insert. lia.
  - apply Forall_insert; assumption.
  - lia.
Qed.

Lemma rk_step_total y0 A B C E K log :
  wf_tableau A B C E ->
  length K = S (length B) ->
  Forall (fun r => length r = n) K ->
  length y = n -> length y0 = n ->
  preserves_shape n fun_ ->
  exists r log', rk_step fun_ n t y y0 h A B C E K log = Ok (r, log').
Proof.
  intros [HA HB HE Hrows] HlenK HK Hy Hy0 Hfun. unfold rk_step.
  erewrite bind_lift; [|apply set_row_total; [lia | exact Hy0]].
  destruct (rk_stages_total (zip A C) 0 (<[0%nat := y0]> K) log) as (K1 & log1 & Hrun).
  - apply Forall_insert; assumption.
  - exact Hy.
  - exact Hfun.
  - intros j a c Hj. rewrite lookup_zip_with in Hj.
    destruct (A !! j) as [a'|] eqn:Ha; [|discriminate]. simpl in Hj.
    destruct (C !! j) as [c'|]; [|discriminate]. injection Hj as <- <-.
    apply (Hrows j a' Ha).
  - rewrite length_insert, length_zip_with. lia.
  - pose proof Hrun as Hsound.
    apply rk_stages_sound in Hsound; [|apply Forall_insert; assumption].
    destruct Hsound as (Hlen & Hshape & _). rewrite length_insert in Hlen.
    unfold mbind at 1, comp_bind. rewrite Hrun.
    erewrite bind_lift; cycle 1.
    { apply np_dot_T_total. rewrite removelast_firstn_len, length_take_le by lia. lia. }
    erewrite bind_lift; cycle 1.
    { apply np_zip_total. unfold smul, transpose.
      rewrite !length_map, length_seq. exact Hy. }
    unfold mbind at 1, comp_bind, call_fun.
    erewrite bind_lift; cycle 1.
    { apply set_row_total; [lia|]. apply Hfun.
      rewrite length_zip_with. unfold smul, transpose.
      rewrite !length_map, length_seq. lia. }
    erewrite bind_lift; cycle 1.
    { apply np_dot_T_total. rewrite length_insert. lia. }
    eexists _, _. reflexivity.
Qed.

Lemma rk_step_shapes y0 A B C E K log y_new f_new error K' log' :
  rk_step fun_ n t y y0 h A B C E K log = Ok (y_new, f_new, error, K', log') ->
  length y = n /\ length y_new = n /\ length error = n.
Proof.
  intros Hrun. unfold rk_step in Hrun. inv_ok. subst.
  match goal with H : np_add _ _ = Ok _ |- _ =>
    apply np_zip_ok in H; destruct H as [Hy ->] end.
  repeat match goal with H : np_dot_T _ _ _ = Ok _ |- _ =>
    apply np_dot_T_ok in H; destruct H as [_ ?] end.
  unfold smul, muls in *. rewrite length_map in Hy.
  rewrite length_zip_with, !length_map. lia.
Qed.

End StageEvaluatorProperties.

(** The equations of the specification determine the buffer and the
    results: the stage recursion has one solution. *)
Lemma rk_step_spec_unique fun_ n t y f h A B C E K1 y1 f1 e1 K2 y2 f2 e2 :
  wf_tableau A B C E ->
  length K1 = S (length B) -> length K2 = S (length B) ->
  rk_step_spec fun_ n t y f h A B C E K1 y1 f1 e1 ->
  rk_step_spec fun_ n t y f h A B C E K2 y2 f2 e2 ->
  K1 = K2 /\ y1 = y2 /\ f1 = f2 /\ e1 = e2.
Proof.
  intros [HA HB HE _] HK1 HK2 [H10 H1s H1y H1f H1l H1e] [H20 H2s H2y H2f H2l H2e].
  assert (Hpre : forall k, (k <= length B)%nat -> take k K1 = take k K2).
  { induction k as [|k IH]; intros Hk; [reflexivity|].
    assert (Hrow : exists r, K1 !! k = Some r /\ K2 !! k = Some r).
    { destruct k as [|s].
      - exists f. split; assumption.
      - destruct (lookup_lt_is_Some_2 A s) as [a Ha]; [lia|].
        destruct (lookup_lt_is_Some_2 C s) as [c Hc]; [lia|].
        eexists. split; [apply (H1s s a c Ha Hc)|].
        rewrite (H2s s a c Ha Hc). rewrite IH by lia. reflexivity. }
    destruct Hrow as (r & Hr1 & Hr2).
    rewrite (take_S_r K1 k r Hr1), (take_S_r K2 k r Hr2), IH by lia. reflexivity. }
  assert (Hy : y1 = y2) by (rewrite H1y, H2y, Hpre by lia; reflexivity).
  assert (Hf : f1 = f2) by (rewrite H1f, H2f, Hy; reflexivity).
  assert (HK : K1 = K2).
  { rewrite <- (take_ge K1 (S (length B))) by lia.
    rewrite <- (take_ge K2 (S (length B))) by lia.
    rewrite (take_S_r K1 _ f1 H1l), (take_S_r K2 _ f2 H2l), Hpre, Hf by lia.
    reflexivity. }
  repeat split; try assumption.
  rewrite H1e, H2e, HK. reflexivity.
Qed.

(** [rk_step] overwrites every row of the buffer: its results and the
    buffer it leaves do not depend on what the buffer held before. *)
Lemma rk_step_buffer_independent fun_ n t y f h A B C E K1 log1 r K' log1' K2 log2 :
  wf_tableau A B C E ->
  preserves_shape n fun_ ->
  length f = n ->
  length K1 = S (length B) -> Forall (fun r => length r = n) K1 ->
  length K2 = S (length B) -> Forall (fun r => length r = n) K2 ->
  rk_step fun_ n t y f h A B C E K1 log1 = Ok (r, K', log1') ->
  exists log2', rk_step fun_ n t y f h A B C E K2 log2 = Ok (r, K', log2').
Proof.
  intros Hwf Hfun Hf HK1 HS1 HK2 HS2 Hrun1.
  destruct r as [[y1 f1] e1].
  pose proof (rk_step_shapes _ _ _ _ _ _ _ _ _ _ _ _ _ _ _ _ _ Hrun1) as (Hy & _ & _).
  destruct (rk_step_total fun_ n t y h f A B C E K2 log2 Hwf HK2 HS2 Hy Hf Hfun)
    as ([[[y2 f2] e2] K2'] & log2' & Hrun2).
  exists log2'. rewrite Hrun2.
  assert (Hst : (length (zip A C) < length B)%nat).
  { destruct Hwf. rewrite length_zip_with. lia. }
  apply rk_step_sound in Hrun1; [|assumption..].
  apply rk_step_sound in Hrun2; [|assumption..].
  destruct Hrun1 as (Hs1 & Hl1 & _). destruct Hrun2 as (Hs2 & Hl2 & _).
  assert (HlK : length K' = S (length B)) by congruence.
  assert (HlK2 : length K2' = S (length B)) by congruence.
  destruct (rk_step_spec_unique _ _ _ _ _ _ _ _ _ _ _ _ _ _ _ _ _ _ Hwf HlK HlK2 Hs1 Hs2)
    as (-> & -> & -> & ->).
  reflexivity.
Qed.

(** A zero step leaves [y] where it is and estimates a zero error. *)
Lemma rk_step_zero_h fun_ n t y y0 A B C E K log y_new f_new error K' log' :
  rk_step fun_ n t y y0 0 A B C E K log = Ok (y_new, f_new, error, K', log') ->
  y_new = y /\ error = repeat 0 n.
Proof.
  intros Hrun.
  pose proof (rk_step_shapes _ _ _ _ _ _ _ _ _ _ _ _ _ _ _ _ _ Hrun) as (Hy & _ & He).
  unfold rk_step in Hrun. inv_ok. subst.
  match goal with H : np_add _ (smul _ ?d) = Ok _ |- _ =>
    apply np_zip_ok in H; destruct H as [Hlen ->]; rename d into d0 end.
  split.
  - apply list_eq. intros i. rewrite lookup_zip_with. unfold smul in *.
    rewrite list_lookup_fmap. rewrite length_map in Hlen.
    destruct (y !! i) as [a|] eqn:Ha; simpl; [|reflexivity].
    destruct (lookup_lt_is_Some_2 d0 i) as [b Hb];
      [rewrite <- Hlen; apply lookup_lt_Some in Ha; exact Ha|].
    rewrite Hb. simpl. f_equal. lra.
  - unfold muls in *. rewrite length_map in He. rewrite <- He.
    clear. match goal with |- map _ ?l = _ => induction l as [|a l IH] end;
      simpl; [reflexivity|]. f_equal; [lra | exact IH].
Qed.

Lemma vadd_zero_l_aux n x :
  vadd (smul x (repeat 0 n)) (repeat 0 n) = repeat 0 n.
Proof.
  unfold vadd, smul. induction n as [|n IH]; simpl; [reflexivity|].
  f_equal; [lra | exact IH].
Qed.

Lemma vadd_zero_r (y : vec) n a :
  length y = n -> vadd y (smul a (repeat 0 n)) = y.
Proof.
  intros <-. unfold vadd, smul. induction y as [|x y IH]; simpl; [reflexivity|].
  f_equal; [lra | exact IH].
Qed.

Lemma lincomb_zero_rows n rows a :
  Forall (fun r => r = repeat 0 n) rows -> lincomb n rows a = repeat 0 n.
Proof.
  intros Hrows. revert a. induction Hrows as [|r rows -> _ IH]; intros a; simpl.
  - destruct a; reflexivity.
  - destruct a as [|x a]; [reflexivity|]. rewrite IH.
    rewrite vadd_zero_l_aux. reflexivity.
Qed.

(** The stage evaluator applied to the zero function returns [y], a zero
    derivative and a zero error, and fills the buffer with zeros. *)
Lemma rk_step_zero_fun n t y h A B C E K log y_new f_new error K' log' :
  wf_tableau A B C E ->
  length K = S (length B) ->
  Forall (fun r => length r = n) K ->
  rk_step (zero_rhs n) n t y (repeat 0 n) h A B C E K log
    = Ok (y_new, f_new, error, K', log') ->
  y_new = y /\ f_new = repeat 0 n /\ error = repeat 0 n /\
  Forall (fun r => r = repeat 0 n) K'.
Proof.
  intros [HA HB HE Hrows] HlenK HK Hrun.
  pose proof (rk_step_shapes _ _ _ _ _ _ _ _ _ _ _ _ _ _ _ _ _ Hrun) as (Hy & _ & _).
  apply rk_step_sound in Hrun; [|exact HK|rewrite length_zip_with; lia].
  destruct Hrun as ([H0 Hstage Hynew Hfnew Hlast Herr] & Hlen & _ & _).
  assert (Hzero : Forall (fun r => r = repeat 0 n) K').
  { apply Forall_lookup. intros i r Hi.
    destruct i as [|i].
    - rewrite H0 in Hi. congruence.
    - destruct (decide (i < length A)%nat) as [Hlt|Hge].
      + destruct (lookup_lt_is_Some_2 A i Hlt) as [a Ha].
        destruct (lookup_lt_is_Some_2 C i) as [c Hc]; [lia|].
        rewrite (Hstage i a c Ha Hc) in Hi. injection Hi as <-. reflexivity.
      + apply lookup_lt_Some in Hi as Hb.
        replace (S i) with (length B) in Hi by lia.
        rewrite Hlast in Hi. injection Hi as <-. exact Hfnew. }
  assert (Hy_new : y_new = y).
  { rewrite Hynew. rewrite lincomb_zero_rows by (apply Forall_take; exact Hzero).
    apply vadd_zero_r. exact Hy. }
  repeat split.
  - exact Hy_new.
  - exact Hfnew.
  - rewrite Herr, lincomb_zero_rows by exact Hzero.
    unfold smul. clear. induction n as [|k IH]; simpl; [reflexivity|].
    f_equal; [lra | exact IH].
  - exact Hzero.
Qed.

(** ** Scalars of the step-size controller *)

Lemma py_max_Fin a x r :
  py_max (Fin a) x = Fin r -> a <= r /\ (x = Fin r \/ r = a).
Proof.
  unfold py_max. destruct x as [b| |]; simpl.
  - case_bool_decide; intros Heq; injection Heq as <-; (split; [lra | auto]).
  - discriminate.
  - intros Heq. injection Heq as <-. split; [lra | auto].
Qed.

Lemma py_min_Fin a x :
  exists r, py_min (Fin a) x = Fin r /\ r <= a /\ (x <> NaN -> np_le (Fin r) x).
Proof.
  unfold py_min. destruct x as [b| |]; simpl.
  - case_bool_decide; [exists b | exists a]; repeat split; simpl; lra.
  - exists a. repeat split; simpl; auto; lra.
  - exists a. repeat split; [lra | congruence].
Qed.

Lemma py_min_Fin_Fin a b : py_min (Fin a) (Fin b) = Fin (Rmin a b).
Proof.
  unfold py_min. simpl. case_bool_decide; f_equal; unfold Rmin; destruct (Rle_dec a b); lra.
Qed.

Lemma py_max_Fin_Fin a b : py_max (Fin a) (Fin b) = Fin (Rmax a b).
Proof.
  unfold py_max. simpl. case_bool_decide; f_equal; unfold Rmax; destruct (Rle_dec a b); lra.
Qed.

Lemma py_truediv_ok a b e :
  py_truediv a b = Ok e <-> b <> 0%Z /\ e = a / IZR b.
Proof.
  unfold py_truediv. case_decide; split; try discriminate.
  - intros [? _]. contradiction.
  - intros H'. injection H' as <-. auto.
  - intros [_ ->]. reflexivity.
Qed.

(** The exponent [-1 / order] is negative for a positive order. *)
Lemma exponent_negative (order : Z) : (0 < order)%Z -> -1 / IZR order < 0.
Proof.
  intros H. apply IZR_lt in H. unfold Rdiv.
  assert (0 < / IZR order) by (apply Rinv_0_lt_compat; exact H). lra.
Qed.

Lemma Rpower_neg_lt_1 x e : 1 < x -> e < 0 -> 0 < Rpower x e < 1.
Proof.
  intros Hx He. split.
  - unfold Rpower. apply exp_pos.
  - rewrite <- (Rpower_O x) by lra. apply Rpower_lt; assumption.
Qed.

(** ** The adaptive stepper *)

Lemma add_tol_error_scale atol rtol y y_new scale :
  add_tol atol (muls (zip_with Rmax (np_abs y) (np_abs y_new)) rtol) = Ok scale ->
  scale = error_scale atol rtol y y_new.
Proof.
  unfold add_tol, error_scale, np_abs, muls. destruct atol as [a|w].
  - intros H. injection H as <-. rewrite map_map. apply map_ext.
    intros x. rewrite (Rmult_comm x rtol). reflexivity.
  - intros H. apply np_zip_ok in H. destruct H as [_ ->].
    rewrite zip_with_fmap_r. apply zip_with_ext; [|reflexivity..].
    intros a x. rewrite (Rmult_comm x rtol). reflexivity.
Qed.

(** [error / scale]: whatever is returned is the array of the quotients,
    and with a scale without zeros they are numbers under any error
    state. *)
Lemma np_divide_ok es u v q :
  np_divide es u v = Ok q -> length u = length v /\ q = zip_with div_float u v.
Proof.
  unfold np_divide. repeat case_decide; try discriminate.
  intros H'. injection H' as <-. auto.
Qed.

Lemma div_float_numbers (u v : vec) :
  Forall (fun x => x <> 0) v -> zip_with div_float u v = map XFin (zip_with Rdiv u v).
Proof.
  intros Hv. revert u. induction Hv as [|y v Hy _ IH]; intros [|x u]; simpl;
    try reflexivity.
  unfold div_float at 1. rewrite decide_False by exact Hy. f_equal. apply IH.
Qed.

Lemma Exists_map_XFin (P : xfloat -> Prop) (q : vec) :
  (forall x, ~ P (XFin x)) -> ~ Exists P (map XFin q).
Proof.
  intros HP. induction q as [|x q IH]; simpl; intros Hex.
  - inversion Hex.
  - inversion Hex as [? ? He|? ? Hq]; subst; [exact (HP x He) | exact (IH Hq)].
Qed.

Lemma numbers_XFin (q : vec) : numbers (map XFin q) = q.
Proof. unfold numbers. rewrite map_map. apply map_id. Qed.

Lemma norm_float_numbers norm (q : vec) : norm_float norm (map XFin q) = Fin (norm q).
Proof.
  unfold norm_float.
  rewrite decide_False by (apply Exists_map_XFin; discriminate).
  rewrite decide_False by (apply Exists_map_XFin; intros x [H|H]; discriminate).
  rewrite numbers_XFin. reflexivity.
Qed.

Lemma np_divide_numbers es (u v : vec) :
  length u = length v -> Forall (fun x => x <> 0) v ->
  np_divide es u v = Ok (map XFin (zip_with Rdiv u v)).
Proof.
  intros Hlen Hv. unfold np_divide. rewrite decide_True by exact Hlen.
  cbv zeta. rewrite (div_float_numbers u v Hv).
  rewrite decide_False; cycle 1.
  { intros [_ Hex]. revert Hex. apply Exists_map_XFin. intros x [H|H]; discriminate. }
  rewrite decide_False; [reflexivity|].
  intros [_ Hex]. revert Hex. apply Exists_map_XFin. discriminate.
Qed.

Lemma np_lt_one_Fin x : np_lt (Fin 1) (Fin x) = true <-> 1 < x.
Proof. simpl. apply bool_decide_eq_true. Qed.

Lemma np_lt_one_Fin_false x : np_lt (Fin 1) (Fin x) = false <-> x <= 1.
Proof. simpl. rewrite bool_decide_eq_false. split; lra. Qed.

Lemma error_scale_pos atol rtol y y_new :
  0 <= rtol ->
  match atol with
  | AtolScalar a => 0 < a
  | AtolArray w => Forall (fun a => 0 < a) w
  end ->
  Forall (fun x => 0 < x) (error_scale atol rtol y y_new).
Proof.
  intros Hr Ha. unfold error_scale.
  assert (Hm : Forall (fun x => 0 <= x) (zip_with Rmax (map Rabs y) (map Rabs y_new))).
  { apply Forall_lookup. intros i x Hi. rewrite lookup_zip_with in Hi.
    rewrite !list_lookup_fmap in Hi.
    destruct (y !! i) as [a|]; simpl in Hi; [|discriminate].
    destruct (y_new !! i) as [b|]; simpl in Hi; [|discriminate].
    injection Hi as <-. pose proof (Rabs_pos a). pose proof (Rmax_l (Rabs a) (Rabs b)). lra. }
  destruct atol as [a|w].
  - apply Forall_fmap. eapply Forall_impl; [exact Hm|]. simpl. intros x Hx. nra.
  - apply Forall_lookup. intros i x Hi. rewrite lookup_zip_with in Hi.
    destruct (w !! i) as [a|] eqn:Hw; simpl in Hi; [|discriminate].
    destruct (zip_with Rmax (map Rabs y) (map Rabs y_new) !! i) as [b|] eqn:Hb;
      simpl in Hi; [|discriminate].
    injection Hi as <-.
    pose proof (proj1 (Forall_lookup _ _) Ha i a Hw).
    pose proof (proj1 (Forall_lookup _ _) Hm i b Hb). simpl in *. nra.
Qed.

Lemma zip_with_div_zeros n (v : vec) :
  length v = n -> zip_with Rdiv (repeat 0 n) v = repeat 0 n.
Proof.
  intros <-. induction v as [|x v IH]; simpl; [reflexivity|].
  f_equal; [unfold Rdiv; lra | exact IH].
Qed.

Section StepperProperties.

Variable fun_ : R -> vec -> vec.
Variable norm : vec -> R.
Variable ambient : errstate.

(** Line 141: a rejection multiplies the magnitude by a factor that is at
    least [MIN_FACTOR], and below 1 for a positive order. *)
Lemma shrink_inv sv tr h_abs' :
  shrink ambient sv tr = Ok h_abs' ->
  exists fac, h_abs' = tr_h_abs tr * fac /\ MIN_FACTOR <= fac /\
    ((0 < rk_order sv)%Z -> np_lt (Fin 1) (tr_error_norm tr) = true -> fac < 1).
Proof.
  unfold shrink. intros H. inv_ok.
  match goal with H : finite ?x = Ok ?f |- _ =>
    rename f into fac; destruct x as [r| |] eqn:Hmax; try discriminate;
    injection H as -> end.
  exists fac. split; [congruence|].
  apply py_max_Fin in Hmax. destruct Hmax as [Hmin Hcase]. split; [exact Hmin|].
  intros Horder Hnorm. destruct Hcase as [-> | ->]; [|unfold MIN_FACTOR; lra].
  match goal with H : py_truediv _ _ = Ok _ |- _ =>
    apply py_truediv_ok in H; destruct H as [_ ->] end.
  pose proof (exponent_negative _ Horder) as Hexp.
  match goal with H : np_power _ _ _ = Ok ?p |- _ => rename H into Hpow end.
  destruct (tr_error_norm tr) as [x| |]; try discriminate.
  - apply np_lt_one_Fin in Hnorm.
    unfold np_power in Hpow. rewrite !decide_False in Hpow by lra.
    injection Hpow as <-.
    match goal with H : np_mul _ _ = Ok _ |- _ => simpl in H; injection H as <- end.
    pose proof (Rpower_neg_lt_1 _ _ Hnorm Hexp).
    unfold SAFETY. lra.
  - unfold np_power in Hpow. rewrite decide_True in Hpow by exact Hexp.
    injection Hpow as <-.
    match goal with H : np_mul _ _ = Ok _ |- _ => simpl in H; injection H as <- end.
    unfold SAFETY. lra.
Qed.

(** Lines 146-148: after acceptance the magnitude is multiplied by a
    factor between 1 and [MAX_FACTOR], then capped by [max_step]. *)
Lemma grow_inv sv tr h_abs :
  grow sv tr = Ok h_abs ->
  exists fac, 1 <= fac <= MAX_FACTOR /\
    py_min (Fin (tr_h_abs tr * fac)) (rk_max_step sv) = Fin h_abs.
Proof.
  unfold grow. intros H. inv_ok.
  match goal with H : finite (py_min (Fin MAX_FACTOR) _) = Ok ?f |- _ =>
    rename f into fac; rename H into Hfac end.
  exists fac. split.
  - match goal with H : np_mul _ _ = Ok ?x |- _ => destruct x as [sp| |] end.
    + rewrite py_max_Fin_Fin, py_min_Fin_Fin in Hfac. injection Hfac as <-.
      unfold MAX_FACTOR, Rmin, Rmax.
      destruct (Rle_dec 1 sp); destruct (Rle_dec _ _); lra.
    + injection Hfac as <-. unfold MAX_FACTOR. lra.
    + change (py_max (Fin 1) NaN) with (Fin 1) in Hfac.
      rewrite py_min_Fin_Fin in Hfac. injection Hfac as <-.
      unfold MAX_FACTOR, Rmin. destruct (Rle_dec _ _); lra.
  - destruct (py_min_Fin (tr_h_abs tr * fac) (rk_max_step sv)) as (r & Hr & _).
    rewrite Hr in *. simpl in H. congruence.
Qed.

(** With a zero error norm the growth factor is [MAX_FACTOR]: the
    infinite power is absorbed by [min], whatever the error state. *)
Lemma grow_zero sv tr :
  (0 < rk_order sv)%Z ->
  tr_error_norm tr = Fin 0 ->
  exists h_abs, grow sv tr = Ok h_abs /\
    py_min (Fin (tr_h_abs tr * MAX_FACTOR)) (rk_max_step sv) = Fin h_abs.
Proof.
  intros Horder Hnorm.
  destruct (py_min_Fin (tr_h_abs tr * MAX_FACTOR) (rk_max_step sv)) as (r & Hr & _).
  exists r. split; [|exact Hr].
  unfold grow, py_truediv. rewrite decide_False by lia. simpl.
  unfold np_power. rewrite Hnorm.
  rewrite decide_False by lra. rewrite decide_True by reflexivity.
  rewrite decide_True by (apply exponent_negative; exact Horder). simpl.
  rewrite decide_True by (unfold SAFETY; lra). simpl.
  rewrite Hr. reflexivity.
Qed.

(** What a pass of the loop records. *)
Lemma attempt_inv sv h_abs K log tr log' :
  attempt fun_ norm ambient sv h_abs K log = Ok (tr, log') ->
  tr_h_in tr = h_abs /\
  clamp (st_t (rk_state sv)) (rk_t_crit sv) (rk_direction sv)
        (Rabs (rk_t_crit sv - st_t (rk_state sv))) h_abs
    = (tr_h_abs tr, tr_t_new tr, tr_h tr) /\
  rk_step fun_ (rk_n sv) (st_t (rk_state sv)) (st_y (rk_state sv))
          (st_f (rk_state sv)) (tr_h tr)
          (rk_A sv) (rk_B sv) (rk_C sv) (rk_E sv) K log
    = Ok (tr_y_new tr, tr_f_new tr, tr_error tr, tr_K tr, log') /\
  tr_error_norm tr =
    norm_float norm
      (zip_with div_float (tr_error tr)
         (error_scale (rk_atol sv) (rk_rtol sv) (st_y (rk_state sv)) (tr_y_new tr))).
Proof.
  unfold attempt. intros H.
  destruct (clamp _ _ _ _ _) as [[h_abs' t_new] h] eqn:Hc.
  apply comp_bind_ok in H. destruct H as ([[[y_new f_new] error] K'] & log1 & Hrk & H).
  inv_ok. subst. simpl.
  repeat split; try assumption.
  match goal with H : np_maximum _ _ = Ok _ |- _ =>
    apply np_zip_ok in H; destruct H as [_ ->] end.
  match goal with H : add_tol _ _ = Ok _ |- _ =>
    apply add_tol_error_scale in H; subst end.
  match goal with H : np_divide _ _ _ = Ok _ |- _ =>
    apply np_divide_ok in H; destruct H as (_ & ->) end.
  reflexivity.
Qed.

(** With positive tolerances the norm of a pass is the number the
    specification writes. *)
Lemma attempt_norm sv h_abs K log tr log' :
  positive_tol sv ->
  attempt fun_ norm ambient sv h_abs K log = Ok (tr, log') ->
  tr_error_norm tr = Fin (scaled_error_norm norm sv tr).
Proof.
  intros [Hrtol Hatol] Hatt.
  apply attempt_inv in Hatt. destruct Hatt as (_ & _ & _ & ->).
  rewrite div_float_numbers.
  - apply norm_float_numbers.
  - eapply Forall_impl; [apply error_scale_pos; eassumption|].
    simpl. intros x Hx. lra.
Qed.

(** Every exit of the fuelled loop is a run of the loop, and conversely
    every run is found with enough fuel. *)
Lemma step_loop_run sv fuel : forall h_abs K log acc rej log',
  step_loop fun_ norm ambient fuel sv h_abs K log = Ok (acc, rej, log') ->
  loop_run fun_ norm ambient sv h_abs K log rej acc log'.
Proof.
  induction fuel as [|fuel IH]; intros h_abs K log acc rej log' H.
  - discriminate.
  - cbn [step_loop] in H. apply comp_bind_ok in H. destruct H as (tr & log1 & Hatt & H).
    destruct (np_lt (Fin 1) (tr_error_norm tr)) eqn:Hnorm.
    + apply comp_bind_ok in H. destruct H as (h_abs' & log2 & Hsh & H).
      apply lift_ok in Hsh. destruct Hsh as [Hsh ->].
      apply comp_bind_ok in H. destruct H as ([acc' rej'] & log3 & Hrec & H).
      inv_ok. subst.
      eapply loop_reject; eauto.
    + inv_ok. subst. apply loop_accept; assumption.
Qed.

Lemma loop_run_step_loop sv h_abs K log rej acc log' :
  loop_run fun_ norm ambient sv h_abs K log rej acc log' ->
  forall fuel, (length rej < fuel)%nat ->
  step_loop fun_ norm ambient fuel sv h_abs K log = Ok (acc, rej, log').
Proof.
  induction 1 as [h_abs K log tr log' Hatt Hnorm
                 |h_abs K log tr log1 h_abs' rej acc log' Hatt Hnorm Hsh _ IH];
    intros fuel Hfuel.
  - destruct fuel as [|fuel]; [simpl in Hfuel; lia|]. cbn [step_loop].
    unfold mbind at 1, comp_bind. rewrite Hatt.
    rewrite Hnorm. reflexivity.
  - destruct fuel as [|fuel]; [simpl in Hfuel; lia|]. simpl in Hfuel. cbn [step_loop].
    unfold mbind at 1, comp_bind. rewrite Hatt.
    rewrite Hnorm.
    erewrite bind_lift by exact Hsh.
    unfold mbind at 1, comp_bind. rewrite (IH fuel) by lia. reflexivity.
Qed.

(** The parts of a call of [step] that acts and returns. *)
Lemma step_inv fuel sv log sv' log' :
  active sv ->
  step fun_ norm ambient fuel sv log = Ok (sv', log') ->
  exists acc rej log1 h_abs ym,
    loop_run fun_ norm ambient sv (rk_step_size sv) (rk_K sv) log rej acc log1 /\
    grow sv acc = Ok h_abs /\
    midpoint sv acc = Ok ym /\
    log' = log1 ++ [(tr_t_new acc, tr_y_new acc)] /\
    sv' = mkRungeKutta
            (mkOdeState (tr_t_new acc) (tr_y_new acc)
                        (fun_ (tr_t_new acc) (tr_y_new acc)) ym)
            (rk_t_crit sv) (rk_direction sv)
            (next_status (tr_t_new acc) (rk_t_crit sv) (st_t (rk_state sv)))
            (rk_n sv) (rk_C sv) (rk_A sv) (rk_B sv) (rk_E sv) (rk_M sv)
            (tr_K acc) (rk_order sv) (rk_max_step sv) (rk_rtol sv)
            (rk_atol sv) h_abs.
Proof.
  intros Hact H. unfold step in H.
  rewrite decide_False in H by (unfold active in Hact; intros [? ?]; destruct Hact; congruence).
  apply comp_bind_ok in H. destruct H as ([acc rej] & log1 & Hloop & H).
  inv_ok. subst.
  apply step_loop_run in Hloop.
  eexists acc, rej, log1, _, _. repeat split; eassumption.
Qed.

(** The trials of a run: each is a pass of the loop, the rejected ones
    have a norm above 1, the accepted one has not, the first starts from
    the magnitude the loop was entered with, and each next one starts
    from the magnitude that line 141 computed from the previous one. *)
Lemma loop_run_trials sv h_abs K log rej acc log' :
  loop_run fun_ norm ambient sv h_abs K log rej acc log' ->
  Forall (pass_of fun_ norm ambient sv) (rej ++ [acc]) /\
  Forall (fun r => np_lt (Fin 1) (tr_error_norm r) = true) rej /\
  np_lt (Fin 1) (tr_error_norm acc) = false /\
  (exists first, (rej ++ [acc]) !! 0%nat = Some first /\ tr_h_in first = h_abs) /\
  (forall i r r', (rej ++ [acc]) !! i = Some r -> (rej ++ [acc]) !! S i = Some r' ->
     shrink ambient sv r = Ok (tr_h_in r')).
Proof.
  induction 1 as [h_abs K log tr log' Hatt Hnorm
                 |h_abs K log tr log1 h_abs' rej acc log' Hatt Hnorm Hsh _ IH].
  - pose proof (attempt_inv _ _ _ _ _ _ Hatt) as (Hin & _).
    repeat split.
    + apply Forall_singleton. exists K, log, log'. rewrite Hin. exact Hatt.
    + constructor.
    + exact Hnorm.
    + exists tr. split; [reflexivity | exact Hin].
    + intros i r r' _ Hr'. destruct i; discriminate.
  - destruct IH as (Hpass & Hrej & Hacc & (first & Hfirst & Hfirst_in) & Hchain).
    pose proof (attempt_inv _ _ _ _ _ _ Hatt) as (Hin & _).
    repeat split.
    + simpl. constructor; [|exact Hpass].
      exists K, log, log1. rewrite Hin. exact Hatt.
    + constructor; assumption.
    + exact Hacc.
    + exists tr. split; [reflexivity | exact Hin].
    + intros [|i] r r' Hr Hr'; simpl in Hr, Hr'.
      * injection Hr as <-. rewrite Hfirst in Hr'. injection Hr' as <-.
        rewrite Hfirst_in. exact Hsh.
      * eapply Hchain; eassumption.
Qed.

Lemma clamp_bounds t b s d h_abs h_abs' t_new h :
  clamp t b s d h_abs = (h_abs', t_new, h) ->
  0 <= d -> 0 <= h_abs -> 0 <= h_abs' <= h_abs /\ h_abs' <= d.
Proof.
  unfold clamp. intros H Hd Hh. case_decide; injection H as <- <- <-; lra.
Qed.

(** Magnitudes stay nonnegative and never grow inside the loop. *)
Lemma loop_run_magnitudes sv h_abs K log rej acc log' :
  loop_run fun_ norm ambient sv h_abs K log rej acc log' ->
  (0 < rk_order sv)%Z -> 0 <= h_abs ->
  Forall (fun r => 0 <= tr_h_abs r <= tr_h_in r /\ tr_h_in r <= h_abs) (rej ++ [acc]).
Proof.
  intros Hrun Horder.
  induction Hrun as [h_abs K log tr log' Hatt Hnorm
                    |h_abs K log tr log1 h_abs' rej acc log' Hatt Hnorm Hsh _ IH];
    intros Hh;
    pose proof (attempt_inv _ _ _ _ _ _ Hatt) as (Hin & Hclamp & _);
    apply clamp_bounds in Hclamp; try apply Rabs_pos; try exact Hh.
  - apply Forall_singleton. rewrite Hin. lra.
  - simpl. constructor; [rewrite Hin; lra|].
    apply shrink_inv in Hsh. destruct Hsh as (fac & -> & Hmin & Hlt).
    specialize (Hlt Horder Hnorm). unfold MIN_FACTOR in Hmin.
    assert (0 <= tr_h_abs tr * fac <= tr_h_abs tr) by nra.
    eapply Forall_impl; [apply IH; lra|].
    simpl. intros r Hr. lra.
Qed.

(** On a well-formed stepper with positive tolerances every pass of the
    loop runs to its end, whatever the trial magnitude. *)
Lemma attempt_total sv h_abs K log :
  wf_solver fun_ sv ->
  length K = S (length (rk_B sv)) ->
  Forall (fun r => length r = rk_n sv) K ->
  positive_tol sv ->
  exists tr log', attempt fun_ norm ambient sv h_abs K log = Ok (tr, log').
Proof.
  intros Hwf HlenK HK [Hrtol Hatol]. unfold attempt.
  destruct (clamp _ _ _ _ _) as [[h_abs' t_new] h].
  destruct (rk_step_total fun_ (rk_n sv) (st_t (rk_state sv)) (st_y (rk_state sv)) h
              (st_f (rk_state sv)) (rk_A sv) (rk_B sv) (rk_C sv) (rk_E sv) K log)
    as ([[[y_new f_new] error] K'] & log' & Hrun);
    try (destruct Hwf; assumption).
  pose proof (rk_step_shapes _ _ _ _ _ _ _ _ _ _ _ _ _ _ _ _ _ Hrun) as (Hy & Hyn & He).
  unfold mbind at 1, comp_bind. rewrite Hrun.
  erewrite bind_lift; cycle 1.
  { apply np_zip_total. unfold np_abs. rewrite !length_map. congruence. }
  assert (Hm : length (muls (zip_with Rmax (np_abs (st_y (rk_state sv))) (np_abs y_new))
                            (rk_rtol sv)) = rk_n sv).
  { unfold muls, np_abs. rewrite length_map, length_zip_with, !length_map. lia. }
  assert (Hscale : exists scale,
    add_tol (rk_atol sv)
      (muls (zip_with Rmax (np_abs (st_y (rk_state sv))) (np_abs y_new)) (rk_rtol sv))
    = Ok scale /\ length scale = rk_n sv).
  { unfold add_tol. destruct (rk_atol sv) as [a|w] eqn:Hat.
    - eexists. split; [reflexivity|]. rewrite length_map. exact Hm.
    - eexists. split.
      + apply np_zip_total. rewrite Hm. apply (wf_atol _ _ Hwf w Hat).
      + rewrite length_zip_with, Hm, (wf_atol _ _ Hwf w Hat). lia. }
  destruct Hscale as (scale & Hscale & Hlen).
  erewrite bind_lift by exact Hscale.
  erewrite bind_lift; cycle 1.
  { apply np_divide_numbers; [congruence|].
    apply add_tol_error_scale in Hscale. subst scale.
    eapply Forall_impl; [apply error_scale_pos; eassumption|].
    simpl. intros x Hx. lra. }
  eexists _, _. reflexivity.
Qed.

(** With positive tolerances the vector handed to [norm] is zero when
    the error estimate is. *)
Lemma attempt_zero_error sv h_abs K log tr log' :
  positive_tol sv ->
  attempt fun_ norm ambient sv h_abs K log = Ok (tr, log') ->
  tr_error tr = repeat 0 (rk_n sv) ->
  tr_error_norm tr = Fin (norm (repeat 0 (rk_n sv))).
Proof.
  intros Htol H Herr. rewrite (attempt_norm _ _ _ _ _ _ Htol H).
  unfold scaled_error_norm. f_equal. f_equal.
  unfold attempt in H.
  destruct (clamp _ _ _ _ _) as [[h_abs' t_new] h] eqn:Hc.
  apply comp_bind_ok in H. destruct H as ([[[y_new f_new] error] K'] & log1 & Hrk & H).
  inv_ok. subst. simpl in *. subst.
  match goal with H : np_maximum _ _ = Ok _ |- _ =>
    apply np_zip_ok in H; destruct H as [_ ->] end.
  match goal with H : add_tol _ _ = Ok _ |- _ =>
    apply add_tol_error_scale in H; subst end.
  match goal with H : np_divide _ _ _ = Ok _ |- _ =>
    apply np_divide_ok in H; destruct H as (Hlen & _) end.
  rewrite zip_with_div_zeros; [reflexivity|].
  rewrite <- Hlen. apply repeat_length.
Qed.

(** The growth computation returns for every norm that is not a negative
    number, [inf] and [nan] included. *)
Lemma grow_total sv tr :
  rk_order sv <> 0%Z -> (forall x, tr_error_norm tr = Fin x -> 0 <= x) ->
  exists h_abs, grow sv tr = Ok h_abs.
Proof.
  intros Horder Hnorm. unfold grow, py_truediv.
  rewrite decide_False by exact Horder. simpl.
  assert (Hp : exists p, np_power em_ignore (tr_error_norm tr) (-1 / IZR (rk_order sv)) = Ok p).
  { unfold np_power. destruct (tr_error_norm tr) as [x| |].
    - specialize (Hnorm x eq_refl). rewrite decide_False by lra.
      repeat case_decide; eexists; reflexivity.
    - repeat case_decide; eexists; reflexivity.
    - repeat case_decide; eexists; reflexivity. }
  destruct Hp as (p & ->). simpl.
  assert (Hsp : exists sp, np_mul SAFETY p = Ok sp).
  { destruct p; simpl; [eexists; reflexivity| |eexists; reflexivity].
    rewrite decide_True by (unfold SAFETY; lra). eexists; reflexivity. }
  destruct Hsp as (sp & ->). simpl.
  destruct (py_min_Fin MAX_FACTOR (py_max (Fin 1) sp)) as (fac & -> & _). simpl.
  destruct (py_min_Fin (tr_h_abs tr * fac) (rk_max_step sv)) as (r & -> & _). simpl.
  exists r. reflexivity.
Qed.

Lemma midpoint_total sv tr :
  wf_solver fun_ sv ->
  length (tr_K tr) = S (length (rk_B sv)) ->
  exists ym, midpoint sv tr = Ok ym.
Proof.
  intros Hwf HK. unfold midpoint. destruct (rk_M sv) as [m|] eqn:HM.
  - rewrite np_dot_T_total by (rewrite (wf_M _ _ Hwf m HM); exact HK). simpl.
    unfold np_add. rewrite np_zip_total; [eexists; reflexivity|].
    unfold smul, transpose. rewrite !length_map, length_seq. apply (wf_y _ _ Hwf).
  - eexists. reflexivity.
Qed.

Lemma rk_step_rows n t y f h A B C E K log r K' log' :
  rk_step fun_ n t y f h A B C E K log = Ok (r, K', log') -> length K' = length E.
Proof.
  intros Hrun. unfold rk_step in Hrun. inv_ok. subst.
  match goal with H : np_dot_T _ ?X ?E' = Ok _ |- length ?X = length ?E' =>
    apply np_dot_T_ok in H; destruct H as [H _]; exact H end.
Qed.

Lemma attempt_rows sv h_abs K log tr log' :
  wf_solver fun_ sv ->
  attempt fun_ norm ambient sv h_abs K log = Ok (tr, log') ->
  length (tr_K tr) = S (length (rk_B sv)).
Proof.
  intros Hwf Hatt. apply attempt_inv in Hatt. destruct Hatt as (_ & _ & Hrk & _).
  apply rk_step_rows in Hrk. rewrite Hrk. apply (wf_len_E _ _ _ _ (wf_tab _ _ Hwf)).
Qed.

(** A call of [step] whose first trial is accepted (its norm is not above
    1: a number that is at most 1, or [nan]) returns the state of that
    trial. *)
Lemma step_first_accepted sv fuel log tr log1 :
  wf_solver fun_ sv -> active sv -> rk_order sv <> 0%Z ->
  attempt fun_ norm ambient sv (rk_step_size sv) (rk_K sv) log = Ok (tr, log1) ->
  np_lt (Fin 1) (tr_error_norm tr) = false ->
  (forall x, tr_error_norm tr = Fin x -> 0 <= x) ->
  step_loop fun_ norm ambient (S fuel) sv (rk_step_size sv) (rk_K sv) log
    = Ok (tr, [], log1) /\
  exists h_abs ym,
    grow sv tr = Ok h_abs /\ midpoint sv tr = Ok ym /\
    step fun_ norm ambient (S fuel) sv log =
      Ok (mkRungeKutta
            (mkOdeState (tr_t_new tr) (tr_y_new tr)
                        (fun_ (tr_t_new tr) (tr_y_new tr)) ym)
            (rk_t_crit sv) (rk_direction sv)
            (next_status (tr_t_new tr) (rk_t_crit sv) (st_t (rk_state sv)))
            (rk_n sv) (rk_C sv) (rk_A sv) (rk_B sv) (rk_E sv) (rk_M sv)
            (tr_K tr) (rk_order sv) (rk_max_step sv) (rk_rtol sv)
            (rk_atol sv) h_abs,
          log1 ++ [(tr_t_new tr, tr_y_new tr)]).
Proof.
  intros Hwf Hact Horder Hatt Hnorm Hpos.
  assert (Hrun : loop_run fun_ norm ambient sv (rk_step_size sv) (rk_K sv) log [] tr log1).
  { apply loop_accept; [exact Hatt | exact Hnorm]. }
  apply loop_run_step_loop with (fuel := S fuel) in Hrun; [|simpl; lia].
  split; [exact Hrun|].
  destruct (grow_total sv tr Horder Hpos) as (h_abs & Hgrow).
  destruct (midpoint_total sv tr Hwf (attempt_rows _ _ _ _ _ _ Hwf Hatt)) as (ym & Hym).
  exists h_abs, ym. split; [exact Hgrow|]. split; [exact Hym|].
  unfold step.
  rewrite decide_False by (unfold active in Hact; intros [? ?]; destruct Hact; congruence).
  unfold mbind at 1, comp_bind. rewrite Hrun.
  erewrite bind_lift by exact Hgrow.
  erewrite bind_lift by exact Hym.
  reflexivity.
Qed.

(** The accepted trial is the result of a call of [rk_step] on a buffer of
    the right shape. *)
Lemma loop_run_accepted_rk_step sv h_abs K log rej acc log' :
  loop_run fun_ norm ambient sv h_abs K log rej acc log' ->
  wf_solver fun_ sv ->
  length K = S (length (rk_B sv)) ->
  Forall (fun r => length r = rk_n sv) K ->
  exists K1 log1,
    length K1 = S (length (rk_B sv)) /\
    Forall (fun r => length r = rk_n sv) K1 /\
    rk_step fun_ (rk_n sv) (st_t (rk_state sv)) (st_y (rk_state sv))
            (st_f (rk_state sv)) (tr_h acc)
            (rk_A sv) (rk_B sv) (rk_C sv) (rk_E sv) K1 log1
      = Ok (tr_y_new acc, tr_f_new acc, tr_error acc, tr_K acc, log').
Proof.
  intros Hrun Hwf.
  induction Hrun as [h_abs K log tr log' Hatt Hnorm
                    |h_abs K log tr log1 h_abs' rej acc log' Hatt Hnorm Hsh _ IH];
    intros HlenK HK.
  - apply attempt_inv in Hatt. destruct Hatt as (_ & _ & Hrk & _).
    exists K, log. auto.
  - apply IH.
    + apply (attempt_rows _ _ _ _ _ _ Hwf Hatt).
    + apply attempt_inv in Hatt. destruct Hatt as (_ & _ & Hrk & _).
      apply rk_step_sound in Hrk; [apply Hrk | exact HK |].
      destruct (wf_tab _ _ Hwf). rewrite length_zip_with. lia.
Qed.

End StepperProperties.

(** ** The dense-output builder *)

(** *** Entries of element-wise array expressions *)











(** *** The two coefficient formulas, for one piece and one component *)




(** *** Polynomials *)

Lemma length_poly_deriv cs : length (poly_deriv cs) = Nat.pred (length cs).
Proof.
  induction cs as [|c rest IH]; [reflexivity|].
  destruct rest as [|r rest']; [reflexivity|].
  transitivity (S (length (poly_deriv (r :: rest')))); [reflexivity|].
  rewrite IH. reflexivity.
Qed.

(** [poly_deriv] computes the derivative of the polynomial function. *)
Lemma poly_deriv_correct cs x :
  derivable_pt_lim (poly_eval cs) x (poly_eval (poly_deriv cs) x).
Proof.
  induction cs as [|c rest IH].
  - apply (derivable_pt_lim_const 0).
  - replace (poly_eval (poly_deriv (c :: rest)) x)
      with (c * (INR (length rest) * x ^ Nat.pred (length rest))
            + poly_eval (poly_deriv rest) x).
    + apply (derivable_pt_lim_ext
               (plus_fct (mult_real_fct c (fun y => y ^ length rest)) (poly_eval rest))).
      * intros z. reflexivity.
      * apply derivable_pt_lim_plus; [|exact IH].
        apply derivable_pt_lim_scal. apply derivable_pt_lim_pow.
    + destruct rest as [|r rest']; [simpl; lra|].
      change (poly_deriv (c :: r :: rest'))
        with (INR (length (r :: rest')) * c :: poly_deriv (r :: rest')).
      change (poly_eval (?a :: ?l) x) with (a * x ^ length l + poly_eval l x).
      rewrite length_poly_deriv. lra.
Qed.

(** *** The pieces built from states in increasing order *)




Section Pieces.

Variable n : nat.
Variable ss : list OdeState.
Hypothesis Htwo : (2 <= length ss)%nat.
Hypothesis Hinc : increasing (map st_t ss).
Hypothesis Hy : Forall (fun s => length (st_y s) = n) ss.
Hypothesis Hf : Forall (fun s => length (st_f s) = n) ss.




End Pieces.

(** *** Ordered breakpoints *)

Lemma increasing_lt t : increasing t ->
  forall j i a b, (i < j)%nat -> t !! i = Some a -> t !! j = Some b -> a < b.
Proof.
  intros Hinc. induction j as [|j IH]; intros i a b Hij Ha Hb; [lia|].
  destruct (lookup_lt_is_Some_2 t j) as [c Hc]; [apply lookup_lt_Some in Hb; lia|].
  pose proof (Hinc j c b Hc Hb) as Hcb.
  destruct (decide (i = j)) as [->|Hne].
  - rewrite Ha in Hc. injection Hc as ->. exact Hcb.
  - pose proof (IH i a c ltac:(lia) Ha Hc). lra.
Qed.


Lemma decreasing_reverse t : decreasing t -> increasing (reverse t).
Proof.
  intros Hdec i a b Ha Hb.
  pose proof (lookup_lt_Some _ _ _ Hb) as Hlen. rewrite length_reverse in Hlen.
  rewrite reverse_lookup in Ha by lia. rewrite reverse_lookup in Hb by lia.
  apply (Hdec (length t - S (S i))%nat b a); [exact Hb|].
  replace (S (length t - S (S i)))%nat with (length t - S i)%nat by lia. exact Ha.
Qed.


(** *** The arrays of an ordered sequence *)

Lemma np_asarray_uniform (rows : matrix) n :
  Forall (fun r => length r = n) rows -> np_asarray rows = Ok rows.
Proof.
  intros H. unfold np_asarray. rewrite decide_True; [reflexivity|].
  destruct rows as [|r0 rows]; [constructor|]. simpl.
  rewrite (Forall_inv H). exact H.
Qed.



Lemma last_lookup (l : vec) b d :
  l !! (length l - 1)%nat = Some b -> List.last l d = b.
Proof.
  induction l as [|a l IH]; [discriminate|]. destruct l as [|a' l'].
  - simpl. intros H. injection H as <-. reflexivity.
  - intros H. change (List.last (a :: a' :: l') d) with (List.last (a' :: l') d).
    apply IH. simpl in *. rewrite Nat.sub_0_r in *. exact H.
Qed.

Lemma hd_last_lookup (t : vec) :
  (2 <= length t)%nat ->
  exists a b, t !! 0%nat = Some a /\ t !! (length t - 1)%nat = Some b /\
              hd 0 t = a /\ List.last t 0 = b.
Proof.
  intros Hlen.
  destruct (lookup_lt_is_Some_2 t 0) as [a Ha]; [lia|].
  destruct (lookup_lt_is_Some_2 t (length t - 1)) as [b Hb]; [lia|].
  exists a, b. repeat split; try assumption.
  - destruct t; [discriminate|]. simpl in Ha. injection Ha as <-. reflexivity.
  - apply last_lookup. exact Hb.
Qed.


Section Arrays.

Variables (n : nat) (M : option vec) (states : list OdeState).
Hypothesis Hos : ordered_states n M states.




End Arrays.

Lemma spline_two M s0 s1 rest :
  spline M (s0 :: s1 :: rest) =
    spline_arrays M (s0 :: s1 :: rest) ≫= λ '(t, y, ym, f), spline_pieces t y f ym.
Proof. reflexivity. Qed.

Lemma spline_unfold M states :
  (2 <= length states)%nat ->
  spline M states = spline_arrays M states ≫= λ '(t, y, ym, f), spline_pieces t y f ym.
Proof.
  intros H. destruct states as [|s0 [|s1 rest]]; simpl in H; try lia. apply spline_two.
Qed.


(** *** Reversing the sequence of states *)

Lemma hd_reverse (l : vec) d : hd d (reverse l) = List.last l d.
Proof.
  induction l as [|a l IH] using rev_ind; [reflexivity|].
  rewrite reverse_snoc, last_last. reflexivity.
Qed.

Lemma last_reverse_hd (l : vec) d : List.last (reverse l) d = hd d l.
Proof.
  destruct l as [|a l]; [reflexivity|]. rewrite reverse_cons, last_last. reflexivity.
Qed.

Lemma np_asarray_reverse (rows : matrix) :
  np_asarray (reverse rows) =
    match np_asarray rows with
    | Ok r => Ok (reverse r)
    | Fail e => Fail e
    end.
Proof.
  unfold np_asarray.
  assert (Huni : forall l : matrix,
            Forall (fun r => length r = length (hd [] l)) l <->
            forall r r', r ∈ l -> r' ∈ l -> length r = length r').
  { intros l. rewrite Forall_forall. split.
    - intros H r r' Hr Hr'. rewrite (H r Hr), (H r' Hr'). reflexivity.
    - intros H r Hr. destruct l as [|r0 l]; [inversion Hr|].
      apply H; [exact Hr | left]. }
  destruct (decide (Forall (fun r => length r = length (hd [] rows)) rows)) as [Hu|Hu].
  - rewrite decide_True; [reflexivity|]. apply (proj2 (Huni _)).
    pose proof (proj1 (Huni _) Hu) as Hu'.
    intros r r' Hr Hr'. rewrite elem_of_reverse in Hr, Hr'. apply Hu'; assumption.
  - rewrite decide_False; [reflexivity|]. intros Hrev. apply Hu. apply (proj2 (Huni _)).
    pose proof (proj1 (Huni _) Hrev) as Hrev'. intros r r' Hr Hr'.
    apply Hrev'; rewrite elem_of_reverse; assumption.
Qed.

Lemma spline_arrays_reverse_None states :
  hd 0 (map st_t states) <> List.last (map st_t states) 0 ->
  spline_arrays None (reverse states) = spline_arrays None states.
Proof.
  intros Hends. unfold spline_arrays.
  rewrite !map_reverse, !np_asarray_reverse, hd_reverse, last_reverse_hd.
  destruct (np_asarray (map st_y states)) as [y|e]; [|reflexivity]. simpl.
  destruct (np_asarray (map st_f states)) as [f|e]; [|reflexivity]. simpl.
  repeat case_decide; try lra; rewrite ?reverse_involutive; reflexivity.
Qed.

(** ** Runs that return *)

Lemma rms_norm_zero n : rms_norm (repeat 0 n) = 0.
Proof.
  unfold rms_norm. replace (dot (repeat 0 n) (repeat 0 n)) with 0.
  - unfold Rdiv. rewrite Rmult_0_l. apply sqrt_0.
  - unfold dot. induction n as [|n IH]; simpl; [reflexivity|]. rewrite <- IH. lra.
Qed.

Lemma np_le_py_min s m x :
  np_le (Fin s) m -> s <= x -> np_le (Fin s) (py_min m (Fin x)).
Proof.
  intros Hm Hx. unfold py_min. destruct (np_lt (Fin x) m); simpl; assumption.
Qed.

Section Returning.

Variable fun_ : R -> vec -> vec.
Variable norm : vec -> R.
Variable ambient : errstate.

(** At the boundary the only trial is a zero step, which is accepted. *)
Lemma boundary_first_trial sv log :
  wf_solver fun_ sv -> positive_tol sv ->
  0 <= rk_step_size sv ->
  st_t (rk_state sv) = rk_t_crit sv ->
  exists tr log1,
    attempt fun_ norm ambient sv (rk_step_size sv) (rk_K sv) log = Ok (tr, log1) /\
    tr_t_new tr = rk_t_crit sv /\ tr_y_new tr = st_y (rk_state sv) /\
    tr_error_norm tr = Fin (norm (repeat 0 (rk_n sv))).
Proof.
  intros Hwf Htol Hh Ht.
  destruct (attempt_total fun_ norm ambient sv (rk_step_size sv) (rk_K sv) log Hwf
              (wf_K_rows _ _ Hwf) (wf_K_cols _ _ Hwf) Htol) as (tr & log1 & Hatt).
  exists tr, log1. split; [exact Hatt|].
  pose proof (attempt_inv _ _ _ _ _ _ _ _ _ Hatt) as (_ & Hclamp & Hrk & _).
  rewrite Ht in Hclamp. unfold clamp in Hclamp.
  replace (rk_t_crit sv - rk_t_crit sv) with 0 in Hclamp by lra.
  rewrite Rabs_R0 in Hclamp.
  assert (Hzero : tr_h tr = 0 /\ tr_t_new tr = rk_t_crit sv).
  { case_decide as Hgt; injection Hclamp as _ H2 H3; rewrite <- H2, <- H3.
    - split; lra.
    - assert (Hz : rk_step_size sv = 0) by lra. rewrite Hz. split; lra. }
  destruct Hzero as [Hzero Hnew]. rewrite Hzero in Hrk.
  apply rk_step_zero_h in Hrk. destruct Hrk as [Hy Herr].
  repeat split; try assumption.
  apply (attempt_zero_error _ _ _ _ _ _ _ _ _ Htol Hatt Herr).
Qed.

(** For the zero right-hand side every trial has a zero error estimate. *)
Lemma zero_rhs_first_trial sv h_abs log :
  wf_solver (zero_rhs (rk_n sv)) sv -> positive_tol sv ->
  st_f (rk_state sv) = repeat 0 (rk_n sv) ->
  exists tr log1,
    attempt (zero_rhs (rk_n sv)) norm ambient sv h_abs (rk_K sv) log = Ok (tr, log1) /\
    tr_y_new tr = st_y (rk_state sv) /\
    tr_error_norm tr = Fin (norm (repeat 0 (rk_n sv))).
Proof.
  intros Hwf Htol Hf.
  destruct (attempt_total (zero_rhs (rk_n sv)) norm ambient sv h_abs (rk_K sv) log Hwf
              (wf_K_rows _ _ Hwf) (wf_K_cols _ _ Hwf) Htol) as (tr & log1 & Hatt).
  exists tr, log1. split; [exact Hatt|].
  pose proof (attempt_inv _ _ _ _ _ _ _ _ _ Hatt) as (_ & _ & Hrk & _).
  rewrite Hf in Hrk.
  apply rk_step_zero_fun in Hrk;
    [|apply (wf_tab _ _ Hwf)|apply (wf_K_rows _ _ Hwf)|apply (wf_K_cols _ _ Hwf)].
  destruct Hrk as (Hy & _ & Herr & _).
  split; [exact Hy|].
  apply (attempt_zero_error _ _ _ _ _ _ _ _ _ Htol Hatt Herr).
Qed.

(** Hence the loop exits at its first pass, and [step] returns. *)
Lemma zero_rhs_loop_returns sv h_abs fuel log :
  wf_solver (zero_rhs (rk_n sv)) sv -> positive_tol sv ->
  st_f (rk_state sv) = repeat 0 (rk_n sv) ->
  norm (repeat 0 (rk_n sv)) = 0 ->
  exists tr log1,
    step_loop (zero_rhs (rk_n sv)) norm ambient (S fuel) sv h_abs (rk_K sv) log
      = Ok (tr, [], log1) /\
    tr_error_norm tr = Fin 0.
Proof.
  intros Hwf Htol Hf Hnorm.
  destruct (zero_rhs_first_trial sv h_abs log Hwf Htol Hf) as (tr & log1 & Hatt & _ & Hn).
  rewrite Hnorm in Hn. exists tr, log1. split; [|exact Hn].
  apply loop_run_step_loop; [|simpl; lia].
  apply loop_accept; [exact Hatt|].
  rewrite Hn. simpl. apply bool_decide_eq_false. lra.
Qed.

Lemma zero_rhs_step_returns sv fuel log :
  wf_solver (zero_rhs (rk_n sv)) sv -> positive_tol sv -> active sv ->
  rk_order sv <> 0%Z ->
  st_f (rk_state sv) = repeat 0 (rk_n sv) ->
  norm (repeat 0 (rk_n sv)) = 0 ->
  exists sv' log',
    step (zero_rhs (rk_n sv)) norm ambient (S fuel) sv log = Ok (sv', log').
Proof.
  intros Hwf Htol Hact Horder Hf Hnorm.
  destruct (zero_rhs_first_trial sv (rk_step_size sv) log Hwf Htol Hf)
    as (tr & log1 & Hatt & _ & Hn).
  rewrite Hnorm in Hn.
  destruct (step_first_accepted (zero_rhs (rk_n sv)) norm ambient sv fuel log tr log1
              Hwf Hact Horder Hatt) as (_ & h_abs & ym & _ & _ & Hstep).
  { rewrite Hn. simpl. apply bool_decide_eq_false. lra. }
  { intros x Hx. rewrite Hn in Hx. injection Hx as <-. lra. }
  eexists _, _. exact Hstep.
Qed.

End Returning.

(** The example steppers are well formed. *)
Lemma wf_tableau_23 : wf_tableau A23 B23 C23 E23.
Proof.
  split; try reflexivity.
  intros s a Hs. destruct s as [|[|s]]; simpl in Hs; try discriminate;
    injection Hs as <-; reflexivity.
Qed.

Lemma wf_tableau_45 : wf_tableau A45 B45 C45 E45.
Proof.
  split; try reflexivity.
  intros s a Hs. destruct s as [|[|[|[|[|s]]]]]; simpl in Hs; try discriminate;
    injection Hs as <-; reflexivity.
Qed.

Lemma wf_rk23_stepper t0 t_crit status :
  wf_solver (zero_rhs 1) (rk23_stepper t0 t_crit status).
Proof.
  split; simpl; try reflexivity; try discriminate.
  - apply wf_tableau_23.
  - repeat constructor.
  - intros t y _. reflexivity.
Qed.

Lemma wf_rk45_stepper t0 t_crit status :
  wf_solver (zero_rhs 1) (rk45_stepper t0 t_crit status).
Proof.
  split; simpl; try reflexivity; try discriminate.
  - apply wf_tableau_45.
  - repeat constructor.
  - intros m Hm. injection Hm as <-. reflexivity.
  - intros t y _. reflexivity.
Qed.

Lemma positive_tol_rk23 t0 t_crit status : positive_tol (rk23_stepper t0 t_crit status).
Proof. split; simpl; lra. Qed.

Lemma positive_tol_rk45 t0 t_crit status : positive_tol (rk45_stepper t0 t_crit status).
Proof. split; simpl; lra. Qed.

(** * The claims of the specification *)

(** C1.  Whenever [rk_step] returns (the stage loop leaving the last row of
    [K] to the end-of-step derivative, as every well-formed tableau does),
    what it returns satisfies the stage recursion of the specification, and
    on a well-formed tableau with arrays of matching shapes it does return: [K[0] = f]; [K[s+1] = fun(t + C[s]*h, y + h * (K[0..s]ᵗ · A[s]))]
    for every stage index [s]; [y_new = y + h * (K[0..n_stages-1]ᵗ · B)];
    [f_new = fun(t + h, y_new)], stored in the last row of [K]; and
    [error = h * (Kᵗ · E)] over all [n_stages + 1] rows. *)
Theorem rk_step_meets_spec fun_ n t y f h A B C E K log :
  Forall (fun r => length r = n) K ->
  (length (zip A C) < length B)%nat ->
  (forall y_new f_new error K' log',
     rk_step fun_ n t y f h A B C E K log = Ok (y_new, f_new, error, K', log') ->
     rk_step_spec fun_ n t y f h A B C E K' y_new f_new error) /\
  (wf_tableau A B C E ->
   length K = S (length B) ->
   length y = n -> length f = n ->
   preserves_shape n fun_ ->
   exists y_new f_new error K' log',
     rk_step fun_ n t y f h A B C E K log = Ok (y_new, f_new, error, K', log')).
Proof.
  intros HK Hstages. split.
  - intros y_new f_new error K' log' Hrun.
    apply rk_step_sound in Hrun; [apply Hrun | exact HK | exact Hstages].
  - intros Hwf HlenK Hy Hf Hfun.
    destruct (rk_step_total fun_ n t y h f A B C E K log Hwf HlenK HK Hy Hf Hfun)
      as ([[[y_new f_new] error] K'] & log' & Hrun).
    exists y_new, f_new, error, K', log'. exact Hrun.
Qed.

Lemma rk_step_meets_spec_witness :
  exists y_new f_new error K' log',
    rk_step (fun _ y => y) 1 0 [1] [1] (1 / 10) A23 B23 C23 E23
            [[0]; [0]; [0]; [0]] [] = Ok (y_new, f_new, error, K', log') /\
    rk_step_spec (fun _ y => y) 1 0 [1] [1] (1 / 10) A23 B23 C23 E23
                 K' y_new f_new error.
Proof.
  destruct (rk_step_meets_spec (fun _ y => y) 1 0 [1] [1] (1 / 10) A23 B23 C23 E23
              [[0]; [0]; [0]; [0]] []) as [Hsound Htotal].
  - repeat constructor.
  - simpl. lia.
  - destruct Htotal as (y_new & f_new & error & K' & log' & Hrun).
    + exact wf_tableau_23.
    + reflexivity.
    + reflexivity.
    + reflexivity.
    + intros t y Hy. exact Hy.
    + exists y_new, f_new, error, K', log'. split; [exact Hrun|].
      apply (Hsound y_new f_new error K' log' Hrun).
Defined.

(** C9.  When the status is neither [Started] nor [Running], [step] returns
    at once: the stepper (its state [(t, y, f, ym)], step size, status and
    stage buffer [K]) is returned unchanged, and the log of calls of the
    right-hand side is unchanged, so the right-hand side was not invoked. *)
Theorem step_inactive_noop fun_ norm ambient fuel sv log :
  rk_status sv <> started -> rk_status sv <> running ->
  step fun_ norm ambient fuel sv log = Ok (sv, log).
Proof.
  intros Hs Hr. unfold step. rewrite decide_True by (split; assumption). reflexivity.
Qed.

Lemma step_inactive_noop_witness :
  step (zero_rhs 1) rms_norm em_raise 0 (rk23_stepper 0 1 finished) []
    = Ok (rk23_stepper 0 1 finished, []).
Proof.
  apply (step_inactive_noop (zero_rhs 1) rms_norm em_raise 0 (rk23_stepper 0 1 finished) []);
    simpl; discriminate.
Defined.

(** C8.  In every pass of the trial loop of a call of [step], with
    [d = |boundary - t|]: if the trial magnitude [h_abs] is strictly greater
    than [d] the trial is clamped, [t_new] is the boundary itself and the
    magnitude becomes [d]; if [h_abs <= d], equality included, nothing is
    clamped and [t_new = t + h_abs * direction]. *)
Theorem trial_clamped_at_boundary fun_ norm ambient fuel sv h_abs K log acc rej log' :
  step_loop fun_ norm ambient fuel sv h_abs K log = Ok (acc, rej, log') ->
  Forall (fun tr =>
            let t := st_t (rk_state sv) in
            let b := rk_t_crit sv in
            let d := Rabs (b - t) in
            (tr_h_in tr > d ->
               tr_t_new tr = b /\ tr_h_abs tr = d /\ tr_h tr = d * rk_direction sv) /\
            (tr_h_in tr <= d ->
               tr_t_new tr = t + tr_h_in tr * rk_direction sv /\
               tr_h_abs tr = tr_h_in tr /\ tr_h tr = tr_h_in tr * rk_direction sv))
         (rej ++ [acc]) /\
  exists first, (rej ++ [acc]) !! 0%nat = Some first /\ tr_h_in first = h_abs.
Proof.
  intros Hloop. apply step_loop_run in Hloop. apply loop_run_trials in Hloop.
  destruct Hloop as (Hpass & _ & _ & Hfirst & _). split; [|exact Hfirst].
  eapply Forall_impl; [exact Hpass|]. intros tr (K0 & log0 & log1 & Hatt). cbv zeta.
  apply attempt_inv in Hatt. destruct Hatt as (_ & Hclamp & _).
  unfold clamp in Hclamp. case_decide as Hgt; injection Hclamp as <- <- <-.
  - split; [auto | intros Hle; lra].
  - split; [intros Hgt'; contradiction | auto].
Qed.

Lemma trial_clamped_at_boundary_witness :
  exists acc rej log',
    step_loop (zero_rhs 1) rms_norm em_warn 1 (rk23_stepper 0 (1 / 20) started)
              (1 / 10) [[0]; [0]; [0]; [0]] [] = Ok (acc, rej, log') /\
    tr_h_in acc = 1 / 10 /\ tr_t_new acc = 1 / 20.
Proof.
  destruct (zero_rhs_loop_returns rms_norm em_warn (rk23_stepper 0 (1 / 20) started)
              (1 / 10) 0 [] (wf_rk23_stepper _ _ _) (positive_tol_rk23 _ _ _)
              eq_refl (rms_norm_zero 1)) as (tr & log1 & Hloop & _).
  exists tr, [], log1. split; [exact Hloop|].
  destruct (trial_clamped_at_boundary _ _ _ _ _ _ _ _ _ _ _ Hloop)
    as (Hall & first & Hfirst & Hin).
  simpl in Hfirst. injection Hfirst as <-.
  split; [exact Hin|].
  apply Forall_inv in Hall. cbv zeta in Hall. destruct Hall as [Hclamped _].
  apply Hclamped. rewrite Hin. simpl.
  replace (1 / 20 - 0) with (1 / 20) by lra. rewrite Rabs_pos_eq by lra. lra.
Defined.

Lemma chain_rejected (rej : list trial) (acc : trial) (P : trial -> Prop) i r r' :
  Forall P rej ->
  (rej ++ [acc]) !! i = Some r -> (rej ++ [acc]) !! S i = Some r' -> P r.
Proof.
  intros Hrej Hr Hr'. apply lookup_lt_Some in Hr'. rewrite length_app in Hr'. simpl in Hr'.
  rewrite lookup_app_l in Hr by lia.
  apply (proj1 (Forall_lookup _ _) Hrej i r Hr).
Qed.

(** C7.  A call of [step] that acts sets the status to [Finished] if
    [t_new == boundary], otherwise to [Failed] if [t_new == t], otherwise to
    [Running].  In particular a stepper whose [t] is already the boundary
    reports [Finished] at its first call of [step], without advancing. *)
Theorem step_status_transition fun_ norm ambient sv :
  active sv ->
  (forall fuel log sv' log',
     step fun_ norm ambient fuel sv log = Ok (sv', log') ->
     let t_new := st_t (rk_state sv') in
     (t_new = rk_t_crit sv -> rk_status sv' = finished) /\
     (t_new <> rk_t_crit sv -> t_new = st_t (rk_state sv) -> rk_status sv' = failed) /\
     (t_new <> rk_t_crit sv -> t_new <> st_t (rk_state sv) -> rk_status sv' = running)) /\
  (wf_solver fun_ sv -> positive_tol sv -> rk_order sv <> 0%Z ->
   0 <= rk_step_size sv -> norm (repeat 0 (rk_n sv)) = 0 ->
   st_t (rk_state sv) = rk_t_crit sv ->
   forall fuel log, exists sv' log',
     step fun_ norm ambient (S fuel) sv log = Ok (sv', log') /\
     rk_status sv' = finished /\
     st_t (rk_state sv') = st_t (rk_state sv) /\
     st_y (rk_state sv') = st_y (rk_state sv)).
Proof.
  intros Hact. split.
  - intros fuel log sv' log' Hstep.
    destruct (step_inv _ _ _ _ _ _ _ _ Hact Hstep)
      as (acc & rej & log1 & h_abs & ym & _ & _ & _ & _ & ->).
    cbv zeta. simpl. unfold next_status. repeat case_decide; repeat split; intros; congruence.
  - intros Hwf Htol Horder Hh Hnorm Ht fuel log.
    destruct (boundary_first_trial fun_ norm ambient sv log Hwf Htol Hh Ht)
      as (tr & log1 & Hatt & Hnew & Hy & Hn).
    rewrite Hnorm in Hn.
    destruct (step_first_accepted fun_ norm ambient sv fuel log tr log1
                Hwf Hact Horder Hatt) as (_ & h_abs & ym & _ & _ & Hstep).
    { rewrite Hn. apply np_lt_one_Fin_false. lra. }
    { intros x Hx. rewrite Hn in Hx. injection Hx as <-. lra. }
    eexists _, _. split; [exact Hstep|]. simpl.
    unfold next_status. rewrite decide_True by exact Hnew.
    repeat split; congruence.
Qed.

Lemma step_status_transition_witness :
  exists sv' log',
    step (zero_rhs 1) rms_norm em_warn 1 (rk23_stepper 1 1 started) [] = Ok (sv', log') /\
    rk_status sv' = finished /\ st_t (rk_state sv') = 1.
Proof.
  destruct (step_status_transition (zero_rhs 1) rms_norm em_warn
              (rk23_stepper 1 1 started) (or_introl eq_refl)) as [_ Hboundary].
  destruct (Hboundary (wf_rk23_stepper _ _ _) (positive_tol_rk23 _ _ _)
              ltac:(simpl; discriminate) ltac:(simpl; lra) (rms_norm_zero 1) eq_refl 0%nat [])
    as (sv' & log' & Hstep & Hstatus & Ht & _).
  exists sv', log'. repeat split; assumption.
Defined.

(** The state that [step] emits, from the result of its loop. *)
Lemma step_of_loop fun_ norm ambient fuel sv log acc rej log1 sv' log' :
  active sv ->
  step_loop fun_ norm ambient fuel sv (rk_step_size sv) (rk_K sv) log
    = Ok (acc, rej, log1) ->
  step fun_ norm ambient fuel sv log = Ok (sv', log') ->
  st_t (rk_state sv') = tr_t_new acc /\
  st_y (rk_state sv') = tr_y_new acc /\
  rk_K sv' = tr_K acc /\
  grow sv acc = Ok (rk_step_size sv').
Proof.
  intros Hact Hloop Hstep. unfold step in Hstep.
  rewrite decide_False in Hstep
    by (unfold active in Hact; intros [? ?]; destruct Hact; congruence).
  unfold mbind at 1, comp_bind in Hstep. rewrite Hloop in Hstep.
  inv_ok. subst. simpl. repeat split; assumption.
Qed.

(** The norms that the test of line 140 lets through. *)
Lemma np_lt_one_false v :
  np_lt (Fin 1) v = false <-> v = NaN \/ exists x, v = Fin x /\ x <= 1.
Proof.
  destruct v as [x| |]; simpl.
  - rewrite bool_decide_eq_false. split.
    + intros H. right. exists x. split; [reflexivity | lra].
    + intros [H|(y & H & Hy)]; [discriminate|]. injection H as ->. lra.
  - split; [discriminate|]. intros [H|(y & H & _)]; discriminate.
  - split; auto.
Qed.

Lemma np_lt_one_true v :
  np_lt (Fin 1) v = true <-> v = PInf \/ exists x, v = Fin x /\ 1 < x.
Proof.
  destruct v as [x| |]; simpl.
  - rewrite bool_decide_eq_true. split.
    + intros H. right. exists x. split; [reflexivity | lra].
    + intros [H|(y & H & Hy)]; [discriminate|]. injection H as ->. lra.
  - split; auto.
  - split; [discriminate|]. intros [H|(y & H & _)]; discriminate.
Qed.

(** C2, amended.  For the trials [rej] and [acc] of a call of [step] that
    accepts a step: the state emitted is that of the accepted trial [acc];
    the norm of [acc] is not above 1 as line 140 tests it, which leaves a
    number that is at most 1 or [nan]; the norm of every rejected trial is a
    number above 1 or [inf], and the trial after it starts from the
    magnitude of line 141, which is smaller (for a positive order and a
    nonnegative step size).  With positive tolerances every component of the
    scale is positive, every norm is the number
    [norm(error / (atol + rtol * max(|y|, |y_new|)))], and that of the
    accepted trial is at most 1. *)
Theorem accepted_trial_within_tolerance fun_ norm ambient fuel sv log
    acc rej log1 sv' log' :
  active sv ->
  step_loop fun_ norm ambient fuel sv (rk_step_size sv) (rk_K sv) log
    = Ok (acc, rej, log1) ->
  step fun_ norm ambient fuel sv log = Ok (sv', log') ->
  Forall (pass_of fun_ norm ambient sv) (rej ++ [acc]) /\
  st_t (rk_state sv') = tr_t_new acc /\
  st_y (rk_state sv') = tr_y_new acc /\
  (tr_error_norm acc = NaN \/ exists x, tr_error_norm acc = Fin x /\ x <= 1) /\
  Forall (fun r => tr_error_norm r = PInf \/
                   exists x, tr_error_norm r = Fin x /\ 1 < x) rej /\
  (positive_tol sv ->
   tr_error_norm acc = Fin (scaled_error_norm norm sv acc) /\
   scaled_error_norm norm sv acc <= 1 /\
   Forall (fun r => tr_error_norm r = Fin (scaled_error_norm norm sv r) /\
                    scaled_error_norm norm sv r > 1) rej) /\
  (forall i r r',
     (rej ++ [acc]) !! i = Some r -> (rej ++ [acc]) !! S i = Some r' ->
     shrink ambient sv r = Ok (tr_h_in r') /\
     ((0 < rk_order sv)%Z -> 0 <= rk_step_size sv ->
        tr_h_abs r' <= tr_h_in r' <= tr_h_abs r /\
        (0 < tr_h_abs r -> tr_h_in r' < tr_h_abs r))).
Proof.
  intros Hact Hloop Hstep.
  destruct (step_of_loop _ _ _ _ _ _ _ _ _ _ _ Hact Hloop Hstep) as (Ht & Hy & _).
  pose proof (step_loop_run _ _ _ _ _ _ _ _ _ _ _ Hloop) as Hrun.
  pose proof (loop_run_trials _ _ _ _ _ _ _ _ _ _ Hrun)
    as (Hpass & Hrej & Hacc & _ & Hchain).
  split; [exact Hpass|]. split; [exact Ht|]. split; [exact Hy|].
  split; [apply np_lt_one_false; exact Hacc|].
  split; [eapply Forall_impl; [exact Hrej|]; intros r Hr; apply np_lt_one_true; exact Hr|].
  split.
  - intros Htol.
    assert (Hnorms : Forall (fun r => tr_error_norm r = Fin (scaled_error_norm norm sv r))
                            (rej ++ [acc])).
    { eapply Forall_impl; [exact Hpass|]. intros r (K0 & log0 & log0' & Hatt).
      apply (attempt_norm _ _ _ _ _ _ _ _ _ Htol Hatt). }
    apply Forall_app in Hnorms. destruct Hnorms as [Hn Hn_acc].
    apply Forall_inv in Hn_acc.
    split; [exact Hn_acc|]. split.
    + rewrite Hn_acc in Hacc. apply np_lt_one_Fin_false in Hacc. exact Hacc.
    + apply Forall_lookup. intros i r Hr.
      pose proof (proj1 (Forall_lookup _ _) Hn i r Hr) as Hnr.
      pose proof (proj1 (Forall_lookup _ _) Hrej i r Hr) as Hgt.
      cbv beta in Hnr, Hgt.
      split; [exact Hnr|]. rewrite Hnr in Hgt. apply np_lt_one_Fin in Hgt. lra.
  - intros i r r' Hr Hr'. split; [eapply Hchain; eassumption|].
    intros Horder Hh.
    pose proof (loop_run_magnitudes _ _ _ _ _ _ _ _ _ _ Hrun Horder Hh) as Hmag.
    pose proof (proj1 (Forall_lookup _ _) Hmag _ _ Hr) as Hmr.
    pose proof (proj1 (Forall_lookup _ _) Hmag _ _ Hr') as Hmr'.
    pose proof (Hchain _ _ _ Hr Hr') as Hsh.
    apply shrink_inv in Hsh. destruct Hsh as (fac & Hfac & Hmin & Hlt).
    specialize (Hlt Horder (chain_rejected _ _ _ _ _ _ Hrej Hr Hr')).
    unfold MIN_FACTOR in Hmin. simpl in Hmr, Hmr'. rewrite Hfac in *.
    repeat split; try intros Hpos; nra.
Qed.

(** C5, amended.  For the trials [rej] and [acc] of a call of [step] that
    accepts a step: the stored step size is [min(h_abs * fac, max_step)] for
    the magnitude [h_abs] of the accepted trial and a growth factor
    [1 <= fac <= MAX_FACTOR = 5], so the growth formula never shrinks the
    step, and (for a [max_step] that is not [nan]) the stored size exceeds
    neither [min(max_step, h_abs * MAX_FACTOR)] nor
    [min(max_step, previous_h * MAX_FACTOR)] for the step size [previous_h]
    stored before the call.  A rejection multiplies the magnitude of the
    rejected trial, which is the magnitude after the boundary clamp of lines
    128-131, by a factor of at least [MIN_FACTOR = 0.2]; so the trial after
    a rejection is at least [MIN_FACTOR] times the magnitude the rejected
    trial started from when that magnitude was not beyond the boundary. *)
Theorem step_size_bounds fun_ norm ambient fuel sv log acc rej log1 sv' log' :
  active sv ->
  (0 < rk_order sv)%Z -> 0 <= rk_step_size sv ->
  step_loop fun_ norm ambient fuel sv (rk_step_size sv) (rk_K sv) log
    = Ok (acc, rej, log1) ->
  step fun_ norm ambient fuel sv log = Ok (sv', log') ->
  MAX_FACTOR = 5 /\ MIN_FACTOR = 0.2 /\
  (exists fac,
     1 <= fac <= MAX_FACTOR /\
     py_min (Fin (tr_h_abs acc * fac)) (rk_max_step sv) = Fin (rk_step_size sv') /\
     tr_h_abs acc <= tr_h_abs acc * fac) /\
  (rk_max_step sv <> NaN ->
   np_le (Fin (rk_step_size sv'))
         (py_min (rk_max_step sv) (Fin (tr_h_abs acc * MAX_FACTOR))) /\
   np_le (Fin (rk_step_size sv'))
         (py_min (rk_max_step sv) (Fin (rk_step_size sv * MAX_FACTOR)))) /\
  (forall i r r',
     (rej ++ [acc]) !! i = Some r -> (rej ++ [acc]) !! S i = Some r' ->
     tr_h_abs r * MIN_FACTOR <= tr_h_in r' /\
     (tr_h_in r <= Rabs (rk_t_crit sv - st_t (rk_state sv)) ->
      tr_h_in r * MIN_FACTOR <= tr_h_in r')).
Proof.
  intros Hact Horder Hh Hloop Hstep.
  split; [reflexivity|]. split; [reflexivity|].
  destruct (step_of_loop _ _ _ _ _ _ _ _ _ _ _ Hact Hloop Hstep) as (_ & _ & _ & Hgrow).
  pose proof (step_loop_run _ _ _ _ _ _ _ _ _ _ _ Hloop) as Hrun.
  pose proof (loop_run_trials _ _ _ _ _ _ _ _ _ _ Hrun)
    as (Hpass & _ & _ & _ & Hchain).
  pose proof (loop_run_magnitudes _ _ _ _ _ _ _ _ _ _ Hrun Horder Hh) as Hmag.
  apply grow_inv in Hgrow. destruct Hgrow as (fac & Hfac & Hmin).
  assert (Hacc : 0 <= tr_h_abs acc <= rk_step_size sv).
  { apply Forall_app in Hmag. destruct Hmag as [_ Hm]. apply Forall_inv in Hm. lra. }
  destruct (py_min_Fin (tr_h_abs acc * fac) (rk_max_step sv)) as (r & Hr & Hle & Hmax).
  rewrite Hr in Hmin. injection Hmin as Hsize. rewrite <- Hsize.
  unfold MAX_FACTOR in *.
  split; [|split].
  - exists fac. split; [exact Hfac|]. split; [exact Hr | nra].
  - intros Hnan. specialize (Hmax Hnan).
    split; (apply np_le_py_min; [exact Hmax | nra]).
  - intros i r0 r' Hr0 Hr'.
    pose proof (proj1 (Forall_lookup _ _) Hmag _ _ Hr0) as Hmr. simpl in Hmr.
    pose proof (Hchain _ _ _ Hr0 Hr') as Hsh.
    apply shrink_inv in Hsh. destruct Hsh as (fac' & Hfac' & Hmin' & _).
    unfold MIN_FACTOR in *.
    split; [rewrite Hfac'; nra|].
    intros Hfits.
    pose proof (proj1 (Forall_lookup _ _) Hpass _ _ Hr0) as (K0 & log0 & log0' & Hatt).
    apply attempt_inv in Hatt. destruct Hatt as (_ & Hclamp & _).
    unfold clamp in Hclamp.
    rewrite decide_False in Hclamp by lra. injection Hclamp as Habs _ _.
    rewrite Hfac', <- Habs. nra.
Qed.

(** Without the override of line 146 a zero base would raise under the
    error state [raise]. *)
Lemma np_power_zero_raise e :
  e < 0 -> np_power em_raise (Fin 0) e = Fail (Exn FloatingPointError).
Proof.
  intros He. unfold np_power.
  rewrite decide_False by lra. rewrite decide_True by reflexivity.
  rewrite decide_True by exact He. reflexivity.
Qed.

(** C6.  When the error norm of the accepted trial is exactly 0, the growth
    computation of lines 146-148 raises nothing, whatever the ambient
    error state: [0 ** (-1/order)] is [inf] under [divide='ignore'], the
    factor [min(MAX_FACTOR, max(1, SAFETY * inf))] is [MAX_FACTOR], and
    [step] returns with the step size [min(h_abs * MAX_FACTOR, max_step)]. *)
Theorem zero_norm_grows_by_max_factor fun_ norm ambient fuel sv log acc rej log1 :
  active sv -> wf_solver fun_ sv -> (0 < rk_order sv)%Z ->
  step_loop fun_ norm ambient fuel sv (rk_step_size sv) (rk_K sv) log
    = Ok (acc, rej, log1) ->
  tr_error_norm acc = Fin 0 ->
  exists h_abs sv' log',
    grow sv acc = Ok h_abs /\
    py_min (Fin (tr_h_abs acc * MAX_FACTOR)) (rk_max_step sv) = Fin h_abs /\
    step fun_ norm ambient fuel sv log = Ok (sv', log') /\
    rk_step_size sv' = h_abs.
Proof.
  intros Hact Hwf Horder Hloop Hnorm.
  destruct (grow_zero sv acc Horder Hnorm) as (h_abs & Hgrow & Hmin).
  assert (Hrows : length (tr_K acc) = S (length (rk_B sv))).
  { pose proof (step_loop_run _ _ _ _ _ _ _ _ _ _ _ Hloop) as Hrun.
    apply loop_run_trials in Hrun. destruct Hrun as (Hpass & _).
    apply Forall_app in Hpass. destruct Hpass as [_ Hpass].
    apply Forall_inv in Hpass. destruct Hpass as (K0 & log0 & log0' & Hatt).
    apply (attempt_rows _ _ _ _ _ _ _ _ _ Hwf Hatt). }
  destruct (midpoint_total fun_ sv acc Hwf Hrows) as (ym & Hym).
  exists h_abs. eexists _, _. split; [exact Hgrow|]. split; [exact Hmin|].
  unfold step.
  rewrite decide_False by (unfold active in Hact; intros [? ?]; destruct Hact; congruence).
  unfold mbind at 1, comp_bind. rewrite Hloop.
  erewrite bind_lift by exact Hgrow.
  erewrite bind_lift by exact Hym.
  split; reflexivity.
Qed.

Lemma zero_norm_grows_by_max_factor_witness :
  exists sv' log',
    step (zero_rhs 1) rms_norm em_raise 1 (rk45_stepper 0 1 started) [] = Ok (sv', log') /\
    exists h_abs, py_min (Fin (h_abs * MAX_FACTOR)) PInf = Fin (rk_step_size sv').
Proof.
  destruct (zero_rhs_loop_returns rms_norm em_raise (rk45_stepper 0 1 started)
              (1 / 10) 0 [] (wf_rk45_stepper _ _ _) (positive_tol_rk45 _ _ _)
              eq_refl (rms_norm_zero 1)) as (tr & log1 & Hloop & Hnorm).
  destruct (zero_norm_grows_by_max_factor (zero_rhs 1) rms_norm em_raise 1
              (rk45_stepper 0 1 started) [] tr [] log1
              (or_introl eq_refl) (wf_rk45_stepper _ _ _) ltac:(simpl; lia) Hloop Hnorm)
    as (h_abs & sv' & log' & _ & Hmin & Hstep & Hsize).
  exists sv', log'. split; [exact Hstep|].
  exists (tr_h_abs tr). rewrite Hsize. exact Hmin.
Defined.

(** C10.  With midpoint coefficients [M], the state emitted by an accepted
    step carries [ym = y + 0.5 * h * (Kᵗ · M)], where [h] is the signed step
    of the accepted trial and [K] (all [n_stages + 1] rows, the last holding
    the end-of-step derivative) is the buffer as the accepted call of
    [rk_step] left it, which is also the buffer the stepper keeps.  That call
    yields the same results and the same buffer from any buffer of the
    right shape: nothing of the rejected trials remains in [K]. *)
Theorem midpoint_from_accepted_stages fun_ norm ambient fuel sv m log sv' log' :
  active sv -> wf_solver fun_ sv -> rk_M sv = Some m ->
  step fun_ norm ambient fuel sv log = Ok (sv', log') ->
  exists acc rej,
    Forall (pass_of fun_ norm ambient sv) (rej ++ [acc]) /\
    st_y (rk_state sv') = tr_y_new acc /\
    rk_K sv' = tr_K acc /\
    length (tr_K acc) = S (length (rk_B sv)) /\
    tr_K acc !! length (rk_B sv) = Some (tr_f_new acc) /\
    st_ym (rk_state sv') =
      Some (vadd (st_y (rk_state sv))
                 (smul (0.5 * tr_h acc) (lincomb (rk_n sv) (tr_K acc) m))) /\
    (forall K0 log0,
       length K0 = S (length (rk_B sv)) ->
       Forall (fun r => length r = rk_n sv) K0 ->
       exists log0',
         rk_step fun_ (rk_n sv) (st_t (rk_state sv)) (st_y (rk_state sv))
                 (st_f (rk_state sv)) (tr_h acc)
                 (rk_A sv) (rk_B sv) (rk_C sv) (rk_E sv) K0 log0
           = Ok (tr_y_new acc, tr_f_new acc, tr_error acc, tr_K acc, log0')).
Proof.
  intros Hact Hwf HM Hstep.
  destruct (step_inv _ _ _ _ _ _ _ _ Hact Hstep)
    as (acc & rej & log1 & h_abs & ym & Hrun & _ & Hym & _ & ->).
  pose proof (loop_run_trials _ _ _ _ _ _ _ _ _ _ Hrun) as (Hpass & _).
  destruct (loop_run_accepted_rk_step _ _ _ _ _ _ _ _ _ _ Hrun Hwf
              (wf_K_rows _ _ Hwf) (wf_K_cols _ _ Hwf))
    as (K1 & log1' & HlenK1 & HK1 & Hrk).
  pose proof Hrk as Hsound.
  apply rk_step_sound in Hsound;
    [|exact HK1|destruct (wf_tab _ _ Hwf); rewrite length_zip_with; lia].
  destruct Hsound as (Hspec & Hlen & Hshape & _).
  exists acc, rej. simpl.
  split; [exact Hpass|]. split; [reflexivity|]. split; [reflexivity|].
  split; [congruence|]. split; [apply (spec_last _ _ _ _ _ _ _ _ _ _ _ _ _ _ Hspec)|].
  split.
  - unfold midpoint in Hym. rewrite HM in Hym. inv_ok. subst.
    match goal with H : np_dot_T _ _ _ = Ok _ |- _ =>
      apply np_dot_T_lincomb in H; [subst|exact Hshape] end.
    match goal with H : np_add _ _ = Ok _ |- _ =>
      apply np_zip_ok in H; destruct H as [_ ->] end.
    reflexivity.
  - intros K0 log0 HlenK0 HK0.
    apply (rk_step_buffer_independent fun_ (rk_n sv) _ _ _ _ _ _ _ _ K1 log1' _ _ _ K0 log0
             (wf_tab _ _ Hwf) (wf_fun _ _ Hwf) (wf_f _ _ Hwf) HlenK1 HK1 HlenK0 HK0 Hrk).
Qed.

Lemma midpoint_from_accepted_stages_witness :
  exists sv' log',
    step (zero_rhs 1) rms_norm em_warn 1 (rk45_stepper 0 1 started) [] = Ok (sv', log') /\
    exists acc,
      rk_K sv' = tr_K acc /\
      st_ym (rk_state sv') =
        Some (vadd [1] (smul (0.5 * tr_h acc) (lincomb 1 (tr_K acc) M45))).
Proof.
  destruct (zero_rhs_step_returns rms_norm em_warn (rk45_stepper 0 1 started) 0 []
              (wf_rk45_stepper _ _ _) (positive_tol_rk45 _ _ _) (or_introl eq_refl)
              ltac:(simpl; discriminate) eq_refl (rms_norm_zero 1))
    as (sv' & log' & Hstep).
  exists sv', log'. split; [exact Hstep|].
  destruct (midpoint_from_accepted_stages (zero_rhs 1) rms_norm em_warn 1
              (rk45_stepper 0 1 started) M45 [] sv' log'
              (or_introl eq_refl) (wf_rk45_stepper _ _ _) eq_refl Hstep)
    as (acc & rej & _ & _ & HK & _ & _ & Hym & _).
  exists acc. split; assumption.
Defined.


Lemma ordered_midpoint_states M : ordered_states 1 M midpoint_states.
Proof.
  split.
  - simpl. lia.
  - left. intros i a b Ha Hb. destruct i as [|[|i]]; simpl in Ha, Hb; try discriminate.
    injection Ha as <-. injection Hb as <-. lra.
  - repeat constructor.
  - repeat constructor.
  - intros _. simpl. repeat constructor. exists [2]. split; reflexivity.
Qed.


(** C4, amended.  For an ordered sequence of at least two states of a scheme
    without midpoint coefficients (the cubic formula), the interpolant built
    from the reversed sequence is the one built from the sequence itself. *)
Theorem spline_reversed_cubic states :
  (2 <= length states)%nat ->
  increasing (map st_t states) \/ decreasing (map st_t states) ->
  spline None (reverse states) = spline None states.
Proof.
  intros Htwo Horder.
  rewrite !spline_unfold by (rewrite ?length_reverse; exact Htwo).
  rewrite spline_arrays_reverse_None; [reflexivity|].
  destruct (hd_last_lookup (map st_t states)) as (a & b & Ha & Hb & -> & ->);
    [rewrite length_map; exact Htwo|].
  assert (Hlt : (0 < length (map st_t states) - 1)%nat) by (rewrite length_map; lia).
  destruct Horder as [Hinc|Hdec].
  - pose proof (increasing_lt _ Hinc _ _ a b Hlt Ha Hb). lra.
  - apply decreasing_reverse in Hdec.
    assert (b < a); [|lra].
    apply (increasing_lt _ Hdec (length (map st_t states) - 1) 0%nat b a Hlt).
    + rewrite reverse_lookup by lia. rewrite <- Hb; f_equal; lia.
    + rewrite reverse_lookup by lia. rewrite <- Ha; f_equal; lia.
Qed.

Lemma spline_reversed_cubic_witness :
  spline None (reverse midpoint_states) = spline None midpoint_states.
Proof.
  apply (spline_reversed_cubic midpoint_states).
  - simpl. lia.
  - apply (os_order _ _ _ (ordered_midpoint_states None)).
Defined.

(** *** The reversed sequence of a midpoint scheme *)

Ltac forall_lra :=
  simpl; repeat first [apply List.Forall_nil | apply List.Forall_cons; [simpl; lra|]].

(** Runs [spline] on two explicit states of dimension 1. *)
Ltac eval_spline :=
  rewrite spline_two; unfold spline_arrays;
  rewrite (np_asarray_uniform _ 1%nat) by (repeat constructor);
  rewrite (np_asarray_uniform _ 1%nat) by (repeat constructor);
  simpl;
  first [rewrite decide_False by lra | rewrite decide_True by lra];
  simpl; unfold spline_pieces; simpl;
  rewrite decide_True by (unfold np_diff; forall_lra);
  unfold PPoly_init;
  rewrite decide_True by (left; unfold np_diff; forall_lra);
  unfold quartic_coefficients, cubic_coefficients, madd, msub, mscale, mdivc,
    hpow, smul, np_diff; simpl.

Lemma quartic_coefficients_eq (a0 a1 a2 a3 a4 b0 b1 b2 b3 b4 : R) :
  a0 = b0 -> a1 = b1 -> a2 = b2 -> a3 = b3 -> a4 = b4 ->
  [[[a0]]; [[a1]]; [[a2]]; [[a3]]; [[a4]]] = [[[b0]]; [[b1]]; [[b2]]; [[b3]]; [[b4]]].
Proof. intros -> -> -> -> ->. reflexivity. Qed.

Lemma spline_midpoint_forward :
  spline (Some M45) midpoint_states
    = Ok (PPoly [[[32]]; [[-64]]; [[32]]; [[0]]; [[0]]] [0; 1]).
Proof.
  unfold midpoint_states. eval_spline.
  f_equal. f_equal. apply quartic_coefficients_eq; try reflexivity; field.
Qed.

Lemma spline_midpoint_reversed :
  spline (Some M45) (reverse midpoint_states)
    = Ok (PPoly [[[16]]; [[-32]]; [[16]]; [[0]]; [[0]]] [0; 1]).
Proof.
  unfold midpoint_states, reverse. simpl rev_append. eval_spline.
  f_equal. f_equal. apply quartic_coefficients_eq; try reflexivity; field.
Qed.

(** C4 as stated fails for a midpoint scheme: line 175 reads the midpoint
    values from [states[1:]] by position, so the reversed sequence pairs each
    piece with the midpoint value of the wrong state. *)
Lemma spline_reversed_midpoint_differs :
  ordered_states 1 (Some M45) midpoint_states /\
  spline (Some M45) (reverse midpoint_states) <> spline (Some M45) midpoint_states.
Proof.
  split; [apply ordered_midpoint_states|].
  rewrite spline_midpoint_forward, spline_midpoint_reversed.
  intros H. injection H as H. lra.
Qed.

(** On the first two states of a run the reversed sequence does not even
    build: the initial state has no midpoint value. *)
Lemma spline_reversed_initial_fails :
  spline (Some M45) (reverse initial_states) = Fail (Exn TypeError).
Proof.
  unfold initial_states, reverse. simpl rev_append.
  rewrite spline_two. unfold spline_arrays.
  rewrite (np_asarray_uniform _ 1%nat) by (repeat constructor).
  rewrite (np_asarray_uniform _ 1%nat) by (repeat constructor).
  reflexivity.
Qed.

(** * Further properties of the code *)

(** ** Evaluations of the right-hand side *)

(** The stage loop evaluates the right-hand side once per stage, at
    [t + c * h] and at the stage input the specification writes. *)
Lemma rk_stages_log fun_ n t y h AC : forall s K log K' log',
  Forall (fun r => length r = n) K ->
  rk_stages fun_ n t y h s AC K log = Ok (K', log') ->
  exists calls,
    log' = log ++ calls /\ length calls = length AC /\
    forall j a c, AC !! j = Some (a, c) ->
      calls !! j =
        Some (t + c * h, vadd y (smul h (lincomb n (take (S (s + j)) K') a))).
Proof.
  induction AC as [|[a c] rest IH]; intros s K log K' log' HK Hrun.
  - simpl in Hrun. inv_ok. subst. exists []. rewrite app_nil_r.
    repeat split. intros j a c Hj. rewrite lookup_nil in Hj. discriminate.
  - pose proof (rk_stages_sound _ _ _ _ _ _ _ _ _ _ _ HK Hrun)
      as (_ & _ & Hframe & _ & _).
    simpl in Hrun. inv_ok. subst.
    match goal with H : np_dot_T _ _ _ = Ok ?x |- _ => rename H into Hdot; rename x into d end.
    match goal with H : np_add _ _ = Ok ?x |- _ => rename H into Hadd; rename x into arg end.
    match goal with H : set_row _ _ _ _ = Ok ?x |- _ =>
      apply set_row_ok in H; destruct H as (Hs & Hv & ->) end.
    apply np_dot_T_lincomb in Hdot; [|apply Forall_take; exact HK].
    apply np_zip_ok in Hadd. destruct Hadd as [_ Harg].
    rewrite muls_smul in Harg. fold (vadd y (smul h d)) in Harg.
    apply IH in Hrun; [|apply Forall_insert; assumption].
    destruct Hrun as (calls & -> & Hlen & Hcalls).
    exists ((t + c * h, arg) :: calls). split; [|split].
    + rewrite <- app_assoc. reflexivity.
    + simpl. rewrite Hlen. reflexivity.
    + intros [|j] a' c' Hj; simpl in Hj.
      * injection Hj as <- <-. simpl. rewrite Nat.add_0_r.
        rewrite (take_agree (S s) K K') by (intros i Hi; apply Hframe; left; lia).
        rewrite Harg, Hdot. reflexivity.
      * specialize (Hcalls j a' c' Hj).
        replace (S s + j)%nat with (s + S j)%nat in Hcalls by lia. exact Hcalls.
Qed.

(** X1.  A call of [rk_step] that returns has evaluated the right-hand side
    [len(zip(A, C)) + 1] times: once per stage, in stage order, at
    [t + C[s] * h], the value going to row [s + 1] of [K], and a last time at
    [(t + h, y_new)].  Row 0 reuses [f]: nothing is evaluated for it. *)
Theorem rk_step_evaluations fun_ n t y f h A B C E K log y_new f_new error K' log' :
  Forall (fun r => length r = n) K ->
  (length (zip A C) < length B)%nat ->
  rk_step fun_ n t y f h A B C E K log = Ok (y_new, f_new, error, K', log') ->
  exists calls,
    log' = log ++ calls /\
    length calls = S (length (zip A C)) /\
    (forall s a c, A !! s = Some a -> C !! s = Some c ->
       exists arg, calls !! s = Some (t + c * h, arg) /\
                   K' !! S s = Some (fun_ (t + c * h) arg)) /\
    calls !! length (zip A C) = Some (t + h, y_new) /\
    K' !! 0%nat = Some f.
Proof.
  intros HK Hstages Hrun.
  pose proof (rk_step_sound _ _ _ _ _ _ _ _ _ _ _ _ _ _ _ _ _ HK Hstages Hrun)
    as ([H0 Hstage _ _ _ _] & _).
  unfold rk_step in Hrun. inv_ok. subst.
  repeat match goal with H : set_row _ _ _ _ = Ok _ |- _ =>
    apply set_row_ok in H; destruct H as (? & ? & ->) end.
  match goal with H : rk_stages _ _ _ _ _ _ _ _ _ = Ok (?x, _) |- _ =>
    rename x into K1; rename H into Hst end.
  assert (HK0 : Forall (fun r => length r = n) (<[0%nat := f]> K))
    by (apply Forall_insert; assumption).
  pose proof (rk_stages_sound _ _ _ _ _ _ _ _ _ _ _ HK0 Hst) as (Hlen1 & _).
  apply rk_stages_log in Hst; [|exact HK0].
  destruct Hst as (calls & -> & Hlen & Hcalls).
  match goal with H : np_dot_T _ (removelast _) _ = Ok _ |- _ =>
    apply np_dot_T_ok in H; destruct H as [HlenB _] end.
  rewrite removelast_firstn_len, length_take in HlenB.
  rewrite length_insert in Hlen1.
  match goal with H : np_add _ _ = Ok ?x |- _ => rename x into y_new end.
  exists (calls ++ [(t + h, y_new)]). split; [|split; [|split; [|split]]].
  - rewrite app_assoc. reflexivity.
  - rewrite length_app, Hlen. simpl. lia.
  - intros s a c Ha Hc.
    assert (Hs : zip A C !! s = Some (a, c)) by (rewrite lookup_zip_with, Ha, Hc; reflexivity).
    pose proof (lookup_lt_Some _ _ _ Hs) as Hlt.
    specialize (Hcalls s a c Hs). simpl in Hcalls.
    eexists. split.
    + rewrite lookup_app_l by exact (lookup_lt_Some _ _ _ Hcalls). exact Hcalls.
    + rewrite (Hstage s a c Ha Hc).
      rewrite take_insert_ge by lia. reflexivity.
  - rewrite <- Hlen. apply list_lookup_middle. reflexivity.
  - exact H0.
Qed.

Lemma rk_step_evaluations_witness :
  exists y_new f_new error K' log',
    rk_step (fun _ y => y) 1 0 [1] [1] (1 / 10) A23 B23 C23 E23
            [[0]; [0]; [0]; [0]] [] = Ok (y_new, f_new, error, K', log') /\
    length log' = 3%nat.
Proof.
  destruct (rk_step_total (fun _ y => y) 1 0 [1] (1 / 10) [1] A23 B23 C23 E23
              [[0]; [0]; [0]; [0]] [] wf_tableau_23 eq_refl
              ltac:(repeat constructor) eq_refl eq_refl ltac:(intros t y Hy; exact Hy))
    as ([[[y_new f_new] error] K'] & log' & Hrun).
  exists y_new, f_new, error, K', log'. split; [exact Hrun|].
  destruct (rk_step_evaluations (fun _ y => y) 1 0 [1] [1] (1 / 10) A23 B23 C23 E23
              [[0]; [0]; [0]; [0]] [] y_new f_new error K' log'
              ltac:(repeat constructor) ltac:(simpl; lia) Hrun)
    as (calls & -> & Hlen & _).
  simpl. exact Hlen.
Defined.

Lemma rk_stages_call_count fun_ n t y h AC : forall s K log K' log',
  rk_stages fun_ n t y h s AC K log = Ok (K', log') ->
  exists calls, log' = log ++ calls /\ length calls = length AC.
Proof.
  induction AC as [|[a c] rest IH]; intros s K log K' log' Hrun.
  - simpl in Hrun. inv_ok. subst. exists []. rewrite app_nil_r. split; reflexivity.
  - simpl in Hrun. inv_ok. subst. apply IH in Hrun.
    destruct Hrun as (calls & -> & Hlen).
    eexists (_ :: calls). rewrite <- app_assoc. split; [reflexivity|].
    simpl. rewrite Hlen. reflexivity.
Qed.

Lemma rk_step_call_count fun_ n t y f h A B C E K log r log' :
  rk_step fun_ n t y f h A B C E K log = Ok (r, log') ->
  exists calls, log' = log ++ calls /\ length calls = S (length (zip A C)).
Proof.
  intros Hrun. unfold rk_step in Hrun. inv_ok. subst.
  match goal with H : rk_stages _ _ _ _ _ _ _ _ _ = Ok _ |- _ =>
    apply rk_stages_call_count in H; destruct H as (calls & -> & Hlen) end.
  eexists (calls ++ [_]). rewrite <- app_assoc. split; [reflexivity|].
  rewrite length_app, Hlen. simpl. lia.
Qed.

Lemma loop_run_call_count fun_ norm ambient sv h_abs K log rej acc log' :
  loop_run fun_ norm ambient sv h_abs K log rej acc log' ->
  exists calls,
    log' = log ++ calls /\
    length calls = (S (length rej) * S (length (zip (rk_A sv) (rk_C sv))))%nat.
Proof.
  induction 1 as [h_abs K log tr log' Hatt Hnorm
                 |h_abs K log tr log1 h_abs' rej acc log' Hatt Hnorm Hsh _ IH];
    apply attempt_inv in Hatt; destruct Hatt as (_ & _ & Hrk & _);
    apply rk_step_call_count in Hrk; destruct Hrk as (calls & -> & Hlen).
  - exists calls. split; [reflexivity|]. rewrite Hlen. simpl. lia.
  - destruct IH as (calls' & -> & Hlen').
    exists (calls ++ calls'). rewrite <- app_assoc. split; [reflexivity|].
    rewrite length_app, Hlen, Hlen'. simpl. lia.
Qed.

(** X2.  A call of [step] that acts and returns after [r] rejected trials
    has evaluated the right-hand side [(r + 1) * (len(zip(A, C)) + 1) + 1]
    times: every trial costs a full call of [rk_step], and line 155
    evaluates [fun(t_new, y_new)] once more for the emitted state. *)
Theorem step_evaluation_count fun_ norm ambient fuel sv log sv' log' :
  active sv ->
  step fun_ norm ambient fuel sv log = Ok (sv', log') ->
  exists acc rej calls,
    Forall (pass_of fun_ norm ambient sv) (rej ++ [acc]) /\
    Forall (fun r => np_lt (Fin 1) (tr_error_norm r) = true) rej /\
    log' = log ++ calls /\
    length calls =
      (S (length rej) * S (length (zip (rk_A sv) (rk_C sv))) + 1)%nat /\
    last calls = Some (st_t (rk_state sv'), st_y (rk_state sv')) /\
    st_f (rk_state sv') = fun_ (st_t (rk_state sv')) (st_y (rk_state sv')).
Proof.
  intros Hact Hstep.
  destruct (step_inv _ _ _ _ _ _ _ _ Hact Hstep)
    as (acc & rej & log1 & h_abs & ym & Hrun & _ & _ & -> & ->).
  pose proof (loop_run_trials _ _ _ _ _ _ _ _ _ _ Hrun) as (Hpass & Hrej & _).
  destruct (loop_run_call_count _ _ _ _ _ _ _ _ _ _ Hrun) as (calls1 & -> & Hlen).
  exists acc, rej, (calls1 ++ [(tr_t_new acc, tr_y_new acc)]). simpl.
  split; [exact Hpass|]. split; [exact Hrej|]. split; [rewrite app_assoc; reflexivity|].
  split; [|split; [apply last_snoc | reflexivity]].
  rewrite length_app, Hlen. simpl. lia.
Qed.

Lemma step_evaluation_count_witness :
  exists sv' log' rej,
    step (zero_rhs 1) rms_norm em_warn 1 (rk23_stepper 0 1 started) [] = Ok (sv', log') /\
    length log' = (S (length (rej : list trial)) * 3 + 1)%nat /\
    last log' = Some (st_t (rk_state sv'), st_y (rk_state sv')).
Proof.
  destruct (zero_rhs_step_returns rms_norm em_warn (rk23_stepper 0 1 started) 0 []
              (wf_rk23_stepper _ _ _) (positive_tol_rk23 _ _ _) (or_introl eq_refl)
              ltac:(simpl; discriminate) eq_refl (rms_norm_zero 1))
    as (sv' & log' & Hstep).
  destruct (step_evaluation_count (zero_rhs 1) rms_norm em_warn 1
              (rk23_stepper 0 1 started) [] sv' log' (or_introl eq_refl) Hstep)
    as (acc & rej & calls & _ & _ & -> & Hlen & Hlast & _).
  exists sv', calls, rej. split; [exact Hstep|]. split; [exact Hlen | exact Hlast].
Defined.

(** ** Constant right-hand sides *)

Lemma smul_zero_vec (c : vec) n : length c = n -> smul 0 c = repeat 0 n.
Proof.
  intros <-. unfold smul. induction c as [|x c IH]; simpl; [reflexivity|].
  f_equal; [lra | exact IH].
Qed.

Lemma smul_smul a b (c : vec) : smul a (smul b c) = smul (a * b) c.
Proof.
  unfold smul. rewrite map_map. apply map_ext. intros x. lra.
Qed.

Lemma vadd_smul_smul a b (c : vec) : vadd (smul a c) (smul b c) = smul (a + b) c.
Proof.
  unfold vadd, smul. induction c as [|x c IH]; simpl; [reflexivity|].
  f_equal; [lra | exact IH].
Qed.

(** A linear combination of equal rows is the row times the sum of the
    coefficients. *)
Lemma lincomb_const_rows n (c : vec) rows : forall a,
  length c = n ->
  Forall (fun r => r = c) rows ->
  length rows = length a ->
  lincomb n rows a = smul (vsum a) c.
Proof.
  induction rows as [|r rows IH]; intros a Hc Hrows Hlen.
  - destruct a; [|discriminate]. simpl. symmetry. apply smul_zero_vec. exact Hc.
  - destruct a as [|x a]; [discriminate|]. simpl in Hlen. injection Hlen as Hlen.
    apply Forall_cons_1 in Hrows. destruct Hrows as [-> Hrows].
    simpl. rewrite (IH a Hc Hrows Hlen). apply vadd_smul_smul.
Qed.

(** With a constant right-hand side every stage is the constant, so the
    linear combinations of the stages collapse to multiples of it. *)
Lemma rk_step_const_values n t y h A B C E K log c y_new f_new error K' log' :
  wf_tableau A B C E ->
  length K = S (length B) ->
  Forall (fun r => length r = n) K ->
  length c = n ->
  rk_step (const_rhs c) n t y c h A B C E K log = Ok (y_new, f_new, error, K', log') ->
  Forall (fun r => r = c) K' /\
  y_new = vadd y (smul (h * vsum B) c) /\
  f_new = c /\
  error = smul (h * vsum E) c.
Proof.
  intros [HA HB HE Hrows] HlenK HK Hc Hrun.
  apply rk_step_sound in Hrun; [|exact HK|rewrite length_zip_with; lia].
  destruct Hrun as ([H0 Hstage Hynew Hfnew Hlast Herr] & Hlen & _ & _).
  assert (Hconst : Forall (fun r => r = c) K').
  { apply Forall_lookup. intros i r Hi.
    destruct i as [|i].
    - rewrite H0 in Hi. congruence.
    - destruct (decide (i < length A)%nat) as [Hlt|Hge].
      + destruct (lookup_lt_is_Some_2 A i Hlt) as [a Ha].
        destruct (lookup_lt_is_Some_2 C i) as [c' Hc']; [lia|].
        rewrite (Hstage i a c' Ha Hc') in Hi. injection Hi as <-. reflexivity.
      + apply lookup_lt_Some in Hi as Hb.
        replace (S i) with (length B) in Hi by lia.
        rewrite Hlast in Hi. injection Hi as <-. exact Hfnew. }
  split; [exact Hconst|]. split; [|split; [exact Hfnew|]].
  - rewrite Hynew.
    rewrite (lincomb_const_rows n c (take (length B) K') B Hc).
    + rewrite smul_smul. reflexivity.
    + apply Forall_take. exact Hconst.
    + rewrite length_take_le; lia.
  - rewrite Herr. rewrite (lincomb_const_rows n c K' E Hc Hconst) by lia.
    rewrite smul_smul. reflexivity.
Qed.



(** The coefficients of the two schemes are consistent. *)
Lemma vsum_B23 : vsum B23 = 1.
Proof. unfold vsum, B23. simpl. lra. Qed.

Lemma vsum_E23 : vsum E23 = 0.
Proof. unfold vsum, E23. simpl. lra. Qed.

Lemma vsum_B45 : vsum B45 = 1.
Proof. unfold vsum, B45. simpl. lra. Qed.

Lemma vsum_E45 : vsum E45 = 0.
Proof. unfold vsum, E45. simpl. lra. Qed.

Lemma vsum_M45 : vsum M45 = 1.
Proof. unfold vsum, M45. simpl. lra. Qed.

Lemma smul_one (c : vec) : smul 1 c = c.
Proof.
  unfold smul. induction c as [|x c IH]; simpl; [reflexivity|].
  f_equal; [lra | exact IH].
Qed.

(** X5.  In exact arithmetic, with the coefficients read as the rational
    numbers that the source writes, both schemes of the catalog integrate a
    constant derivative exactly: with the tableau of [RungeKutta23] or of
    [RungeKutta45] and [fun(t, y) = c], [rk_step] returns
    [y_new = y + h * c], [f_new = c] and a zero error estimate, for every
    [t], [y] and [h]; and the midpoint value that [M45] gives from the stages
    is [y + 0.5 * h * c].  (In [float64] the sums of the coefficients carry
    rounding errors, and so do the results.) *)
Theorem catalog_exact_on_constant_rhs n t y h A B C E M K log c :
  (A, B, C, E, M) = (A23, B23, C23, E23, None) \/
  (A, B, C, E, M) = (A45, B45, C45, E45, Some M45) ->
  length K = S (length B) ->
  Forall (fun r => length r = n) K ->
  length y = n -> length c = n ->
  exists K' log',
    rk_step (const_rhs c) n t y c h A B C E K log
      = Ok (vadd y (smul h c), c, repeat 0 n, K', log') /\
    forall m, M = Some m ->
      vadd y (smul (0.5 * h) (lincomb n K' m)) = vadd y (smul (0.5 * h) c).
Proof.
  intros Hcat HlenK HK Hy Hc.
  assert (Hwf : wf_tableau A B C E /\ vsum B = 1 /\ vsum E = 0 /\
                forall m, M = Some m -> vsum m = 1 /\ length m = S (length B)).
  { destruct Hcat as [Heq|Heq]; injection Heq as -> -> -> -> ->.
    - split; [exact wf_tableau_23|]. split; [exact vsum_B23|]. split; [exact vsum_E23|].
      intros m Hm. discriminate.
    - split; [exact wf_tableau_45|]. split; [exact vsum_B45|]. split; [exact vsum_E45|].
      intros m Hm. injection Hm as <-. split; [exact vsum_M45 | reflexivity]. }
  destruct Hwf as (Hwf & HB & HE & HM).
  destruct (rk_step_total (const_rhs c) n t y h c A B C E K log Hwf HlenK HK Hy Hc
              ltac:(intros t' y' _; exact Hc))
    as ([[[y_new f_new] error] K'] & log' & Hrun).
  pose proof (rk_step_rows _ _ _ _ _ _ _ _ _ _ _ _ _ _ _ Hrun) as Hrows.
  destruct (rk_step_const_values n t y h A B C E K log c y_new f_new error K' log'
              Hwf HlenK HK Hc Hrun) as (Hconst & Hy_new & -> & Herr).
  rewrite HB, Rmult_1_r in Hy_new.
  rewrite HE, Rmult_0_r, (smul_zero_vec c n Hc) in Herr.
  rewrite Hy_new, Herr in Hrun.
  exists K', log'. split; [exact Hrun|].
  intros m Hm. destruct (HM m Hm) as [Hsum Hlen].
  rewrite (lincomb_const_rows n c K' m Hc Hconst).
  - rewrite Hsum, smul_one. reflexivity.
  - rewrite Hrows, Hlen. apply (wf_len_E _ _ _ _ Hwf).
Qed.

Lemma catalog_exact_on_constant_rhs_witness :
  exists K' log',
    rk_step (const_rhs [2]) 1 0 [1] [2] (1 / 10) A45 B45 C45 E45
            [[0]; [0]; [0]; [0]; [0]; [0]; [0]] []
      = Ok (vadd [1] (smul (1 / 10) [2]), [2], [0], K', log').
Proof.
  destruct (catalog_exact_on_constant_rhs 1 0 [1] (1 / 10) A45 B45 C45 E45 (Some M45)
              [[0]; [0]; [0]; [0]; [0]; [0]; [0]] [] [2]
              (or_intror eq_refl) eq_refl ltac:(repeat constructor) eq_refl eq_refl)
    as (K' & log' & Hrun & _).
  exists K', log'. exact Hrun.
Defined.

(** ** Invariants of [step] *)

Section StepInvariants.

Variable fun_ : R -> vec -> vec.
Variable norm : vec -> R.
Variable ambient : errstate.

(** The accepted trial leaves a stage buffer of the shape it found, with
    the old [f] in its first row and [f_new] in its last. *)
Lemma loop_run_accepted_buffer sv h_abs K log rej acc log' :
  loop_run fun_ norm ambient sv h_abs K log rej acc log' ->
  wf_solver fun_ sv ->
  length K = S (length (rk_B sv)) ->
  Forall (fun r => length r = rk_n sv) K ->
  length (tr_K acc) = S (length (rk_B sv)) /\
  Forall (fun r => length r = rk_n sv) (tr_K acc) /\
  length (tr_y_new acc) = rk_n sv /\
  tr_K acc !! 0%nat = Some (st_f (rk_state sv)) /\
  tr_K acc !! length (rk_B sv) = Some (tr_f_new acc) /\
  tr_f_new acc = fun_ (st_t (rk_state sv) + tr_h acc) (tr_y_new acc).
Proof.
  intros Hrun Hwf HlenK HK.
  destruct (loop_run_accepted_rk_step fun_ norm ambient sv h_abs K log rej acc log'
              Hrun Hwf HlenK HK) as (K1 & log1 & HlenK1 & HK1 & Hrk).
  pose proof (rk_step_shapes _ _ _ _ _ _ _ _ _ _ _ _ _ _ _ _ _ Hrk) as (_ & Hy_new & _).
  apply rk_step_sound in Hrk; [|exact HK1|].
  - destruct Hrk as (Hspec & Hlen & Hcols & _).
    split; [rewrite Hlen; exact HlenK1|]. split; [exact Hcols|].
    split; [exact Hy_new|]. split; [apply (spec_first _ _ _ _ _ _ _ _ _ _ _ _ _ _ Hspec)|].
    split; [apply (spec_last _ _ _ _ _ _ _ _ _ _ _ _ _ _ Hspec)
           |apply (spec_f_new _ _ _ _ _ _ _ _ _ _ _ _ _ _ Hspec)].
  - destruct (wf_tab _ _ Hwf). rewrite length_zip_with. lia.
Qed.

Lemma midpoint_shape sv tr ym :
  midpoint sv tr = Ok ym ->
  match rk_M sv with
  | Some _ => exists v, ym = Some v /\ length v = length (st_y (rk_state sv))
  | None => ym = None
  end.
Proof.
  unfold midpoint. destruct (rk_M sv) as [m|]; intros Hm.
  - inv_ok. subst.
    match goal with H : np_add _ _ = Ok ?v |- _ =>
      exists v; split; [reflexivity|];
      apply np_zip_ok in H; destruct H as [Hlen ->] end.
    rewrite length_zip_with, <- Hlen. lia.
  - inv_ok. subst. reflexivity.
Qed.

(** X6.  [step] keeps the stepper well formed and never touches its
    configuration: after a returning call the stage buffer still has
    [len(B) + 1] rows of width [n], the state has [y] and [f] of length [n],
    and [t_crit], [direction], [n], the tableau, [M], [order], [max_step],
    [rtol] and [atol] are what they were; a call that acted stored a
    midpoint value of length [n] exactly when the scheme has an [M]. *)
Theorem step_preserves_invariant fuel sv log sv' log' :
  wf_solver fun_ sv ->
  step fun_ norm ambient fuel sv log = Ok (sv', log') ->
  wf_solver fun_ sv' /\
  (rk_t_crit sv', rk_direction sv', rk_n sv', rk_order sv', rk_max_step sv',
   rk_rtol sv', rk_atol sv')
    = (rk_t_crit sv, rk_direction sv, rk_n sv, rk_order sv, rk_max_step sv,
       rk_rtol sv, rk_atol sv) /\
  (rk_A sv', rk_B sv', rk_C sv', rk_E sv', rk_M sv')
    = (rk_A sv, rk_B sv, rk_C sv, rk_E sv, rk_M sv) /\
  (active sv ->
   match rk_M sv with
   | Some _ => exists v, st_ym (rk_state sv') = Some v /\ length v = rk_n sv
   | None => st_ym (rk_state sv') = None
   end).
Proof.
  intros Hwf Hstep.
  destruct (decide (active sv)) as [Hact|Hina].
  - destruct (step_inv fun_ norm ambient fuel sv log sv' log' Hact Hstep)
      as (acc & rej & log1 & h_abs & ym & Hrun & _ & Hym & _ & ->).
    destruct (loop_run_accepted_buffer sv _ _ _ _ _ _ Hrun Hwf
                (wf_K_rows _ _ Hwf) (wf_K_cols _ _ Hwf))
      as (Hrows & Hcols & Hy_new & _).
    apply midpoint_shape in Hym.
    split; [|split; [reflexivity|split; [reflexivity|]]].
    + destruct Hwf as [Htab HKr HKc Hy Hf HM Hatol Hfun].
      constructor; simpl; try assumption.
      apply Hfun. exact Hy_new.
    + intros _. simpl. destruct (rk_M sv); [|exact Hym].
      destruct Hym as (v & -> & Hlen). exists v. split; [reflexivity|].
      rewrite Hlen. apply (wf_y _ _ Hwf).
  - unfold step in Hstep. rewrite decide_True in Hstep.
    + inv_ok. subst. split; [exact Hwf|]. split; [reflexivity|].
      split; [reflexivity|]. intros Hact. contradiction.
    + unfold active in Hina. destruct (rk_status sv); split; try discriminate;
        exfalso; apply Hina; auto.
Qed.

End StepInvariants.

Lemma step_preserves_invariant_witness :
  exists sv' log',
    step (zero_rhs 1) rms_norm em_warn 1 (rk45_stepper 0 1 started) [] = Ok (sv', log') /\
    wf_solver (zero_rhs 1) sv' /\
    exists v, st_ym (rk_state sv') = Some v /\ length v = 1%nat.
Proof.
  destruct (zero_rhs_step_returns rms_norm em_warn (rk45_stepper 0 1 started) 0 []
              (wf_rk45_stepper 0 1 started) (positive_tol_rk45 0 1 started)
              (or_introl eq_refl) ltac:(simpl; discriminate) eq_refl
              (rms_norm_zero 1))
    as (sv' & log' & Hstep).
  exists sv', log'. split; [exact Hstep|].
  destruct (step_preserves_invariant (zero_rhs 1) rms_norm em_warn 1 (rk45_stepper 0 1 started) [] sv' log'
              (wf_rk45_stepper 0 1 started) Hstep) as (Hwf & _ & _ & Hym).
  split; [exact Hwf|]. exact (Hym (or_introl eq_refl)).
Defined.

(** ** Where a step lands *)

Lemma clamp_cases t b s d h_abs h_abs' t_new h :
  clamp t b s d h_abs = (h_abs', t_new, h) ->
  0 <= d -> 0 <= h_abs ->
  0 <= h_abs' <= d /\ h = h_abs' * s /\
  (t_new = b /\ h_abs' = d \/ t_new = t + h_abs' * s) /\
  (0 < h_abs -> 0 < d -> 0 < h_abs') /\
  (h_abs = 0 -> h_abs' = 0).
Proof.
  unfold clamp. intros Hc Hd Hh. case_decide; injection Hc as <- <- <-.
  - split; [lra|]. split; [reflexivity|]. split; [left; auto|].
    split; intros; lra.
  - split; [lra|]. split; [reflexivity|]. split; [right; reflexivity|].
    split; intros; lra.
Qed.

Section StepProgress.

Variable fun_ : R -> vec -> vec.
Variable norm : vec -> R.
Variable ambient : errstate.

(** The magnitude of the accepted trial: it is clamped to the distance to
    the boundary, and the loop neither makes a positive magnitude zero nor a
    zero magnitude positive. *)
Lemma loop_run_accepted_magnitude sv h_abs K log rej acc log' :
  loop_run fun_ norm ambient sv h_abs K log rej acc log' ->
  0 <= h_abs ->
  0 <= tr_h_abs acc <= Rabs (rk_t_crit sv - st_t (rk_state sv)) /\
  tr_h acc = tr_h_abs acc * rk_direction sv /\
  (tr_t_new acc = rk_t_crit sv /\
   tr_h_abs acc = Rabs (rk_t_crit sv - st_t (rk_state sv)) \/
   tr_t_new acc = st_t (rk_state sv) + tr_h_abs acc * rk_direction sv) /\
  (0 < h_abs -> 0 < Rabs (rk_t_crit sv - st_t (rk_state sv)) -> 0 < tr_h_abs acc) /\
  (h_abs = 0 -> tr_h_abs acc = 0).
Proof.
  intros Hrun.
  induction Hrun as [h_abs K log tr log' Hatt Hnorm
                    |h_abs K log tr log1 h_abs' rej acc log' Hatt Hnorm Hsh _ IH];
    intros Hh.
  - apply attempt_inv in Hatt. destruct Hatt as (_ & Hclamp & _).
    apply clamp_cases in Hclamp; [exact Hclamp | apply Rabs_pos | exact Hh].
  - apply attempt_inv in Hatt. destruct Hatt as (_ & Hclamp & _).
    apply clamp_cases in Hclamp; [| apply Rabs_pos | exact Hh].
    destruct Hclamp as (Hb & _ & _ & Hpos & Hzero).
    apply shrink_inv in Hsh. destruct Hsh as (fac & -> & Hfac & _).
    unfold MIN_FACTOR in Hfac.
    destruct IH as (IH1 & IH2 & IH3 & IH4 & IH5); [nra|].
    split; [exact IH1|]. split; [exact IH2|]. split; [exact IH3|]. split.
    + intros Hp Hd. apply IH4; [|exact Hd]. specialize (Hpos Hp Hd). nra.
    + intros Hz. apply IH5. rewrite (Hzero Hz). lra.
Qed.


(** X8.  The stage buffer after a step: its first row is the derivative
    the step started from and its last row is the derivative of the emitted
    state, so (in exact arithmetic, with [direction] pointing from [t] to
    [t_crit]) the value [fun(t_new, y_new)] of line 155 is the [f_new] that
    [rk_step] has stored in [K[-1]]. *)
Theorem step_state_f_is_last_stage fuel sv log sv' log' :
  wf_solver fun_ sv -> active sv ->
  (rk_direction sv = 1 /\ st_t (rk_state sv) <= rk_t_crit sv) \/
  (rk_direction sv = -1 /\ rk_t_crit sv <= st_t (rk_state sv)) ->
  0 <= rk_step_size sv ->
  step fun_ norm ambient fuel sv log = Ok (sv', log') ->
  rk_K sv' !! 0%nat = Some (st_f (rk_state sv)) /\
  last (rk_K sv') = Some (st_f (rk_state sv')).
Proof.
  intros Hwf Hact Hdir Hsize Hstep.
  destruct (step_inv fun_ norm ambient fuel sv log sv' log' Hact Hstep)
    as (acc & rej & log1 & h_abs & ym & Hrun & _ & _ & _ & ->).
  destruct (loop_run_accepted_magnitude sv _ _ _ _ _ _ Hrun Hsize)
    as (Hb & Hh & Hcase & _).
  destruct (loop_run_accepted_buffer fun_ norm ambient sv _ _ _ _ _ _ Hrun Hwf
              (wf_K_rows _ _ Hwf) (wf_K_cols _ _ Hwf))
    as (Hrows & _ & _ & Hfirst & Hlast & Hf_new).
  simpl. split; [exact Hfirst|].
  rewrite list.last_lookup, Hrows. simpl. rewrite Hlast, Hf_new. do 2 f_equal.
  rewrite Hh. destruct Hcase as [[-> ->]| ->]; [|reflexivity].
  destruct Hdir as [[-> Hle]|[-> Hle]]; unfold Rabs; destruct Rcase_abs; lra.
Qed.

End StepProgress.


Lemma step_state_f_is_last_stage_witness :
  exists sv' log',
    step (zero_rhs 1) rms_norm em_warn 1 (rk45_stepper 0 1 started) [] = Ok (sv', log') /\
    last (rk_K sv') = Some (st_f (rk_state sv')).
Proof.
  destruct (zero_rhs_step_returns rms_norm em_warn (rk45_stepper 0 1 started) 0 []
              (wf_rk45_stepper 0 1 started) (positive_tol_rk45 0 1 started)
              (or_introl eq_refl) ltac:(simpl; discriminate) eq_refl
              (rms_norm_zero 1))
    as (sv' & log' & Hstep).
  exists sv', log'. split; [exact Hstep|].
  apply (step_state_f_is_last_stage (zero_rhs 1) rms_norm em_warn 1
           (rk45_stepper 0 1 started) [] sv' log' (wf_rk45_stepper 0 1 started)
           (or_introl eq_refl)).
  - left. split; [reflexivity | simpl; lra].
  - simpl. lra.
  - exact Hstep.
Defined.

(** ** A constant derivative through [step] *)




(** ** The midpoint values in the dense output *)




Section MidpointPieces.

Variable n : nat.
Variable ss : list OdeState.
Hypothesis Hinc : increasing (map st_t ss).
Hypothesis Hy : Forall (fun s => length (st_y s) = n) ss.
Hypothesis Hf : Forall (fun s => length (st_f s) = n) ss.


End MidpointPieces.



(** ** Which midpoint values [spline] reads *)

Lemma collect_ym_missing (l : list OdeState) :
  (exists s, s ∈ l /\ st_ym s = None) -> collect_ym (map st_ym l) = None.
Proof.
  induction l as [|a l IH]; intros (s & Hin & Hs).
  - apply elem_of_nil in Hin. contradiction.
  - simpl. destruct (st_ym a) as [v|] eqn:E; [|reflexivity].
    apply elem_of_cons in Hin. destruct Hin as [->|Hin]; [congruence|].
    rewrite IH by eauto. reflexivity.
Qed.

Lemma asarray_ym_missing (l : list OdeState) :
  (exists s, s ∈ l /\ st_ym s = None) ->
  exists e, asarray_ym (map st_ym l) = Fail (Exn e).
Proof.
  intros H. unfold asarray_ym. rewrite (collect_ym_missing l H).
  case_decide; eexists; reflexivity.
Qed.

Lemma map_clear_ym_t l : map st_t (map clear_ym l) = map st_t l.
Proof. induction l as [|s l IH]; simpl; congruence. Qed.

Lemma map_clear_ym_y l : map st_y (map clear_ym l) = map st_y l.
Proof. induction l as [|s l IH]; simpl; congruence. Qed.

Lemma map_clear_ym_f l : map st_f (map clear_ym l) = map st_f l.
Proof. induction l as [|s l IH]; simpl; congruence. Qed.

(** X11.  Which midpoint values [spline] reads.  With midpoint
    coefficients [M], every state but the first must carry a [ym]: if one of
    [states[1:]] has [ym = None] the call raises.  The [ym] of the first
    state is never read, and without [M] no [ym] is read at all. *)
Theorem spline_reads_ym M states :
  (M <> None -> (exists s, s ∈ tail states /\ st_ym s = None) ->
   exists e, spline M states = Fail (Exn e)) /\
  (forall s0 rest, states = s0 :: rest ->
     spline M (clear_ym s0 :: rest) = spline M states) /\
  (M = None -> spline M (map clear_ym states) = spline M states).
Proof.
  split; [|split].
  - intros HM Hmiss. destruct M as [m|]; [clear HM|congruence].
    destruct states as [|s0 [|s1 rest]].
    + destruct Hmiss as (s & Hin & _). apply elem_of_nil in Hin. contradiction.
    + destruct Hmiss as (s & Hin & _). apply elem_of_nil in Hin. contradiction.
    + rewrite spline_two. unfold spline_arrays.
      destruct (asarray_ym_missing _ Hmiss) as (e0 & ->).
      unfold np_asarray. repeat case_decide; simpl; eauto.
  - intros s0 rest ->. destruct rest as [|s1 rest]; [reflexivity|].
    rewrite !spline_two. reflexivity.
  - intros ->. destruct (decide (2 <= length states)%nat) as [Htwo|Hshort].
    + rewrite !spline_unfold by (rewrite ?length_map; exact Htwo).
      unfold spline_arrays.
      rewrite map_clear_ym_t, map_clear_ym_y, map_clear_ym_f. reflexivity.
    + destruct states as [|s0 [|s1 rest]]; [reflexivity|reflexivity|].
      simpl in Hshort. lia.
Qed.

Lemma spline_reads_ym_witness :
  exists e, spline (Some M45) (reverse initial_states) = Fail (Exn e).
Proof.
  apply (spline_reads_ym (Some M45) (reverse initial_states)).
  - discriminate.
  - exists (mkOdeState 0 [0] [0] None). split; [|reflexivity].
    unfold initial_states, reverse. simpl. apply elem_of_cons. left. reflexivity.
Defined.



(** ** The coefficient tables on test problems *)

Lemma length_vadd (u v : vec) n : length u = n -> length v = n -> length (vadd u v) = n.
Proof. intros Hu Hv. unfold vadd. rewrite length_zip_with. lia. Qed.

Lemma length_smul a (v : vec) n : length v = n -> length (smul a v) = n.
Proof. intros Hv. unfold smul. rewrite length_map. exact Hv. Qed.

Lemma nth_vadd (u v : vec) j :
  length u = length v -> nth j (vadd u v) 0 = nth j u 0 + nth j v 0.
Proof.
  unfold vadd. revert v j. induction u as [|x u IH]; intros [|z v] [|j] Hlen;
    simpl in *; try discriminate; try lra.
  apply IH. lia.
Qed.

Lemma nth_smul a (v : vec) j : nth j (smul a v) 0 = a * nth j v 0.
Proof.
  unfold smul. revert j. induction v as [|x v IH]; intros [|j]; simpl; try lra.
  apply IH.
Qed.

Lemma nth_repeat_zero n j : nth j (repeat 0 n) 0 = 0.
Proof. revert j. induction n as [|n IH]; intros [|j]; simpl; auto. Qed.

Lemma vec_ext (u v : vec) :
  length u = length v -> (forall j, nth j u 0 = nth j v 0) -> u = v.
Proof.
  revert v. induction u as [|x u IH]; intros [|z v] Hlen H; simpl in *;
    try discriminate; [reflexivity|].
  f_equal; [apply (H 0%nat) | apply IH; [lia | intros j; apply (H (S j))]].
Qed.

Lemma length_poly_rhs n coeffs t y :
  Forall (fun a => length a = n) coeffs -> length (poly_rhs n coeffs t y) = n.
Proof. intros H. unfold poly_rhs. apply length_lincomb. exact H. Qed.

(** Vectors of length [n] built with [vadd] and [smul] are equal when
    their components are, which is an identity of the field of reals. *)
Ltac vlen :=
  repeat first [apply length_vadd | apply length_smul];
  first [assumption | apply repeat_length].

Ltac vec_nth n :=
  repeat first
    [ rewrite nth_smul
    | rewrite nth_repeat_zero
    | rewrite nth_vadd by (transitivity n; [|symmetry]; vlen) ].

Ltac vec_ring n :=
  apply vec_ext; [transitivity n; [|symmetry]; vlen|];
  let j := fresh "j" in intros j; vec_nth n; field.



(** [rk_step] with the coefficients of [RungeKutta23] on a polynomial of
    degree 2 in [t]. *)
Lemma rk23_quadrature n t y h K log a0 a1 a2 :
  length y = n -> Forall (fun r => length r = n) K -> length K = 4%nat ->
  length a0 = n -> length a1 = n -> length a2 = n ->
  exists K' log',
    rk_step (poly_rhs n [a0; a1; a2]) n t y (poly_rhs n [a0; a1; a2] t y) h
            A23 B23 C23 E23 K log
    = Ok (vadd y (poly_rhs_integral n [a0; a1; a2] t (t + h)),
          poly_rhs n [a0; a1; a2] (t + h) y,
          smul (h ^ 3 / 24) a2, K', log').
Proof.
  intros Hy HK HlenK Ha0 Ha1 Ha2.
  assert (Hco3 : Forall (fun a => length a = n) [a0; a1; a2])
    by (repeat constructor; assumption).
  set (g := poly_rhs n [a0; a1; a2]).
  destruct (rk_step_total g n t y h (g t y) A23 B23 C23 E23 K log
              wf_tableau_23 HlenK HK Hy (length_poly_rhs _ _ _ _ Hco3)
              ltac:(intros t' y' Hy'; apply length_poly_rhs; exact Hco3))
    as ([[[y_new f_new] error] K'] & log' & Hrun).
  exists K', log'. rewrite Hrun.
  apply rk_step_sound in Hrun; [|exact HK|simpl; lia].
  destruct Hrun as ([H0 Hstage Hynew Hfnew Hlast Herr] & Hlen & _ & _).
  rewrite HlenK in Hlen.
  destruct K' as [|k0 [|k1 [|k2 [|k3 [|]]]]]; try discriminate.
  injection H0 as ->.
  pose proof (Hstage 0%nat _ _ eq_refl eq_refl) as H1. injection H1 as H1.
  pose proof (Hstage 1%nat _ _ eq_refl eq_refl) as H2. injection H2 as H2.
  injection Hlast as H3. clear Hstage.
  assert (Hk : forall s u, g s u = g s y) by reflexivity.
  rewrite Hk in H1, H2, Hfnew.
  assert (Hy_new : y_new = vadd y (poly_rhs_integral n [a0; a1; a2] t (t + h))).
  { rewrite Hynew. cbn [take lincomb B23 length]. rewrite H2, H1.
    unfold g, poly_rhs, poly_rhs_integral. cbn [lincomb map seq length pow INR].
    clear - Hy Ha0 Ha1 Ha2. vec_ring n. }
  assert (Herror : error = smul (h ^ 3 / 24) a2).
  { rewrite Herr. cbn [lincomb E23]. rewrite H3, Hfnew, H2, H1.
    unfold g, poly_rhs. cbn [lincomb map seq length pow].
    clear - Hy Ha0 Ha1 Ha2. vec_ring n. }
  rewrite Hy_new, Herror, Hfnew. reflexivity.
Qed.





(** ** The content of the stage buffer *)

(** The arguments of the evaluations that [rk_step] logs, read off the
    buffer it leaves. *)
Lemma rk_step_calls fun_ n t y f h A B C E K log y_new f_new error K' log' :
  Forall (fun r => length r = n) K ->
  (length (zip A C) < length B)%nat ->
  rk_step fun_ n t y f h A B C E K log = Ok (y_new, f_new, error, K', log') ->
  exists calls,
    log' = log ++ calls /\
    length calls = S (length (zip A C)) /\
    (forall s a c, zip A C !! s = Some (a, c) ->
       calls !! s = Some (t + c * h, vadd y (smul h (lincomb n (take (S s) K') a)))) /\
    calls !! length (zip A C) = Some (t + h, y_new).
Proof.
  intros HK Hstages Hrun.
  unfold rk_step in Hrun. inv_ok. subst.
  repeat match goal with H : set_row _ _ _ _ = Ok _ |- _ =>
    apply set_row_ok in H; destruct H as (? & ? & ->) end.
  match goal with H : rk_stages _ _ _ _ _ _ _ _ _ = Ok (?x, _) |- _ =>
    rename x into K1; rename H into Hst end.
  assert (HK0 : Forall (fun r => length r = n) (<[0%nat := f]> K))
    by (apply Forall_insert; assumption).
  pose proof (rk_stages_sound _ _ _ _ _ _ _ _ _ _ _ HK0 Hst) as (Hlen1 & _).
  apply rk_stages_log in Hst; [|exact HK0].
  destruct Hst as (calls & -> & Hlen & Hcalls).
  match goal with H : np_dot_T _ (removelast _) _ = Ok _ |- _ =>
    apply np_dot_T_ok in H; destruct H as [HlenB _] end.
  rewrite removelast_firstn_len, length_take in HlenB.
  rewrite length_insert in Hlen1.
  match goal with H : np_add _ _ = Ok ?x |- _ => rename x into y_new end.
  exists (calls ++ [(t + h, y_new)]). split; [|split; [|split]].
  - rewrite app_assoc. reflexivity.
  - rewrite length_app, Hlen. simpl. lia.
  - intros s a c Hs.
    pose proof (lookup_lt_Some _ _ _ Hs) as Hlt.
    specialize (Hcalls s a c Hs). simpl in Hcalls.
    rewrite lookup_app_l by exact (lookup_lt_Some _ _ _ Hcalls).
    rewrite take_insert_ge by lia. exact Hcalls.
  - rewrite <- Hlen. apply list_lookup_middle. reflexivity.
Qed.

(** [rk_step] overwrites every row before it reads it: the whole outcome,
    the log of evaluations included, is the same from any two buffers of the
    right shape. *)
Lemma rk_step_buffer_irrelevant fun_ n t y f h A B C E K1 K2 log :
  wf_tableau A B C E ->
  preserves_shape n fun_ ->
  length y = n -> length f = n ->
  length K1 = S (length B) -> Forall (fun r => length r = n) K1 ->
  length K2 = S (length B) -> Forall (fun r => length r = n) K2 ->
  rk_step fun_ n t y f h A B C E K1 log = rk_step fun_ n t y f h A B C E K2 log.
Proof.
  intros Hwf Hfun Hy Hf HK1 HS1 HK2 HS2.
  destruct (rk_step_total fun_ n t y h f A B C E K1 log Hwf HK1 HS1 Hy Hf Hfun)
    as ([[[y_new f_new] error] K'] & log1 & Hrun1).
  destruct (rk_step_buffer_independent fun_ n t y f h A B C E K1 log _ K' log1 K2 log
              Hwf Hfun Hf HK1 HS1 HK2 HS2 Hrun1) as (log2 & Hrun2).
  rewrite Hrun1, Hrun2. do 2 f_equal.
  assert (Hst : (length (zip A C) < length B)%nat).
  { destruct Hwf. rewrite length_zip_with. lia. }
  destruct (rk_step_calls _ _ _ _ _ _ _ _ _ _ _ _ _ _ _ _ _ HS1 Hst Hrun1)
    as (c1 & -> & Hl1 & Hc1 & Hlast1).
  destruct (rk_step_calls _ _ _ _ _ _ _ _ _ _ _ _ _ _ _ _ _ HS2 Hst Hrun2)
    as (c2 & -> & Hl2 & Hc2 & Hlast2).
  f_equal. unfold call in *. apply list_eq. intros i.
  destruct (decide (i < length (zip A C))%nat) as [Hlt|Hge].
  - destruct (lookup_lt_is_Some_2 _ _ Hlt) as [[a c] Hac].
    rewrite (Hc1 i a c Hac), (Hc2 i a c Hac). reflexivity.
  - destruct (decide (i = length (zip A C))) as [->|Hne].
    + rewrite Hlast1, Hlast2. reflexivity.
    + rewrite !lookup_ge_None_2 by lia. reflexivity.
Qed.

Section BufferContent.

Variable fun_ : R -> vec -> vec.
Variable norm : vec -> R.
Variable ambient : errstate.

Lemma attempt_buffer_irrelevant sv h_abs K1 K2 log :
  wf_solver fun_ sv ->
  length K1 = S (length (rk_B sv)) -> Forall (fun r => length r = rk_n sv) K1 ->
  length K2 = S (length (rk_B sv)) -> Forall (fun r => length r = rk_n sv) K2 ->
  attempt fun_ norm ambient sv h_abs K1 log = attempt fun_ norm ambient sv h_abs K2 log.
Proof.
  intros Hwf HK1 HS1 HK2 HS2. unfold attempt.
  destruct (clamp _ _ _ _ _) as [[h' t_new] h].
  unfold mbind at 1 3. unfold comp_bind at 1 3.
  rewrite (rk_step_buffer_irrelevant fun_ (rk_n sv) _ _ _ _ _ _ _ _ K1 K2 log
             (wf_tab _ _ Hwf) (wf_fun _ _ Hwf) (wf_y _ _ Hwf) (wf_f _ _ Hwf)
             HK1 HS1 HK2 HS2).
  reflexivity.
Qed.

Lemma step_loop_with_K fuel sv K0 : forall h_abs K log,
  step_loop fun_ norm ambient fuel (with_K sv K0) h_abs K log
  = step_loop fun_ norm ambient fuel sv h_abs K log.
Proof.
  induction fuel as [|fuel IH]; intros h_abs K log; [reflexivity|].
  cbn [step_loop].
  change (attempt fun_ norm ambient (with_K sv K0)) with (attempt fun_ norm ambient sv).
  change (shrink ambient (with_K sv K0)) with (shrink ambient sv).
  unfold mbind, comp_bind.
  destruct (attempt fun_ norm ambient sv h_abs K log) as [[tr log1]|e]; [|reflexivity].
  destruct (np_lt (Fin 1) (tr_error_norm tr)); [|reflexivity].
  destruct (lift (shrink ambient sv tr) log1) as [[h' log2]|e]; [|reflexivity].
  rewrite IH. reflexivity.
Qed.

(** X14.  The stage buffer carries nothing from one call of [step] to the
    next: for an active, well-formed stepper the whole outcome of [step],
    the new state, step size, status and buffer and the evaluations made,
    is the same whatever the buffer [K] held before, so the uninitialised
    array that [__init__] allocates with [np.empty] is never read. *)
Theorem step_independent_of_buffer fuel sv K0 log :
  wf_solver fun_ sv -> active sv ->
  length K0 = S (length (rk_B sv)) ->
  Forall (fun r => length r = rk_n sv) K0 ->
  step fun_ norm ambient fuel (with_K sv K0) log = step fun_ norm ambient fuel sv log.
Proof.
  intros Hwf Hact HK0 HS0. unfold step.
  change (rk_status (with_K sv K0)) with (rk_status sv).
  case_decide as Hin; [unfold active in Hact; destruct Hin, Hact; congruence|].
  change (rk_step_size (with_K sv K0)) with (rk_step_size sv).
  change (rk_K (with_K sv K0)) with K0.
  unfold mbind at 1 5. unfold comp_bind at 1 5.
  rewrite step_loop_with_K.
  assert (Hloop : step_loop fun_ norm ambient fuel sv (rk_step_size sv) K0 log
                  = step_loop fun_ norm ambient fuel sv (rk_step_size sv) (rk_K sv) log).
  { destruct fuel as [|fuel]; [reflexivity|]. cbn [step_loop].
    unfold mbind at 1 4. unfold comp_bind at 1 4.
    rewrite (attempt_buffer_irrelevant sv _ K0 (rk_K sv) log Hwf HK0 HS0
               (wf_K_rows _ _ Hwf) (wf_K_cols _ _ Hwf)).
    reflexivity. }
  rewrite Hloop. reflexivity.
Qed.

End BufferContent.

Lemma step_independent_of_buffer_witness :
  step (zero_rhs 1) rms_norm em_warn 1
       (with_K (rk23_stepper 0 1 started) [[7]; [7]; [7]; [7]]) []
  = step (zero_rhs 1) rms_norm em_warn 1 (rk23_stepper 0 1 started) [].
Proof.
  apply (step_independent_of_buffer (zero_rhs 1) rms_norm em_warn 1
           (rk23_stepper 0 1 started) [[7]; [7]; [7]; [7]] []
           (wf_rk23_stepper 0 1 started) (or_introl eq_refl) eq_refl).
  repeat constructor.
Defined.



(** ** The stage points of the two schemes *)





(** ** A run with a rejection *)

Lemma rms_norm_singleton x : rms_norm [x] = Rabs x.
Proof.
  unfold rms_norm, dot. simpl.
  replace ((x * x + 0) / 1) with (Rsqr x) by (unfold Rsqr; field).
  apply sqrt_Rsqr_abs.
Qed.

(** The cube of [3 ** (-1/3)]. *)
Lemma cube_root_third : Rpower 3 (-1 / IZR 3) ^ 3 = 1 / 3.
Proof.
  rewrite <- (Rpower_pow 3 (Rpower 3 (-1 / IZR 3))) by apply exp_pos.
  rewrite Rpower_mult.
  replace (-1 / IZR 3 * INR 3) with (- (1)) by (simpl; field).
  rewrite Rpower_Ropp, Rpower_1 by lra. lra.
Qed.

Lemma cube_root_third_bounds : 6 / 10 < Rpower 3 (-1 / IZR 3) < 7 / 10.
Proof.
  pose proof cube_root_third as H3.
  assert (Hpos : 0 < Rpower 3 (-1 / IZR 3)) by apply exp_pos.
  set (r := Rpower 3 (-1 / IZR 3)) in *. simpl in H3.
  split.
  - destruct (Rlt_le_dec (6 / 10) r) as [H|H]; [exact H|]. exfalso.
    assert (r * r <= 36 / 100) by nra.
    assert (r * (r * r) <= 216 / 1000) by nra. lra.
  - destruct (Rlt_le_dec r (7 / 10)) as [H|H]; [exact H|]. exfalso.
    assert (49 / 100 <= r * r) by nra.
    assert (343 / 1000 <= r * (r * r)) by nra. lra.
Qed.

Lemma wf_rk23_clamped_stepper : wf_solver quadratic_rhs rk23_clamped_stepper.
Proof.
  split; simpl; try reflexivity; try discriminate.
  - apply wf_tableau_23.
  - repeat constructor.
  - intros t y _. apply length_poly_rhs. repeat constructor.
Qed.

Lemma positive_tol_rk23_clamped : positive_tol rk23_clamped_stepper.
Proof. split; simpl; lra. Qed.


(** One pass of the loop of [rk23_clamped_stepper]: the error norm is
    [3 * |h|^3]. *)
Lemma clamped_stepper_trial ambient h_abs K log :
  length K = 4%nat -> Forall (fun r => length r = 1%nat) K ->
  exists tr log',
    attempt quadratic_rhs rms_norm ambient rk23_clamped_stepper h_abs K log
      = Ok (tr, log') /\
    tr_h_in tr = h_abs /\
    clamp 0 1 1 (Rabs (1 - 0)) h_abs = (tr_h_abs tr, tr_t_new tr, tr_h tr) /\
    tr_error_norm tr = Fin (Rabs (3 * tr_h tr ^ 3)) /\
    scaled_error_norm rms_norm rk23_clamped_stepper tr = Rabs (3 * tr_h tr ^ 3) /\
    length (tr_K tr) = 4%nat /\ Forall (fun r => length r = 1%nat) (tr_K tr).
Proof.
  intros HlenK HK.
  destruct (attempt_total quadratic_rhs rms_norm ambient rk23_clamped_stepper h_abs K log
              wf_rk23_clamped_stepper HlenK HK positive_tol_rk23_clamped)
    as (tr & log' & Hatt).
  exists tr, log'. split; [exact Hatt|].
  pose proof (attempt_norm _ _ _ _ _ _ _ _ _ positive_tol_rk23_clamped Hatt) as Hnorm.
  pose proof (attempt_rows _ _ _ _ _ _ _ _ _ wf_rk23_clamped_stepper Hatt) as Hrows.
  pose proof (attempt_inv _ _ _ _ _ _ _ _ _ Hatt) as (Hin & Hclamp & Hrk & _).
  simpl in Hin, Hclamp, Hrk, Hrows.
  pose proof Hrk as Hsound.
  apply rk_step_sound in Hsound; [|exact HK|simpl; lia].
  destruct Hsound as (_ & _ & Hsound & _).
  destruct (rk23_quadrature 1 0 [0] (tr_h tr) K log [0] [0] [72]
              eq_refl HK HlenK eq_refl eq_refl eq_refl) as (K' & log1 & Hq).
  assert (Hf0 : poly_rhs 1 [[0]; [0]; [72]] 0 [0] = [0]).
  { unfold poly_rhs. simpl. unfold vadd, smul. simpl. f_equal. ring. }
  rewrite Hf0 in Hq. unfold quadratic_rhs in Hrk. rewrite Hq in Hrk.
  injection Hrk as Hy _ He HK' _.
  assert (Hsc : scaled_error_norm rms_norm rk23_clamped_stepper tr
                = Rabs (3 * tr_h tr ^ 3)).
  { unfold scaled_error_norm. rewrite <- He, <- Hy. simpl.
    unfold vadd, smul, poly_rhs_integral. simpl.
    rewrite rms_norm_singleton. f_equal. field. }
  split; [exact Hin|]. split; [exact Hclamp|].
  split; [rewrite Hnorm, Hsc; reflexivity|].
  split; [exact Hsc|]. split; [exact Hrows|exact Hsound].
Qed.

Lemma clamped_stepper_shrink ambient tr :
  tr_h_abs tr = 1 -> tr_error_norm tr = Fin 3 ->
  shrink ambient rk23_clamped_stepper tr = Ok (1 * (SAFETY * Rpower 3 (-1 / 3))).
Proof.
  intros Hh Hn. unfold shrink. rewrite Hh, Hn. simpl.
  rewrite (decide_False (P := 3 < 0)) by lra.
  rewrite (decide_False (P := 3 = 0)) by lra.
  simpl. unfold py_max, np_lt.
  rewrite bool_decide_eq_true_2; [reflexivity|].
  pose proof cube_root_third_bounds. unfold MIN_FACTOR, SAFETY. lra.
Qed.

(** The loop of [step] on [rk23_clamped_stepper]: the first trial, clamped
    from 5 to the distance 1 to the boundary, has error norm 3 and is
    rejected; the second, of magnitude [0.9 * 3 ** (-1/3)], has error norm
    [0.729] and is accepted. *)
Lemma clamped_stepper_run ambient :
  exists tr acc log1,
    loop_run quadratic_rhs rms_norm ambient rk23_clamped_stepper
             5 (rk_K rk23_clamped_stepper) [] [tr] acc log1 /\
    tr_h_in tr = 5 /\ tr_h_abs tr = 1 /\
    tr_error_norm tr = Fin 3 /\
    scaled_error_norm rms_norm rk23_clamped_stepper tr = 3 /\
    tr_h_in acc = 1 * (SAFETY * Rpower 3 (-1 / 3)) /\
    tr_h_abs acc = tr_h_in acc /\
    tr_error_norm acc = Fin (729 / 1000) /\
    scaled_error_norm rms_norm rk23_clamped_stepper acc = 729 / 1000 /\
    length (tr_K acc) = 4%nat.
Proof.
  pose proof cube_root_third_bounds as Hr. pose proof cube_root_third as Hr3.
  assert (Hd : Rabs (1 - 0) = 1) by (rewrite Rminus_0_r; apply Rabs_R1).
  destruct (clamped_stepper_trial ambient 5 (rk_K rk23_clamped_stepper) [] eq_refl
              ltac:(repeat constructor))
    as (tr & log1 & Hatt & Hin & Hc & Hn & Hs & Hrows & Hcols).
  rewrite Hd in Hc. unfold clamp in Hc. rewrite decide_True in Hc by lra.
  injection Hc as Hha _ Hh.
  assert (H3 : Rabs (3 * tr_h tr ^ 3) = 3).
  { rewrite <- Hh. replace (3 * (1 * 1) ^ 3) with 3 by ring. apply Rabs_pos_eq. lra. }
  rewrite H3 in Hn, Hs.
  pose proof (clamped_stepper_shrink ambient tr (eq_sym Hha) Hn) as Hshrink.
  set (h2 := 1 * (SAFETY * Rpower 3 (-1 / 3))) in *.
  destruct (clamped_stepper_trial ambient h2 (tr_K tr) log1 Hrows Hcols)
    as (acc & log2 & Hatt2 & Hin2 & Hc2 & Hn2 & Hs2 & Hrows2 & _).
  rewrite Hd in Hc2. unfold clamp in Hc2.
  rewrite decide_False in Hc2 by (unfold h2, SAFETY; lra).
  injection Hc2 as Hha2 _ Hh2.
  assert (H4 : Rabs (3 * tr_h acc ^ 3) = 729 / 1000).
  { rewrite <- Hh2. unfold h2, SAFETY.
    replace 0.9 with (9 / 10) by lra.
    replace (3 * (1 * (9 / 10 * Rpower 3 (-1 / 3)) * 1) ^ 3)
      with (3 * (729 / 1000) * Rpower 3 (-1 / 3) ^ 3) by field.
    rewrite Hr3. replace (3 * (729 / 1000) * (1 / 3)) with (729 / 1000) by field.
    apply Rabs_pos_eq. lra. }
  rewrite H4 in Hn2, Hs2.
  exists tr, acc, log2. split.
  - eapply loop_reject; [exact Hatt| |exact Hshrink|].
    + rewrite Hn. apply np_lt_one_Fin. lra.
    + apply loop_accept; [exact Hatt2|]. rewrite Hn2. apply np_lt_one_Fin_false. lra.
  - repeat split; try assumption; try congruence.
Qed.

(** [step] returns once its loop has: the rest of the call cannot fail
    on a well-formed stepper. *)
Lemma step_returns_after_loop fun_ norm ambient fuel sv log acc rej log1 :
  wf_solver fun_ sv -> active sv -> rk_order sv <> 0%Z ->
  step_loop fun_ norm ambient fuel sv (rk_step_size sv) (rk_K sv) log
    = Ok (acc, rej, log1) ->
  length (tr_K acc) = S (length (rk_B sv)) ->
  (forall x, tr_error_norm acc = Fin x -> 0 <= x) ->
  exists sv' log', step fun_ norm ambient fuel sv log = Ok (sv', log').
Proof.
  intros Hwf Hact Horder Hloop Hrows Hpos.
  destruct (grow_total sv acc Horder Hpos) as (h_abs & Hgrow).
  destruct (midpoint_total fun_ sv acc Hwf Hrows) as (ym & Hym).
  unfold step.
  rewrite decide_False by (unfold active in Hact; intros [? ?]; destruct Hact; congruence).
  unfold mbind at 1, comp_bind. rewrite Hloop.
  erewrite bind_lift by exact Hgrow.
  erewrite bind_lift by exact Hym.
  eexists _, _. reflexivity.
Qed.

Lemma clamped_stepper_step ambient fuel :
  exists tr acc log1 sv' log',
    step_loop quadratic_rhs rms_norm ambient (S (S fuel)) rk23_clamped_stepper
              (rk_step_size rk23_clamped_stepper) (rk_K rk23_clamped_stepper) []
      = Ok (acc, [tr], log1) /\
    step quadratic_rhs rms_norm ambient (S (S fuel)) rk23_clamped_stepper []
      = Ok (sv', log') /\
    tr_h_in tr = 5 /\ tr_h_abs tr = 1 /\
    tr_error_norm tr = Fin 3 /\
    scaled_error_norm rms_norm rk23_clamped_stepper tr = 3 /\
    tr_h_in acc = 1 * (SAFETY * Rpower 3 (-1 / 3)) /\
    tr_h_abs acc = tr_h_in acc /\
    tr_error_norm acc = Fin (729 / 1000) /\
    scaled_error_norm rms_norm rk23_clamped_stepper acc = 729 / 1000.
Proof.
  destruct (clamped_stepper_run ambient)
    as (tr & acc & log1 & Hrun & H1 & H2 & H3 & H4 & H5 & H6 & H7 & H8 & Hrows).
  apply loop_run_step_loop with (fuel := S (S fuel)) in Hrun; [|simpl; lia].
  destruct (step_returns_after_loop quadratic_rhs rms_norm ambient (S (S fuel))
              rk23_clamped_stepper [] acc [tr] log1 wf_rk23_clamped_stepper
              ltac:(left; reflexivity) ltac:(discriminate) Hrun Hrows) as (sv' & log' & Hstep).
  { intros x Hx. rewrite H7 in Hx. injection Hx as <-. lra. }
  exists tr, acc, log1, sv', log'. repeat split; assumption.
Qed.

(** ** A run with a zero scale *)

(** Under an error state that does not raise, the division returns. *)
Lemma np_divide_quiet es (u v : vec) :
  length u = length v -> es_divide es <> em_raise -> es_invalid es <> em_raise ->
  np_divide es u v = Ok (zip_with div_float u v).
Proof.
  intros Hlen Hd Hi. unfold np_divide. rewrite decide_True by exact Hlen.
  cbv zeta. rewrite decide_False by (intros [H _]; exact (Hd H)).
  rewrite decide_False by (intros [H _]; exact (Hi H)). reflexivity.
Qed.

Lemma attempt_total_quiet fun_ norm ambient sv h_abs K log :
  wf_solver fun_ sv ->
  length K = S (length (rk_B sv)) ->
  Forall (fun r => length r = rk_n sv) K ->
  es_divide ambient <> em_raise -> es_invalid ambient <> em_raise ->
  exists tr log', attempt fun_ norm ambient sv h_abs K log = Ok (tr, log').
Proof.
  intros Hwf HlenK HK Hdiv Hinv. unfold attempt.
  destruct (clamp _ _ _ _ _) as [[h_abs' t_new] h].
  destruct (rk_step_total fun_ (rk_n sv) (st_t (rk_state sv)) (st_y (rk_state sv)) h
              (st_f (rk_state sv)) (rk_A sv) (rk_B sv) (rk_C sv) (rk_E sv) K log)
    as ([[[y_new f_new] error] K'] & log' & Hrun);
    try (destruct Hwf; assumption).
  pose proof (rk_step_shapes _ _ _ _ _ _ _ _ _ _ _ _ _ _ _ _ _ Hrun) as (Hy & Hyn & He).
  unfold mbind at 1, comp_bind. rewrite Hrun.
  erewrite bind_lift; cycle 1.
  { apply np_zip_total. unfold np_abs. rewrite !length_map. congruence. }
  assert (Hm : length (muls (zip_with Rmax (np_abs (st_y (rk_state sv))) (np_abs y_new))
                            (rk_rtol sv)) = rk_n sv).
  { unfold muls, np_abs. rewrite length_map, length_zip_with, !length_map. lia. }
  assert (Hscale : exists scale,
    add_tol (rk_atol sv)
      (muls (zip_with Rmax (np_abs (st_y (rk_state sv))) (np_abs y_new)) (rk_rtol sv))
    = Ok scale /\ length scale = rk_n sv).
  { unfold add_tol. destruct (rk_atol sv) as [a|w] eqn:Hat.
    - eexists. split; [reflexivity|]. rewrite length_map. exact Hm.
    - eexists. split.
      + apply np_zip_total. rewrite Hm. apply (wf_atol _ _ Hwf w Hat).
      + rewrite length_zip_with, Hm, (wf_atol _ _ Hwf w Hat). lia. }
  destruct Hscale as (scale & Hscale & Hlen).
  erewrite bind_lift by exact Hscale.
  erewrite bind_lift; cycle 1.
  { apply np_divide_quiet; [congruence|exact Hdiv|exact Hinv]. }
  eexists _, _. reflexivity.
Qed.

Lemma wf_rk23_zero_scale_stepper : wf_solver (zero_rhs 1) rk23_zero_scale_stepper.
Proof.
  split; simpl; try reflexivity; try discriminate.
  - apply wf_tableau_23.
  - repeat constructor.
  - intros t y _. reflexivity.
Qed.

(** The loop of [step] on [rk23_zero_scale_stepper]: the error and the
    scale are zero, their quotient is [nan], and so is the norm; the test
    [error_norm > 1] is false and the first trial is accepted. *)
Lemma zero_scale_stepper_step fuel :
  exists acc log1 sv' log',
    step_loop (zero_rhs 1) rms_norm em_warn (S fuel) rk23_zero_scale_stepper
              (rk_step_size rk23_zero_scale_stepper) (rk_K rk23_zero_scale_stepper) []
      = Ok (acc, [], log1) /\
    step (zero_rhs 1) rms_norm em_warn (S fuel) rk23_zero_scale_stepper []
      = Ok (sv', log') /\
    tr_error_norm acc = NaN /\
    st_t (rk_state sv') = 1 / 10 /\ rk_status sv' = running.
Proof.
  destruct (attempt_total_quiet (zero_rhs 1) rms_norm em_warn rk23_zero_scale_stepper
              (rk_step_size rk23_zero_scale_stepper) (rk_K rk23_zero_scale_stepper) []
              wf_rk23_zero_scale_stepper eq_refl ltac:(repeat constructor)
              ltac:(discriminate) ltac:(discriminate)) as (acc & log1 & Hatt).
  pose proof (attempt_inv _ _ _ _ _ _ _ _ _ Hatt) as (_ & Hc & Hrk & Hn).
  assert (Ht : tr_t_new acc = 1 / 10).
  { simpl in Hc. unfold clamp in Hc.
    rewrite Rminus_0_r, Rabs_R1 in Hc. rewrite decide_False in Hc by lra.
    injection Hc as _ <- _. lra. }
  apply (rk_step_zero_fun 1) in Hrk;
    [|apply wf_tableau_23|reflexivity|repeat constructor].
  destruct Hrk as (Hy & _ & Herr & _).
  assert (Hnan : tr_error_norm acc = NaN).
  { rewrite Hn, Herr, Hy. simpl.
    rewrite Rabs_R0. unfold Rmax. destruct (Rle_dec 0 0); [|lra].
    unfold div_float. rewrite decide_True by lra. rewrite decide_True by reflexivity.
    unfold norm_float. rewrite decide_True; [reflexivity|]. constructor. reflexivity. }
  destruct (step_first_accepted (zero_rhs 1) rms_norm em_warn rk23_zero_scale_stepper
              fuel [] acc log1 wf_rk23_zero_scale_stepper ltac:(left; reflexivity)
              ltac:(discriminate) Hatt) as (Hloop & h_abs & ym & _ & _ & Hstep).
  { rewrite Hnan. reflexivity. }
  { intros x Hx. rewrite Hnan in Hx. discriminate. }
  eexists acc, log1, _, _. split; [exact Hloop|]. split; [exact Hstep|].
  split; [exact Hnan|]. simpl. split; [exact Ht|].
  unfold next_status. rewrite Ht. rewrite !decide_False by lra. reflexivity.
Qed.

Lemma accepted_trial_within_tolerance_witness :
  exists tr acc log1 sv' log',
    step_loop quadratic_rhs rms_norm em_warn 2 rk23_clamped_stepper
              (rk_step_size rk23_clamped_stepper) (rk_K rk23_clamped_stepper) []
      = Ok (acc, [tr], log1) /\
    step quadratic_rhs rms_norm em_warn 2 rk23_clamped_stepper [] = Ok (sv', log') /\
    st_y (rk_state sv') = tr_y_new acc /\
    scaled_error_norm rms_norm rk23_clamped_stepper acc <= 1 /\
    scaled_error_norm rms_norm rk23_clamped_stepper tr > 1 /\
    tr_h_in acc < tr_h_abs tr.
Proof.
  destruct (clamped_stepper_step em_warn 0)
    as (tr & acc & log1 & sv' & log' & Hloop & Hstep & _ & Hh & _).
  exists tr, acc, log1, sv', log'.
  split; [exact Hloop|]. split; [exact Hstep|].
  destruct (accepted_trial_within_tolerance quadratic_rhs rms_norm em_warn 2
              rk23_clamped_stepper [] acc [tr] log1 sv' log'
              (or_introl eq_refl) Hloop Hstep)
    as (_ & _ & Hy & _ & _ & Htol & Hnext).
  destruct (Htol positive_tol_rk23_clamped) as (_ & Hacc & Hrej).
  apply Forall_cons_1 in Hrej as [[_ Hrej] _].
  destruct (Hnext 0%nat tr acc eq_refl eq_refl) as (_ & Hlt).
  destruct (Hlt ltac:(simpl; lia) ltac:(simpl; lra)) as (_ & Hlt').
  split; [exact Hy|]. split; [exact Hacc|]. split; [exact Hrej|].
  apply Hlt'. rewrite Hh. lra.
Defined.

(** C2 as stated fails when a component of the scale is zero: on
    [rk23_zero_scale_stepper] the norm of line 138 is [nan], line 140 lets it
    through, and [step] emits the trial. *)
Lemma accepted_trial_norm_nan :
  exists acc log1 sv' log',
    step_loop (zero_rhs 1) rms_norm em_warn 1 rk23_zero_scale_stepper
              (rk_step_size rk23_zero_scale_stepper) (rk_K rk23_zero_scale_stepper) []
      = Ok (acc, [], log1) /\
    step (zero_rhs 1) rms_norm em_warn 1 rk23_zero_scale_stepper [] = Ok (sv', log') /\
    st_t (rk_state sv') = 1 / 10 /\ rk_status sv' = running /\
    tr_error_norm acc = NaN /\
    ~ np_le (tr_error_norm acc) (Fin 1).
Proof.
  destruct (zero_scale_stepper_step 0)
    as (acc & log1 & sv' & log' & Hloop & Hstep & Hnan & Ht & Hst).
  exists acc, log1, sv', log'.
  split; [exact Hloop|]. split; [exact Hstep|]. split; [exact Ht|].
  split; [exact Hst|]. split; [exact Hnan|]. rewrite Hnan. simpl. tauto.
Qed.

Lemma step_size_bounds_witness :
  exists tr acc log1 sv' log',
    step_loop quadratic_rhs rms_norm em_warn 2 rk23_clamped_stepper
              (rk_step_size rk23_clamped_stepper) (rk_K rk23_clamped_stepper) []
      = Ok (acc, [tr], log1) /\
    step quadratic_rhs rms_norm em_warn 2 rk23_clamped_stepper [] = Ok (sv', log') /\
    tr_h_abs tr * MIN_FACTOR <= tr_h_in acc /\
    np_le (Fin (rk_step_size sv')) (py_min PInf (Fin (5 * MAX_FACTOR))).
Proof.
  destruct (clamped_stepper_step em_warn 0)
    as (tr & acc & log1 & sv' & log' & Hloop & Hstep & _).
  exists tr, acc, log1, sv', log'.
  split; [exact Hloop|]. split; [exact Hstep|].
  destruct (step_size_bounds quadratic_rhs rms_norm em_warn 2
              rk23_clamped_stepper [] acc [tr] log1 sv' log'
              (or_introl eq_refl) ltac:(simpl; lia) ltac:(simpl; lra) Hloop Hstep)
    as (_ & _ & _ & Hmax & Hnext).
  destruct (Hmax ltac:(discriminate)) as (_ & Hstored).
  destruct (Hnext 0%nat tr acc eq_refl eq_refl) as (Hmin & _).
  split; [exact Hmin|exact Hstored].
Defined.

(** C5 as stated fails on a clamped step: on [rk23_clamped_stepper] the
    stored step size 5 is cut to the distance 1 to the boundary by line 129
    before line 141 multiplies it, and the trial after the rejection starts
    from [0.9 * 3 ** (-1/3) < 0.63], below [5 * MIN_FACTOR = 1]. *)
Lemma rejection_below_min_factor :
  exists tr acc log1 sv' log',
    step_loop quadratic_rhs rms_norm em_warn 2 rk23_clamped_stepper
              (rk_step_size rk23_clamped_stepper) (rk_K rk23_clamped_stepper) []
      = Ok (acc, [tr], log1) /\
    step quadratic_rhs rms_norm em_warn 2 rk23_clamped_stepper [] = Ok (sv', log') /\
    tr_h_in tr = rk_step_size rk23_clamped_stepper /\
    tr_h_in acc < rk_step_size rk23_clamped_stepper * MIN_FACTOR.
Proof.
  destruct (clamped_stepper_step em_warn 0)
    as (tr & acc & log1 & sv' & log' & Hloop & Hstep & Hin & _ & _ & _ & Hacc & _).
  exists tr, acc, log1, sv', log'.
  split; [exact Hloop|]. split; [exact Hstep|]. split; [exact Hin|].
  rewrite Hacc. pose proof cube_root_third_bounds. simpl.
  unfold SAFETY, MIN_FACTOR. lra.
Qed.
